(** * c64koala2ppm: KoalaPaint to Portable Pixmap

    A shallow embedding of [c64koala2ppm.c] and the properties of its
    palette generation, image decoding, pixel reconstruction and pixmap
    output.

    Conventions of the embedding:
    - a C [float] is an IEEE-754 binary32 value and a [double] a binary64
      value, both as [spec_float] with the operations of [SpecFloat]
      (round to nearest, ties to even); every operation is carried out in
      the type C gives it (FLT_EVAL_METHOD 0);
    - a byte of memory is a [Z] in 0..255; plain [char] is signed, so a
      [char] read from memory is sign-extended to [int];
    - an array is a list, read and written through bounds-checked
      accessors that fail ([None]) where C has undefined behaviour. *)

From Stdlib Require Import ZArith Floats.SpecFloat.
From stdpp Require Import base option list strings pretty.

Open Scope Z_scope.

(** ** IEEE-754 formats and the C conversions between them *)

Module F32.
Definition prec : Z := 24.
Definition emax : Z := 128.
Definition mul := SFmul prec emax.
Definition add := SFadd prec emax.
Definition ltb := SFltb.
Definition valid := valid_binary prec emax.
(** [int] to [float]. *)
Definition of_int (z : Z) : spec_float := binary_normalize prec emax z 0 false.
(** [double] to [float]: rounds. *)
Definition of_double (x : spec_float) : spec_float :=
  match x with
  | S754_finite s m e => binary_round prec emax s m e
  | _ => x
  end.
End F32.

Module F64.
Definition prec : Z := 53.
Definition emax : Z := 1024.
Definition mul := SFmul prec emax.
Definition add := SFadd prec emax.
Definition div := SFdiv prec emax.
Definition opp := SFopp.
Definition valid := valid_binary prec emax.
(** [int] to [double]: exact. *)
Definition of_int (z : Z) : spec_float := binary_normalize prec emax z 0 false.
(** [float] to [double]: exact, the mantissa is re-aligned to 53 bits. *)
Definition of_float (x : spec_float) : spec_float :=
  match x with
  | S754_finite s m e => binary_round prec emax s m e
  | _ => x
  end.
(** A decimal literal [num / den] with both parts exactly representable:
    IEEE division rounds the quotient as the compiler rounds the literal. *)
Definition lit (num den : Z) : spec_float := div (of_int num) (of_int den).
End F64.

Definition INT_MIN : Z := - 2 ^ 31.
Definition INT_MAX : Z := 2 ^ 31 - 1.

(** [double] to [int]: truncation toward zero; undefined ([None]) for NaN,
    infinities and values whose integral part is not an [int]. *)
Definition double_to_int (x : spec_float) : option Z :=
  match x with
  | S754_zero _ => Some 0
  | S754_finite s m e =>
      let a := match e with
               | Zneg p => Zpos m / 2 ^ Zpos p
               | _ => Zpos m * 2 ^ e
               end in
      let z := if s then - a else a in
      if (INT_MIN <=? z) && (z <=? INT_MAX) then Some z else None
  | _ => None
  end.

Definition is_nan (x : spec_float) : bool :=
  match x with S754_nan => true | _ => false end.

(** Zero or finite: neither NaN nor an infinity. *)
Definition is_finite (x : spec_float) : bool :=
  match x with S754_zero _ | S754_finite _ _ _ => true | _ => false end.

Definition is_zero (x : spec_float) : bool :=
  match x with S754_zero _ => true | _ => false end.

(** ** Constants of the source *)

Definition USCALE : spec_float := F64.lit 1331 10000.
Definition VSCALE : spec_float := F64.lit 1331 10000.
Definition SATURATION : spec_float := F64.lit 10 10.
(** [M_PI] of <math.h>, 3.14159265358979323846 rounded to binary64. *)
Definition M_PI : spec_float := S754_finite false 7074237752028440 (-51).

Record c64_color := { angle : Z; luma : Z; saturation : Z }.

Definition c64_colors : list c64_color :=
  [ {| angle :=  0; luma :=  0; saturation := 0 |};   (* black *)
    {| angle :=  0; luma := 32; saturation := 0 |};   (* white *)
    {| angle :=  5; luma := 10; saturation := 1 |};   (* red *)
    {| angle := 13; luma := 20; saturation := 1 |};   (* cyan *)
    {| angle :=  2; luma := 12; saturation := 1 |};   (* purple *)
    {| angle := 10; luma := 16; saturation := 1 |};   (* green *)
    {| angle :=  0; luma :=  8; saturation := 1 |};   (* blue *)
    {| angle :=  8; luma := 24; saturation := 1 |};   (* yellow *)
    {| angle :=  6; luma := 12; saturation := 1 |};   (* orange *)
    {| angle :=  7; luma :=  8; saturation := 1 |};   (* brown *)
    {| angle :=  5; luma := 16; saturation := 1 |};   (* light red *)
    {| angle :=  0; luma := 10; saturation := 0 |};   (* dark grey *)
    {| angle :=  0; luma := 15; saturation := 0 |};   (* grey *)
    {| angle := 10; luma := 24; saturation := 1 |};   (* light green *)
    {| angle :=  0; luma := 15; saturation := 1 |};   (* light blue *)
    {| angle :=  0; luma := 20; saturation := 0 |} ]. (* light grey *)

(** The y component is luma; all three fields are C [float]s. *)
Record yuv_color := { yuv_y : spec_float; yuv_u : spec_float; yuv_v : spec_float }.

Record rgb_color := { r : Z; g : Z; b : Z }.

(** ** Palette generation *)

Section Palette.
(** [cos] and [sin] of <math.h>, on [double]. *)
Variables cos sin : spec_float -> spec_float.

(** The global [float saturation]. *)
Variable global_saturation : spec_float.

(** [c64->angle*M_PI/8], a [double]. *)
Definition hue (c64 : c64_color) : spec_float :=
  F64.div (F64.mul (F64.of_int (angle c64)) M_PI) (F64.of_int 8).

(** [c64->saturation * saturation * scale * f(angle)]: two [float]
    products, then a [double] product, stored in a [float]. *)
Definition chroma (c64 : c64_color) (scale : spec_float)
    (f : spec_float -> spec_float) : spec_float :=
  F32.of_double
    (F64.mul
       (F64.of_float
          (F32.mul (F32.mul (F32.of_int (saturation c64)) global_saturation) scale))
       (f (hue c64))).

(** [32.] is 32 as a [double]. *)
Definition c64_to_yuv (c64 : c64_color) (uscale vscale : spec_float) : yuv_color :=
  {| yuv_y := F32.of_double (F64.div (F64.of_int (luma c64)) (F64.of_int 32));
     yuv_u := chroma c64 uscale cos;
     yuv_v := chroma c64 vscale sin |}.

(** The macro [BOUND], on a [float]; the comparisons convert the [int]
    constants to [float]. *)
Definition BOUND (x : spec_float) : spec_float :=
  if F32.ltb x (F32.of_int 0) then F32.of_int 0
  else if F32.ltb (F32.of_int 1) x then F32.of_int 1
  else x.

(** [255*x + 0.5] stored in an [int]: a [float] product, a [double] sum,
    then truncation. *)
Definition to_byte (x : spec_float) : option Z :=
  double_to_int
    (F64.add (F64.of_float (F32.mul (F32.of_int 255) x)) (F64.lit 5 10)).

(** The three linear values, each a [double] expression stored in a
    [float]. *)
Definition linear_r (yuv : yuv_color) : spec_float :=
  F32.of_double
    (F64.add (F64.of_float (yuv_y yuv))
             (F64.mul (F64.lit 113983 100000) (F64.of_float (yuv_v yuv)))).

Definition linear_g (yuv : yuv_color) : spec_float :=
  F32.of_double
    (F64.add
       (F64.add (F64.of_float (yuv_y yuv))
                (F64.mul (F64.opp (F64.lit 39465 100000)) (F64.of_float (yuv_u yuv))))
       (F64.mul (F64.opp (F64.lit 58060 100000)) (F64.of_float (yuv_v yuv)))).

Definition linear_b (yuv : yuv_color) : spec_float :=
  F32.of_double
    (F64.add (F64.of_float (yuv_y yuv))
             (F64.mul (F64.lit 203211 100000) (F64.of_float (yuv_u yuv)))).

Definition yuv_to_rgb (yuv : yuv_color) : option rgb_color :=
  let r := BOUND (linear_r yuv) in
  let g := BOUND (linear_g yuv) in
  let b := BOUND (linear_b yuv) in
  r' ← to_byte r;
  g' ← to_byte g;
  b' ← to_byte b;
  Some {| r := r'; g := g'; b := b' |}.

Definition c64_to_rgb (c64 : c64_color) (uscale vscale : spec_float) : option rgb_color :=
  yuv_to_rgb (c64_to_yuv c64 uscale vscale).

(** [init_colors]: the sixteen entries of [c64colors], in order; the
    [double] constants USCALE and VSCALE become [float] arguments. *)
Definition init_colors : option (list rgb_color) :=
  mapM (fun c64 => c64_to_rgb c64 (F32.of_double USCALE) (F32.of_double VSCALE))
       c64_colors.
End Palette.

(** A table-driven [cos] and [sin] for evaluation: at the sixteen hue
    angles the exact values rounded to 15 decimal places, 1 elsewhere. *)
Fixpoint trig_lookup (x : spec_float) (table : list (spec_float * spec_float))
    : spec_float :=
  match table with
  | [] => F64.of_int 1
  | (k, v) :: table => if SFeqb k x then v else trig_lookup x table
  end.

Definition trig_table (vals : list spec_float) (x : spec_float) : spec_float :=
  let keys := map (fun k => F64.div (F64.mul (F64.of_int k) M_PI) (F64.of_int 8))
                  (seqZ 0 16) in
  trig_lookup x (zip keys vals).

Definition cos_values : list spec_float :=
  let c0 := F64.of_int 1 in
  let c1 := F64.lit 923879532511287 1000000000000000 in
  let c2 := F64.lit 707106781186548 1000000000000000 in
  let c3 := F64.lit 382683432365090 1000000000000000 in
  let c4 := F64.of_int 0 in
  [ c0; c1; c2; c3; c4; F64.opp c3; F64.opp c2; F64.opp c1;
    F64.opp c0; F64.opp c1; F64.opp c2; F64.opp c3;
    c4; c3; c2; c1 ].

(** sin x = cos (x - pi/2). *)
Definition sin_values : list spec_float :=
  drop 12 cos_values ++ take 12 cos_values.

Definition cos_sample : spec_float -> spec_float := trig_table cos_values.
Definition sin_sample : spec_float -> spec_float := trig_table sin_values.

(** ** Memory and the input and output streams *)

(** A plain [char] read from memory and promoted to [int]. *)
Definition char_to_int (byte : Z) : Z :=
  if byte <? 128 then byte else byte - 256.

(** Conversion of an [int] to [unsigned char], as [%c] does. *)
Definition int_to_uchar (v : Z) : Z := v mod 256.

(** [a[i]] on an array of [length a] elements. *)
Definition index1 {A} (a : list A) (i : Z) : option A :=
  if 0 <=? i then a !! Z.to_nat i else None.

(** Offset of [a[i][j]] in an array [a[d1][d2]]. *)
Definition offset2 (d1 d2 i j : Z) : option nat :=
  if (0 <=? i) && (i <? d1) && (0 <=? j) && (j <? d2)
  then Some (Z.to_nat (i * d2 + j)) else None.

(** Offset of [a[i][j][k]] in an array [a[d1][d2][d3]]. *)
Definition offset3 (d1 d2 d3 i j k : Z) : option nat :=
  if (0 <=? i) && (i <? d1) && (0 <=? j) && (j <? d2) && (0 <=? k) && (k <? d3)
  then Some (Z.to_nat ((i * d2 + j) * d3 + k)) else None.

(** [a[o] = v] at an offset inside the array. *)
Definition store {A} (a : list A) (o : nat) (v : A) : option (list A) :=
  if decide (o < length a)%nat then Some (<[o := v]> a) else None.

Inductive io_call :=
  | Fopen (name : string) (ok : bool)
  | Fread (size : Z) (ok : bool).

Record world := {
  koalafile : list Z;      (* unread bytes of the input stream *)
  io_log : list io_call;   (* the calls made on the input, oldest first *)
  stdout : list Z;
  stderr : list string }.

Definition eprint (msg : string) (w : world) : world :=
  {| koalafile := koalafile w; io_log := io_log w;
     stdout := stdout w; stderr := stderr w ++ [msg] |}.

Definition print (bytes : list Z) (w : world) : world :=
  {| koalafile := koalafile w; io_log := io_log w;
     stdout := stdout w ++ bytes; stderr := stderr w |}.

(** [fread(buf, size, 1, koalafile)]: the bytes available, up to [size],
    are stored at the start of [buf] in the order read; the call returns
    1 ([true]) when all [size] bytes were there. *)
Definition fread (buf : list Z) (size : Z) (w : world) : bool * list Z * world :=
  let got := take (Z.to_nat size) (koalafile w) in
  let ok := bool_decide (length got = Z.to_nat size) in
  (ok, got ++ drop (length got) buf,
   {| koalafile := drop (Z.to_nat size) (koalafile w);
      io_log := io_log w ++ [Fread size ok];
      stdout := stdout w; stderr := stderr w |}).

Definition nl : string := String (Ascii.ascii_of_nat 10) "".
Definition dquote : string := String (Ascii.ascii_of_nat 34) "".

Definition bytes_of_string (s : string) : list Z :=
  map (fun c => Z.of_nat (Ascii.nat_of_ascii c)) (String.list_ascii_of_string s).

(** ** Decoding the Koala file *)

Record image := { bitmap : list Z; video : list Z; color : list Z; bg : Z }.

(** The contents [memset] and the assignment to [bg] leave for short
    files. *)
Definition fallback : image :=
  {| bitmap := replicate (Z.to_nat 8000) 0x1b;
     video := replicate (Z.to_nat 1000) 0x25;
     color := replicate (Z.to_nat 1000) 0x06;
     bg := 0x00 |}.

Definition too_short (argv0 : string) : string :=
  argv0 +:+ ": koala file is too short. Output may be corrupt." +:+ nl.

(** The right operand of [&&]: the call is made only when the operand on
    its left was non-zero. *)
Definition and_fread (ok : bool) (buf : list Z) (size : Z) (w : world)
    : bool * list Z * world :=
  if ok then fread buf size w else (false, buf, w).

(** Lines 257 to 268 of [main]: the fallback contents, the chain of
    [fread] calls and the warning when one of them returned 0. The two
    bytes of [loadaddr] are never used. *)
Definition read_koala (argv0 : string) (w : world) : image * world :=
  let '(ok, _, w) := fread [0; 0] 2 w in
  let '(ok, bitmap, w) := and_fread ok (bitmap fallback) 8000 w in
  let '(ok, video, w) := and_fread ok (video fallback) 1000 w in
  let '(ok, color, w) := and_fread ok (color fallback) 1000 w in
  let '(ok, bgbuf, w) := and_fread ok [bg fallback] 1 w in
  let w := if ok then w else eprint (too_short argv0) w in
  ({| bitmap := bitmap; video := video; color := color;
      bg := default 0 (head bgbuf) |}, w).

(** A stream holding [input], nothing read or written yet. *)
Definition stream (input : list Z) : world :=
  {| koalafile := input; io_log := []; stdout := []; stderr := [] |}.

(** The image [main] decodes from a file holding [input]. *)
Definition decode (input : list Z) : image := fst (read_koala "" (stream input)).

Definition succeeded (c : io_call) : Prop :=
  match c with Fread _ ok => ok = true | Fopen _ ok => ok = true end.

(** A sequence of calls that ends with its first failure. *)
Definition stops_at_failure (calls : list io_call) : Prop :=
  exists pre size, calls = pre ++ [Fread size false] /\ Forall succeeded pre.

(** ** Pixel reconstruction *)

(** The local arrays of [main] that the card loops write. *)
Record frame := {
  colors : list rgb_color;     (* struct rgb_color colors[4] *)
  outbitmap : list Z;          (* char outbitmap[200][40] *)
  outimage : list rgb_color }. (* struct rgb_color outimage[200][160] *)

Definition set_colors (i : Z) (v : rgb_color) (fr : frame) : option frame :=
  if (0 <=? i) && (i <? 4) then
    cs ← store (colors fr) (Z.to_nat i) v;
    Some {| colors := cs; outbitmap := outbitmap fr; outimage := outimage fr |}
  else None.

Definition set_outbitmap (i j : Z) (v : Z) (fr : frame) : option frame :=
  o ← offset2 200 40 i j;
  ob ← store (outbitmap fr) o v;
  Some {| colors := colors fr; outbitmap := ob; outimage := outimage fr |}.

Definition set_outimage (i j : Z) (v : rgb_color) (fr : frame) : option frame :=
  o ← offset2 200 160 i j;
  oi ← store (outimage fr) o v;
  Some {| colors := colors fr; outbitmap := outbitmap fr; outimage := oi |}.

(** A [for] loop over the values [l] of its counter, threading the state
    and stopping at the first failure. *)
Fixpoint for_each {A S} (l : list A) (body : A -> S -> option S) (s : S) : option S :=
  match l with
  | [] => Some s
  | a :: l => s' ← body a s; for_each l body s'
  end.
Arguments for_each : simpl never.

Section Render.
(** The global [c64colors] and the decoded arrays. *)
Variable c64colors : list rgb_color.
Variable img : image.

(** Body of [for (b = 0; b < 8; b += 2)]. *)
Definition pixel_body (c outx outy : Z) (b : Z) (fr : frame) : option frame :=
  outcolor ← index1 (colors fr) (Z.land (Z.shiftr c b) 3);
  set_outimage outy (4 * outx + Z.quot (6 - b) 2) outcolor fr.

(** Body of [for (y = 0; y < 8; ++y)]. *)
Definition row_body (cardy cardx : Z) (y : Z) (fr : frame) : option frame :=
  let outx := cardx in
  let outy := 8 * cardy + y in
  o ← offset3 25 40 8 cardy cardx y;
  byte ← bitmap img !! o;
  let c := char_to_int byte in
  fr ← set_outbitmap outy outx byte fr;
  for_each [0; 2; 4; 6] (pixel_body c outx outy) fr.

(** Lines 279 to 283: the three assignments to [colors] at the start
    of a card. *)
Definition card_colors (cardy cardx : Z) (fr : frame) : option frame :=
  o ← offset2 25 40 cardy cardx;
  v ← video img !! o;
  c1 ← index1 c64colors (Z.land (Z.shiftr (char_to_int v) 4) 0x0f);
  fr ← set_colors 1 c1 fr;
  c2 ← index1 c64colors (Z.land (char_to_int v) 0x0f);
  fr ← set_colors 2 c2 fr;
  k ← color img !! o;
  c3 ← index1 c64colors (Z.land (char_to_int k) 0x0f);
  set_colors 3 c3 fr.

(** Body of [for (cardx = 0; cardx < 40; ++cardx)]. *)
Definition card_body (cardy : Z) (cardx : Z) (fr : frame) : option frame :=
  fr ← card_colors cardy cardx fr;
  for_each (seqZ 0 8) (row_body cardy cardx) fr.

(** Body of [for (cardy = 0; cardy < 25; ++cardy)]. *)
Definition cardrow_body (cardy : Z) (fr : frame) : option frame :=
  for_each (seqZ 0 40) (card_body cardy) fr.

(** Lines 274 to 298 of [main]. *)
Definition render (fr : frame) : option frame :=
  c0 ← index1 c64colors (Z.land (bg img) 0x0f);
  fr ← set_colors 0 c0 fr;
  for_each (seqZ 0 25) cardrow_body fr.

(** *** The raster as a function of the image

    What the loops above are shown to compute, cell by cell. *)

Definition black : rgb_color := {| r := 0; g := 0; b := 0 |}.

Definition palette_entry (i : Z) : rgb_color :=
  default black (c64colors !! Z.to_nat i).

Definition video_byte (cardy cardx : Z) : Z :=
  default 0 (video img !! Z.to_nat (cardy * 40 + cardx)).

Definition color_byte (cardy cardx : Z) : Z :=
  default 0 (color img !! Z.to_nat (cardy * 40 + cardx)).

Definition bitmap_byte (cardy cardx y : Z) : Z :=
  default 0 (bitmap img !! Z.to_nat ((cardy * 40 + cardx) * 8 + y)).

(** The contents of [colors] while card ([cardy], [cardx]) is drawn. *)
Definition block_colors (cardy cardx : Z) : list rgb_color :=
  [ palette_entry (Z.land (bg img) 0x0f);
    palette_entry (Z.land (Z.shiftr (char_to_int (video_byte cardy cardx)) 4) 0x0f);
    palette_entry (Z.land (char_to_int (video_byte cardy cardx)) 0x0f);
    palette_entry (Z.land (char_to_int (color_byte cardy cardx)) 0x0f) ].

(** The 2-bit code at bit position [b] of a bitmap byte. *)
Definition pixel_code (byte : Z) (b : Z) : Z :=
  Z.land (Z.shiftr (char_to_int byte) b) 3.

(** The colour of the raster at row [outy], column [outx]. *)
Definition pixel_at (outy outx : Z) : rgb_color :=
  let cardy := outy / 8 in
  let cardx := outx / 4 in
  let code := pixel_code (bitmap_byte cardy cardx (outy mod 8))
                         (6 - 2 * (outx mod 4)) in
  default black (block_colors cardy cardx !! Z.to_nat code).

Definition raster : list rgb_color :=
  (fun o => pixel_at (o / 160) (o mod 160)) <$> seqZ 0 32000.
End Render.

Definition image_wf (img : image) : Prop :=
  length (bitmap img) = Z.to_nat 8000 /\
  length (video img) = Z.to_nat 1000 /\
  length (color img) = Z.to_nat 1000.

Definition frame_wf (fr : frame) : Prop :=
  length (colors fr) = Z.to_nat 4 /\
  length (outbitmap fr) = Z.to_nat 8000 /\
  length (outimage fr) = Z.to_nat 32000.

(** ** Writing the pixmap *)

(** [printf("P6\n%d %d\n%d\n", 160, 200, 255)]. *)
Definition ppm_header : list Z :=
  bytes_of_string
    ("P6" +:+ nl +:+ pretty 160 +:+ " " +:+ pretty 200 +:+ nl +:+ pretty 255 +:+ nl).

(** [printf("%c%c%c", p.r, p.g, p.b)]. *)
Definition pixel_bytes (p : rgb_color) : list Z :=
  [int_to_uchar (r p); int_to_uchar (g p); int_to_uchar (b p)].

Definition write_pixel (oi : list rgb_color) (y x : Z) (w : world) : option world :=
  o ← offset2 200 160 y x;
  p ← oi !! o;
  Some (print (pixel_bytes p) w).

Definition write_row (oi : list rgb_color) (y : Z) (w : world) : option world :=
  for_each (seqZ 0 160) (write_pixel oi y) w.

(** Lines 300 to 310 of [main]. *)
Definition write_ppm (oi : list rgb_color) (w : world) : option world :=
  for_each (seqZ 0 200) (write_row oi) (print ppm_header w).

(** ** Command line *)

(** What one call of [getopt(argc, argv, "hLs:")] returns: an option
    letter, with [optarg] for [-s], or ['?'] after printing its own
    diagnostic. The calls are an input of the model, in order, followed by
    the operands [argv[optind]] .. [argv[argc-1]] left at the end. *)
Inductive getopt_ret :=
  | Opt_h
  | Opt_L
  | Opt_s (optarg : string)
  | Opt_unknown (diagnostic : string).

Record cmdline := {
  argv0 : string;
  options : list getopt_ret;
  operands : list string }.

Definition usage_text (argv0 : string) : string :=
  "Usage: " +:+ argv0 +:+ " [-hL] [-s saturation] [koala_file]" +:+ nl +:+
  "  -h             Show this help message and exit" +:+ nl +:+
  "  -L             Show license information and exit" +:+ nl +:+
  "  -s saturation  Set the output saturation. Value must be >= 0" +:+ nl.

Definition license_text : string :=
  "c64koala2ppm, convert a Commodore 64 KoalaPaint image to Portable Pixmap" +:+ nl +:+
  "Copyright 2009 Christopher Williams" +:+ nl +:+
  nl +:+
  "This program is free software; you can redistribute it and/or" +:+ nl +:+
  "modify it under the terms of the GNU General Public License" +:+ nl +:+
  "as published by the Free Software Foundation; either version 2" +:+ nl +:+
  "of the License, or (at your option) any later version." +:+ nl +:+
  nl +:+
  "This program is distributed in the hope that it will be useful," +:+ nl +:+
  "but WITHOUT ANY WARRANTY; without even the implied warranty of" +:+ nl +:+
  "MERCHANTABILITY or FITNESS FOR A PARTICULAR PURPOSE.  See the" +:+ nl +:+
  "GNU General Public License for more details." +:+ nl.

Definition usage (argv0 : string) : world -> world := eprint (usage_text argv0).
Definition license : world -> world := eprint license_text.

Definition negative_saturation (argv0 : string) : string :=
  argv0 +:+ ": saturation must be >= 0" +:+ nl.

Definition too_many_filenames (argv0 : string) : string :=
  argv0 +:+ ": too many filenames" +:+ nl.

Definition cannot_open (argv0 name : string) : string :=
  argv0 +:+ ": could not open " +:+ dquote +:+ name +:+ dquote +:+ " for reading" +:+ nl.

(** A call either ends the process with a status or returns a value. *)
Inductive result (A : Type) :=
  | Exit (status : Z) (w : world)
  | Return (a : A) (w : world).
Arguments Exit {A} status w.
Arguments Return {A} a w.

Section Program.
(** <math.h> and <stdlib.h>. *)
Variables cos sin : spec_float -> spec_float.
Variable atof : string -> spec_float.

(** The [while] loop of [getargs] over the results of [getopt];
    [saturation] is the global [float]. *)
Fixpoint getargs_options (argv0 : string) (saturation : spec_float)
    (opts : list getopt_ret) (w : world) : result spec_float :=
  match opts with
  | [] => Return saturation w
  | Opt_h :: _ => Exit 0 (usage argv0 w)
  | Opt_L :: _ => Exit 0 (license w)
  | Opt_s optarg :: opts =>
      let saturation := F32.of_double (atof optarg) in
      if F32.ltb saturation (F32.of_int 0)
      then Exit 1 (eprint (negative_saturation argv0) w)
      else getargs_options argv0 saturation opts w
  | Opt_unknown diagnostic :: _ => Exit 1 (usage argv0 (eprint diagnostic w))
  end.

(** [getargs]: the value returned is the pair of the globals
    [saturation] and [koalafilename]. *)
Definition getargs (cmd : cmdline) (w : world)
    : result (spec_float * option string) :=
  match getargs_options (argv0 cmd) (F32.of_double SATURATION) (options cmd) w with
  | Exit st w => Exit st w
  | Return saturation w =>
      match operands cmd with
      | _ :: _ :: _ =>
          Exit 1 (usage (argv0 cmd) (eprint (too_many_filenames (argv0 cmd)) w))
      | [name] =>
          Return (saturation, if decide (name = "-") then None else Some name) w
      | [] => Return (saturation, None) w
      end
  end.

(** The file system, the bytes on standard input, and what the
    uninitialised arrays of [main] hold on entry. *)
Variable files : string -> option (list Z).
Variable stdin : list Z.
Variable stack : frame.

Definition start : world :=
  {| koalafile := []; io_log := []; stdout := []; stderr := [] |}.

Definition fopen (name : string) (w : world) : bool * world :=
  let w' content ok :=
    {| koalafile := content; io_log := io_log w ++ [Fopen name ok];
       stdout := stdout w; stderr := stderr w |} in
  match files name with
  | Some content => (true, w' content true)
  | None => (false, w' [] false)
  end.

Definition use_stdin (w : world) : world :=
  {| koalafile := stdin; io_log := io_log w;
     stdout := stdout w; stderr := stderr w |}.

(** The bytes of the stream [main] reads: the named file when it can be
    opened, or standard input. *)
Definition opened_input (koalafilename : option string) : option (list Z) :=
  match koalafilename with
  | Some name => files name
  | None => Some stdin
  end.

(** [main]: the exit status and the final state of the streams, or
    [None] when the run has undefined behaviour. *)
Definition main (cmd : cmdline) : option (Z * world) :=
  match getargs cmd start with
  | Exit st w => Some (st, w)
  | Return (saturation, koalafilename) w =>
      let '(opened, w) :=
        match koalafilename with
        | Some name => fopen name w
        | None => (true, use_stdin w)
        end in
      if opened then
        c64colors ← init_colors cos sin saturation;
        let '(img, w) := read_koala (argv0 cmd) w in
        fr ← render c64colors img stack;
        w ← write_ppm (outimage fr) w;
        Some (0, w)
      else
        Some (-1, eprint (cannot_open (argv0 cmd) (default "" koalafilename)) w)
  end.
End Program.

(** Where the chain of reads of a file holding [input] stands: [k] bytes
    are behind the stream position, the calls [calls] were made since
    [w0], and [ok] is the value of the [&&] chain so far. *)
Definition reading (input : list Z) (w0 w : world) (k : nat) (ok : bool)
    (calls : list io_call) : Prop :=
  koalafile w = drop k input /\
  stdout w = stdout w0 /\ stderr w = stderr w0 /\
  io_log w = io_log w0 ++ calls /\
  (if ok then (k <= length input)%nat /\ Forall succeeded calls
   else (length input < k)%nat /\ stops_at_failure calls).

(** What [read_koala] leaves in the arrays, written out. *)
Definition filled (input : list Z) (k : nat) (size : Z) (buf : list Z) : list Z :=
  take (Z.to_nat size) (drop k input)
  ++ drop (length (take (Z.to_nat size) (drop k input))) buf.

Definition filled_image (input : list Z) : image :=
  {| bitmap := filled input (Z.to_nat 2) 8000 (bitmap fallback);
     video := filled input (Z.to_nat 8002) 1000 (video fallback);
     color := filled input (Z.to_nat 9002) 1000 (color fallback);
     bg := default 0 (head (filled input (Z.to_nat 10002) 1 [bg fallback])) |}.

(** Cell ([outy], [outx]) of [outimage] holds its final colour. *)
Definition painted (pal : list rgb_color) (img : image) (fr : frame)
    (outy outx : Z) : Prop :=
  outimage fr !! Z.to_nat (outy * 160 + outx) = Some (pixel_at pal img outy outx).

(** From [fr] to [fr']: [colors[0]] is kept and painted cells stay
    painted. *)
Definition advances (pal : list rgb_color) (img : image) (fr fr' : frame) : Prop :=
  colors fr' !! 0%nat = colors fr !! 0%nat /\
  forall outy outx, 0 <= outy < 200 -> 0 <= outx < 160 ->
    painted pal img fr outy outx -> painted pal img fr' outy outx.

(** ** Sample inputs *)

(** A table-driven [atof]: as the C function, 0 when the text is no
    number. *)
Definition atof_sample (s : string) : spec_float :=
  if decide (s = "1.0") then F64.lit 10 10
  else if decide (s = "0.5") then F64.lit 5 10
  else if decide (s = "-1.0") then F64.opp (F64.lit 10 10)
  else F64.of_int 0.

(** The command line [c64koala2ppm], no option and no operand. *)
Definition plain_cmd : cmdline :=
  {| argv0 := "c64koala2ppm"; options := []; operands := [] |}.

(** The command line [c64koala2ppm -s -1.0]. *)
Definition negative_cmd : cmdline :=
  {| argv0 := "c64koala2ppm"; options := [Opt_s "-1.0"]; operands := [] |}.

(** A file that ends after its load address. *)
Definition only_load_address : list Z := [0; 0].

(** The command line [c64koala2ppm -s -0x1p-200]. *)
Definition tiny_cmd : cmdline :=
  {| argv0 := "c64koala2ppm"; options := [Opt_s "-0x1p-200"]; operands := [] |}.

(** No file can be opened. *)
Definition no_files : string -> option (list Z) := fun _ => None.

(** A palette that tells the sixteen entries apart. *)
Definition grey_ramp : list rgb_color :=
  (fun i => {| r := 16 * i; g := 16 * i; b := 16 * i |}) <$> seqZ 0 16.

Definition junk : rgb_color := {| r := -1; g := -1; b := -1 |}.

(** Arrays of the right sizes that hold junk. *)
Definition junk_frame : frame :=
  {| colors := replicate (Z.to_nat 4) junk;
     outbitmap := replicate (Z.to_nat 8000) 0xff;
     outimage := replicate (Z.to_nat 32000) junk |}.

(** An image whose bitmap bytes are all 0xE4, binary 11 10 01 00. *)
Definition e4_image : image :=
  {| bitmap := replicate (Z.to_nat 8000) 0xE4;
     video := video fallback; color := color fallback; bg := bg fallback |}.

(** The palette at the default saturation, with the sample [cos] and
    [sin]. *)
Definition sample_palette : list rgb_color :=
  Eval vm_compute in
    default [] (init_colors cos_sample sin_sample (F32.of_double SATURATION)).

(** The four cells of row [y] of a card, left to right. *)
Definition block_row (fr : frame) (blockY blockX y : Z) : list (option rgb_color) :=
  (fun col => outimage fr !! Z.to_nat ((8 * blockY + y) * 160 + (4 * blockX + col)))
    <$> [0; 1; 2; 3].

(** The luma and chroma of red at the default saturation, with the sample
    [cos] and [sin]. *)
Definition red_yuv : yuv_color :=
  c64_to_yuv cos_sample sin_sample (F32.of_double SATURATION)
    {| angle := 5; luma := 10; saturation := 1 |}
    (F32.of_double USCALE) (F32.of_double VSCALE).

(** A palette entry with equal components. *)
Definition grey (p : rgb_color) : Prop := r p = g p /\ g p = b p.

(** A negative [double] too small for a [float]: -2^-200, written
    [-0x1p-200] on the command line. *)
Definition tiny_negative : spec_float := S754_finite true (2 ^ 52) (-252).

(** An [atof] that knows this number and 0 for any other text. *)
Definition atof_tiny (s : string) : spec_float :=
  if decide (s = "-0x1p-200") then tiny_negative else F64.of_int 0.

(** The [double] nearest to 10^39, written [1e39] on the command line:
    a number above the largest [float]. *)
Definition huge : spec_float := S754_finite false 6617444900424221 77.

(** An [atof] that knows this number and 0 for any other text. *)
Definition atof_huge (s : string) : spec_float :=
  if decide (s = "1e39") then huge else F64.of_int 0.

(** The command line [c64koala2ppm -s 1e39]. *)
Definition huge_cmd : cmdline :=
  {| argv0 := "c64koala2ppm"; options := [Opt_s "1e39"]; operands := [] |}.

(** A call changes nothing but the error stream, which only grows. *)
Definition only_stderr (w w' : world) : Prop :=
  koalafile w' = koalafile w /\ io_log w' = io_log w /\ stdout w' = stdout w /\
  exists msgs, stderr w' = stderr w ++ msgs.

Definition result_world {A} (x : result A) : world :=
  match x with Exit _ w => w | Return _ w => w end.

(** ** Values of floating-point numbers *)

(** The value [m * 2^e] on the grid of [2^L], for [L <= e]. *)
Definition scaled (L m e : Z) : Z := m * 2 ^ (e - L).

(** A result of rounding that is a zero or a positive number of value at
    most [c * 2^k]. *)
Definition below (L c k : Z) (x : spec_float) : Prop :=
  match x with
  | S754_zero _ => True
  | S754_finite s m e => s = false /\ L <= e /\ scaled L (Z.pos m) e <= scaled L c k
  | _ => False
  end.

(** ** Accepted options and sample command lines *)

(** An option the loop of [getargs] goes past: a [-s] whose value is not
    less than 0 once stored in the [float] [saturation]. *)
Definition accepted (atof : string -> spec_float) (o : getopt_ret) : bool :=
  match o with
  | Opt_s optarg => negb (F32.ltb (F32.of_double (atof optarg)) (F32.of_int 0))
  | _ => false
  end.

(** The command line [c64koala2ppm -s 0.5 -h a b]. *)
Definition help_cmd : cmdline :=
  {| argv0 := "c64koala2ppm"; options := [Opt_s "0.5"; Opt_h]; operands := ["a"; "b"] |}.

(** The command line [c64koala2ppm -s 0.5 -L -x]. *)
Definition license_cmd : cmdline :=
  {| argv0 := "c64koala2ppm";
     options := [Opt_s "0.5"; Opt_L; Opt_unknown "c64koala2ppm: invalid option -- 'x'"];
     operands := [] |}.

(** The command line [c64koala2ppm -x -h]. *)
Definition unknown_cmd : cmdline :=
  {| argv0 := "c64koala2ppm";
     options := [Opt_unknown "c64koala2ppm: invalid option -- 'x'"; Opt_h];
     operands := [] |}.

(** The command line [c64koala2ppm -s 0.5 a.koa b.koa]. *)
Definition two_files_cmd : cmdline :=
  {| argv0 := "c64koala2ppm"; options := [Opt_s "0.5"]; operands := ["a.koa"; "b.koa"] |}.

(** The command line [c64koala2ppm a.koa]. *)
Definition one_file_cmd : cmdline :=
  {| argv0 := "c64koala2ppm"; options := []; operands := ["a.koa"] |}.

(** The command line [c64koala2ppm -s 0.5 -s 1.0]. *)
Definition twice_cmd : cmdline :=
  {| argv0 := "c64koala2ppm"; options := [Opt_s "0.5"; Opt_s "1.0"]; operands := [] |}.

(** ** Complete files *)

(** The five reads of a complete file. *)
Definition complete_reads : list io_call :=
  [Fread 2 true; Fread 8000 true; Fread 1000 true; Fread 1000 true; Fread 1 true].

(** The bytes of a Koala file: load address, bitmap, video matrix,
    colour RAM, background, and whatever follows. *)
Definition koala_bytes (l0 l1 : Z) (img : image) (trailing : list Z) : list Z :=
  l0 :: l1 :: bitmap img ++ video img ++ color img ++ bg img :: trailing.

(** Arrays of the right sizes that hold zeros. *)
Definition zero_frame : frame :=
  {| colors := replicate (Z.to_nat 4) black;
     outbitmap := replicate (Z.to_nat 8000) 0;
     outimage := replicate (Z.to_nat 32000) black |}.

(** A complete file: the fallback image behind the load address 0x6000,
    and one byte more. *)
Definition complete_input : list Z := koala_bytes 0x00 0x60 fallback [0xff].

(** ** The bitmap by scan lines, unsigned bytes, grey levels *)

(** Cell ([outy], [outx]) of [outbitmap] holds the byte of its scan
    line. *)
Definition scanned (img : image) (fr : frame) (outy outx : Z) : Prop :=
  outbitmap fr !! Z.to_nat (outy * 40 + outx)
  = Some (bitmap_byte img (outy / 8) outx (outy mod 8)).

(** From [fr] to [fr']: [outbitmap] keeps its size and its scanned
    cells. *)
Definition keeps_scanned (img : image) (fr fr' : frame) : Prop :=
  length (outbitmap fr') = length (outbitmap fr) /\
  forall outy outx, 0 <= outy < 200 -> 0 <= outx < 40 ->
    scanned img fr outy outx -> scanned img fr' outy outx.


(** The grey level [floor (255 * luma / 32 + 1/2)]. *)
Definition grey_level (luma : Z) : Z := (2 * 255 * luma + 32) / 64.

(** One step of a chain of bound calls that is known to succeed. *)
Ltac bind_step H :=
  match type of H with
  | mbind _ ?x = Some _ =>
      destruct x eqn:?; [cbn [mbind option_bind] in H|discriminate H]
  end.

(** ** An entry of the table *)

(** Dark grey, entry 11 of the table. *)
Definition dark_grey : c64_color := {| angle := 0; luma := 10; saturation := 0 |}.

(** ** Finite numbers and their bounds *)

(** A zero or a finite number, of either sign, of magnitude at most
    [c * 2^k]. *)
Definition within (L c k : Z) (x : spec_float) : Prop := below L c k (SFabs x).

(** The largest [float]: [(2^24 - 1) * 2^104]. *)
Definition FLT_MAX_m : Z := 2 ^ 24 - 1.
Definition FLT_MAX_e : Z := 104.

(** A [double] of magnitude at most 1 (so not a NaN). *)
Definition unit_bounded (x : spec_float) : bool := SFleb (SFabs x) (F64.of_int 1).

(** A finite number of the [float] format. *)
Definition finite_float (x : spec_float) : bool := F32.valid x && is_finite x.

(** What is asked of [cos] and [sin]: on a finite argument the result is
    a [double] of magnitude at most 1. *)
Definition sane_trig (f : spec_float -> spec_float) : Prop :=
  forall x, is_finite x = true -> F64.valid (f x) = true /\ unit_bounded (f x) = true.

(** An entry of the palette with its three components in 0..255. *)
Definition in_range (p : rgb_color) : Prop :=
  0 <= r p <= 255 /\ 0 <= g p <= 255 /\ 0 <= b p <= 255.

(** Every [-s] value is a finite number once stored in the [float]
    saturation. *)
Definition finite_options (atof : string -> spec_float) (opts : list getopt_ret) : bool :=
  forallb (fun o => match o with
                    | Opt_s optarg => is_finite (F32.of_double (atof optarg))
                    | _ => true
                    end) opts.

(** The [float] 2. *)
Definition two : spec_float := F32.of_int 2.

(** A comparison of two numerals. *)
Ltac by_computation := vm_compute; first [reflexivity | discriminate].

(** * Properties *)

(** ** Loops *)

Lemma for_each_cons {A S} (a : A) (l : list A) (body : A -> S -> option S) (s : S) :
  for_each (a :: l) body s = body a s ≫= for_each l body.
Proof. done. Qed.

(** Invariant rule for [for_each]: [I] holds between iterations, [R]
    relates the state before and after any number of them, and what
    iteration [a] establishes, [Q a], survives the later ones. *)
Lemma for_each_inv {A S} (I : S -> Prop) (R : S -> S -> Prop) (Q : A -> S -> Prop)
    (body : A -> S -> option S) (l : list A) :
  (forall s, R s s) ->
  (forall s1 s2 s3, R s1 s2 -> R s2 s3 -> R s1 s3) ->
  (forall a s s', a ∈ l -> Q a s -> R s s' -> Q a s') ->
  (forall a s, a ∈ l -> I s ->
     exists s', body a s = Some s' /\ I s' /\ R s s' /\ Q a s') ->
  forall s, I s ->
    exists s', for_each l body s = Some s' /\ I s' /\ R s s' /\
               forall a, a ∈ l -> Q a s'.
Proof.
  intros Hrefl Htrans.
  induction l as [|a l IH]; intros Hstable Hbody s Hs.
  - exists s. repeat split; auto. intros a Ha. inversion Ha.
  - destruct (Hbody a s) as (s1 & E1 & I1 & R1 & Q1); [left | done |].
    destruct IH with (s := s1) as (s2 & E2 & I2 & R2 & Q2); [| |done|].
    { intros a' s' s'' Ha'. apply Hstable. by right. }
    { intros a' s' Ha'. apply Hbody. by right. }
    exists s2. rewrite for_each_cons, E1. repeat split; eauto.
    intros a' Ha'. apply elem_of_cons in Ha' as [->|Ha']; [|by eauto].
    eapply Hstable; [left|done..].
Qed.

(** ** Masks and accessors *)

Lemma land_0x0f_range (z : Z) : 0 <= Z.land z 0x0f < 16.
Proof.
  change 0x0f with (Z.ones 4). rewrite Z.land_ones by lia.
  apply Z.mod_pos_bound. lia.
Qed.

Lemma land_3_range (z : Z) : 0 <= Z.land z 3 < 4.
Proof.
  change 3 with (Z.ones 2). rewrite Z.land_ones by lia.
  apply Z.mod_pos_bound. lia.
Qed.

Lemma index1_Some {A} (a : list A) (i : Z) (d : A) :
  0 <= i < Z.of_nat (length a) ->
  index1 a i = Some (default d (a !! Z.to_nat i)).
Proof.
  intros Hi. unfold index1.
  destruct (Z.leb_spec 0 i); [|lia].
  destruct (lookup_lt_is_Some_2 a (Z.to_nat i)) as [x Hx]; [lia|].
  by rewrite Hx.
Qed.

Lemma offset2_Some (d1 d2 i j : Z) :
  0 <= i < d1 -> 0 <= j < d2 ->
  offset2 d1 d2 i j = Some (Z.to_nat (i * d2 + j)).
Proof.
  intros Hi Hj. unfold offset2.
  destruct (Z.leb_spec 0 i), (Z.ltb_spec i d1), (Z.leb_spec 0 j), (Z.ltb_spec j d2);
    first [done | lia].
Qed.

Lemma offset3_Some (d1 d2 d3 i j k : Z) :
  0 <= i < d1 -> 0 <= j < d2 -> 0 <= k < d3 ->
  offset3 d1 d2 d3 i j k = Some (Z.to_nat ((i * d2 + j) * d3 + k)).
Proof.
  intros Hi Hj Hk. unfold offset3.
  destruct (Z.leb_spec 0 i), (Z.ltb_spec i d1), (Z.leb_spec 0 j), (Z.ltb_spec j d2),
    (Z.leb_spec 0 k), (Z.ltb_spec k d3); first [done | lia].
Qed.

Lemma store_Some {A} (a : list A) (o : nat) (v : A) :
  (o < length a)%nat -> store a o v = Some (<[o := v]> a).
Proof. intros Ho. unfold store. by rewrite decide_True. Qed.

Lemma lookup_default {A} (a : list A) (o : nat) (d : A) :
  (o < length a)%nat -> a !! o = Some (default d (a !! o)).
Proof.
  intros Ho. destruct (lookup_lt_is_Some_2 a o Ho) as [x Hx]. by rewrite Hx.
Qed.

(** ** Pixel reconstruction *)

(** Sign extension leaves the low eight bits alone. *)
Lemma char_to_int_land (byte k : Z) :
  0 <= k <= 8 -> Z.land (char_to_int byte) (Z.ones k) = Z.land byte (Z.ones k).
Proof.
  intros Hk. unfold char_to_int. destruct (byte <? 128); [done|].
  rewrite !Z.land_ones by lia.
  replace (byte - 256) with (byte + (- 2 ^ (8 - k)) * 2 ^ k).
  - apply Z.mod_add. apply Z.pow_nonzero; lia.
  - rewrite Z.mul_opp_l, <- Z.pow_add_r by lia.
    replace (8 - k + k) with 8 by lia. lia.
Qed.

(** The loop counter [b] and the column it selects. *)
Lemma column_of_bit (b : Z) :
  b ∈ [0; 2; 4; 6] ->
  0 <= Z.quot (6 - b) 2 < 4 /\ 6 - 2 * Z.quot (6 - b) 2 = b.
Proof.
  intros Hb. repeat (apply elem_of_cons in Hb as [->|Hb]); [done..|]. inversion Hb.
Qed.

Section RenderProofs.
Variable pal : list rgb_color.
Variable img : image.
Hypothesis pal_length : length pal = Z.to_nat 16.
Hypothesis img_wf : image_wf img.

Lemma advances_refl fr : advances pal img fr fr.
Proof using Type. by split. Qed.

Lemma advances_trans fr1 fr2 fr3 :
  advances pal img fr1 fr2 -> advances pal img fr2 fr3 -> advances pal img fr1 fr3.
Proof using Type.
  intros [C12 P12] [C23 P23]. split; [congruence|]. auto.
Qed.

Lemma block_colors_index (cardy cardx z : Z) :
  index1 (block_colors pal img cardy cardx) (Z.land z 3)
  = Some (default black (block_colors pal img cardy cardx !! Z.to_nat (Z.land z 3))).
Proof using Type.
  clear pal_length img_wf.
  apply index1_Some. pose proof (land_3_range z). simpl. lia.
Qed.

Lemma palette_index (z : Z) :
  index1 pal (Z.land z 0x0f) = Some (palette_entry pal (Z.land z 0x0f)).
Proof. apply index1_Some. pose proof (land_0x0f_range z). lia. Qed.

Lemma pixel_at_card (cardy cardx y col : Z) :
  0 <= y < 8 -> 0 <= col < 4 ->
  pixel_at pal img (8 * cardy + y) (4 * cardx + col)
  = default black
      (block_colors pal img cardy cardx
         !! Z.to_nat (pixel_code (bitmap_byte img cardy cardx y) (6 - 2 * col))).
Proof using Type.
  clear pal_length img_wf.
  intros Hy Hcol. unfold pixel_at.
  replace ((8 * cardy + y) / 8) with cardy by (apply Z.div_unique with y; lia).
  replace ((4 * cardx + col) / 4) with cardx by (apply Z.div_unique with col; lia).
  replace ((8 * cardy + y) mod 8) with y by (apply Z.mod_unique with cardy; lia).
  replace ((4 * cardx + col) mod 4) with col by (apply Z.mod_unique with cardx; lia).
  done.
Qed.

(** One pass of the innermost loop paints its cell and disturbs no
    painted one. *)
Lemma pixel_body_spec (cardy cardx y b : Z) (fr : frame) :
  0 <= cardy < 25 -> 0 <= cardx < 40 -> 0 <= y < 8 -> b ∈ [0; 2; 4; 6] ->
  frame_wf fr /\ colors fr = block_colors pal img cardy cardx ->
  exists fr',
    pixel_body (char_to_int (bitmap_byte img cardy cardx y)) cardx (8 * cardy + y) b fr
      = Some fr' /\
    (frame_wf fr' /\ colors fr' = block_colors pal img cardy cardx) /\
    advances pal img fr fr' /\
    painted pal img fr' (8 * cardy + y) (4 * cardx + Z.quot (6 - b) 2).
Proof.
  intros Hcy Hcx Hy Hb [(Hc & Hob & Hoi) Hcols].
  destruct (column_of_bit b Hb) as [Hq Hqb].
  set (col := Z.quot (6 - b) 2) in *.
  set (o := Z.to_nat ((8 * cardy + y) * 160 + (4 * cardx + col))).
  assert (Ho : (o < length (outimage fr))%nat) by (subst o; lia).
  unfold pixel_body, set_outimage.
  rewrite Hcols, block_colors_index. simpl.
  rewrite offset2_Some by lia. simpl. fold o.
  rewrite store_Some by done. simpl.
  eexists. split; [done|]. simpl.
  assert (Hval : default black
            (block_colors pal img cardy cardx
               !! Z.to_nat (Z.land (Z.shiftr (char_to_int (bitmap_byte img cardy cardx y)) b) 3))
          = pixel_at pal img (8 * cardy + y) (4 * cardx + col)).
  { rewrite pixel_at_card by done. by rewrite Hqb. }
  rewrite Hval.
  split; [|split].
  - split; [|done]. unfold frame_wf. simpl. rewrite length_insert. by repeat split.
  - split; [simpl; by rewrite Hcols|]. intros outy outx Hoy Hox. unfold painted. simpl.
    intros Hp.
    destruct (decide (o = Z.to_nat (outy * 160 + outx))) as [E|N].
    + rewrite <- E. rewrite list_lookup_insert_eq by done.
      assert (outy = 8 * cardy + y /\ outx = 4 * cardx + col) as [-> ->]
        by (subst o; lia).
      done.
    + by rewrite list_lookup_insert_ne.
  - unfold painted. simpl. fold o. by rewrite list_lookup_insert_eq.
Qed.

Lemma bitmap_lookup (cardy cardx y : Z) :
  0 <= cardy < 25 -> 0 <= cardx < 40 -> 0 <= y < 8 ->
  bitmap img !! Z.to_nat ((cardy * 40 + cardx) * 8 + y)
  = Some (bitmap_byte img cardy cardx y).
Proof using img_wf.
  clear pal_length.
  intros. apply lookup_default. destruct img_wf as (-> & _). lia.
Qed.

Lemma video_lookup (cardy cardx : Z) :
  0 <= cardy < 25 -> 0 <= cardx < 40 ->
  video img !! Z.to_nat (cardy * 40 + cardx) = Some (video_byte img cardy cardx).
Proof using img_wf.
  clear pal_length.
  intros. apply lookup_default. destruct img_wf as (_ & -> & _). lia.
Qed.

Lemma color_lookup (cardy cardx : Z) :
  0 <= cardy < 25 -> 0 <= cardx < 40 ->
  color img !! Z.to_nat (cardy * 40 + cardx) = Some (color_byte img cardy cardx).
Proof using img_wf.
  clear pal_length.
  intros. apply lookup_default. destruct img_wf as (_ & _ & ->). lia.
Qed.

(** One pass of the row loop paints the four cells of its row. *)
Lemma row_body_spec (cardy cardx y : Z) (fr : frame) :
  0 <= cardy < 25 -> 0 <= cardx < 40 -> 0 <= y < 8 ->
  frame_wf fr /\ colors fr = block_colors pal img cardy cardx ->
  exists fr',
    row_body img cardy cardx y fr = Some fr' /\
    (frame_wf fr' /\ colors fr' = block_colors pal img cardy cardx) /\
    advances pal img fr fr' /\
    forall col, 0 <= col < 4 -> painted pal img fr' (8 * cardy + y) (4 * cardx + col).
Proof.
  intros Hcy Hcx Hy [(Hc & Hob & Hoi) Hcols].
  unfold row_body, set_outbitmap.
  rewrite offset3_Some by lia. simpl.
  rewrite bitmap_lookup by done. simpl.
  rewrite offset2_Some by lia. simpl.
  rewrite store_Some by lia. simpl.
  match goal with |- context [for_each _ _ ?f] => set (fr1 := f) end.
  destruct (for_each_inv
    (fun s => frame_wf s /\ colors s = block_colors pal img cardy cardx)
    (advances pal img)
    (fun b s => painted pal img s (8 * cardy + y) (4 * cardx + Z.quot (6 - b) 2))
    (pixel_body (char_to_int (bitmap_byte img cardy cardx y)) cardx (8 * cardy + y))
    [0; 2; 4; 6]) with (s := fr1) as (fr' & E & I' & R' & Q').
  - apply advances_refl.
  - apply advances_trans.
  - intros b s s' Hb Hp [_ Hadv]. apply Hadv; [lia| |done].
    destruct (column_of_bit b Hb). lia.
  - intros b s Hb Hs. by apply pixel_body_spec.
  - subst fr1. unfold frame_wf. simpl. rewrite length_insert. done.
  - exists fr'. split; [done|]. split; [done|]. split.
    + eapply advances_trans; [|done]. subst fr1. by split.
    + intros col Hcol.
      assert (Hb : 6 - 2 * col ∈ [0; 2; 4; 6]).
      { assert (col = 0 \/ col = 1 \/ col = 2 \/ col = 3) as [-> | [-> | [-> | ->]]] by lia;
          cbn; repeat constructor. }
      specialize (Q' _ Hb).
      replace (Z.quot (6 - (6 - 2 * col)) 2) with col in Q'; [done|].
      replace (6 - (6 - 2 * col)) with (col * 2) by lia.
      by rewrite Z.quot_mul.
Qed.

(** Lines 279 to 283 fill entries 1 to 3 of [colors] and leave entry 0
    and the other arrays alone. *)
Lemma card_colors_spec (cardy cardx : Z) (fr : frame) (c0 : rgb_color) :
  0 <= cardy < 25 -> 0 <= cardx < 40 ->
  frame_wf fr -> colors fr !! 0%nat = Some c0 ->
  exists fr',
    card_colors pal img cardy cardx fr = Some fr' /\
    colors fr'
    = [ c0;
        palette_entry pal (Z.land (Z.shiftr (char_to_int (video_byte img cardy cardx)) 4) 0x0f);
        palette_entry pal (Z.land (char_to_int (video_byte img cardy cardx)) 0x0f);
        palette_entry pal (Z.land (char_to_int (color_byte img cardy cardx)) 0x0f) ] /\
    outbitmap fr' = outbitmap fr /\ outimage fr' = outimage fr.
Proof.
  intros Hcy Hcx (Hc & Hob & Hoi) H0.
  unfold card_colors.
  rewrite offset2_Some by lia. simpl.
  rewrite video_lookup, color_lookup by done. simpl.
  rewrite !palette_index. simpl.
  destruct (colors fr) as [|a [|a1 [|a2 [|a3 [|]]]]] eqn:E; try discriminate Hc.
  injection H0 as ->.
  unfold set_colors. simpl. rewrite E. simpl.
  eexists. by split.
Qed.

(** One pass of the card loop paints the 4 by 8 cells of its card. *)
Lemma card_body_spec (cardy cardx : Z) (fr : frame) :
  0 <= cardy < 25 -> 0 <= cardx < 40 ->
  frame_wf fr /\
    colors fr !! 0%nat = Some (palette_entry pal (Z.land (bg img) 0x0f)) ->
  exists fr',
    card_body pal img cardy cardx fr = Some fr' /\
    (frame_wf fr' /\
       colors fr' !! 0%nat = Some (palette_entry pal (Z.land (bg img) 0x0f))) /\
    advances pal img fr fr' /\
    forall y col, 0 <= y < 8 -> 0 <= col < 4 ->
      painted pal img fr' (8 * cardy + y) (4 * cardx + col).
Proof.
  intros Hcy Hcx [Hwf H0].
  destruct (card_colors_spec cardy cardx fr _ Hcy Hcx Hwf H0)
    as (fr1 & E1 & Hcols & Hob1 & Hoi1).
  fold (block_colors pal img cardy cardx) in Hcols.
  unfold card_body. rewrite E1. simpl.
  destruct (for_each_inv
    (fun s => frame_wf s /\ colors s = block_colors pal img cardy cardx)
    (advances pal img)
    (fun y s => forall col, 0 <= col < 4 ->
       painted pal img s (8 * cardy + y) (4 * cardx + col))
    (row_body img cardy cardx) (seqZ 0 8)) with (s := fr1)
    as (fr' & E & [Hwf' Hcols'] & R' & Q').
  - apply advances_refl.
  - apply advances_trans.
  - intros y s s' Hy%elem_of_seqZ Hp [_ Hadv] col Hcol.
    apply Hadv; [lia..|]. by apply Hp.
  - intros y s Hy%elem_of_seqZ Hs. apply row_body_spec; [done..|lia|done].
  - split; [|done]. destruct Hwf as (Hc & Hob & Hoi).
    unfold frame_wf. by rewrite Hcols, Hob1, Hoi1.
  - assert (R1 : advances pal img fr fr1).
    { split; [by rewrite Hcols|]. unfold painted. by rewrite Hoi1. }
    exists fr'. split; [done|]. split; [|split].
    + split; [done|]. by rewrite Hcols'.
    + by eapply advances_trans.
    + intros y col Hy Hcol. apply Q'; [|done]. apply elem_of_seqZ. lia.
Qed.

(** One pass of the outer loop paints a band of eight raster rows. *)
Lemma cardrow_body_spec (cardy : Z) (fr : frame) :
  0 <= cardy < 25 ->
  frame_wf fr /\
    colors fr !! 0%nat = Some (palette_entry pal (Z.land (bg img) 0x0f)) ->
  exists fr',
    cardrow_body pal img cardy fr = Some fr' /\
    (frame_wf fr' /\
       colors fr' !! 0%nat = Some (palette_entry pal (Z.land (bg img) 0x0f))) /\
    advances pal img fr fr' /\
    forall y outx, 0 <= y < 8 -> 0 <= outx < 160 ->
      painted pal img fr' (8 * cardy + y) outx.
Proof.
  intros Hcy Hfr. unfold cardrow_body.
  destruct (for_each_inv
    (fun s => frame_wf s /\
       colors s !! 0%nat = Some (palette_entry pal (Z.land (bg img) 0x0f)))
    (advances pal img)
    (fun cardx s => forall y col, 0 <= y < 8 -> 0 <= col < 4 ->
       painted pal img s (8 * cardy + y) (4 * cardx + col))
    (card_body pal img cardy) (seqZ 0 40)) with (s := fr)
    as (fr' & E & I' & R' & Q').
  - apply advances_refl.
  - apply advances_trans.
  - intros cardx s s' Hcx%elem_of_seqZ Hp [_ Hadv] y col Hy Hcol.
    apply Hadv; [lia..|]. by apply Hp.
  - intros cardx s Hcx%elem_of_seqZ Hs. apply card_body_spec; [done|lia|done].
  - done.
  - exists fr'. repeat (split; [done|]).
    intros y outx Hy Hox.
    rewrite (Z.div_mod outx 4) by lia.
    pose proof (Z.mod_pos_bound outx 4 ltac:(lia)).
    apply Q'; [|done..]. apply elem_of_seqZ.
    pose proof (Z.div_mod outx 4 ltac:(lia)). lia.
Qed.

(** The card loops succeed on every image and palette and leave every
    cell of [outimage] with the colour [pixel_at] gives it. *)
Lemma render_spec (fr : frame) :
  frame_wf fr ->
  exists fr',
    render pal img fr = Some fr' /\ frame_wf fr' /\
    forall outy outx, 0 <= outy < 200 -> 0 <= outx < 160 ->
      painted pal img fr' outy outx.
Proof.
  intros (Hc & Hob & Hoi). unfold render.
  rewrite palette_index. simpl.
  unfold set_colors. simpl. rewrite store_Some by lia. simpl.
  match goal with |- context [for_each _ _ ?f] => set (fr1 := f) end.
  destruct (for_each_inv
    (fun s => frame_wf s /\
       colors s !! 0%nat = Some (palette_entry pal (Z.land (bg img) 0x0f)))
    (advances pal img)
    (fun cardy s => forall y outx, 0 <= y < 8 -> 0 <= outx < 160 ->
       painted pal img s (8 * cardy + y) outx)
    (cardrow_body pal img) (seqZ 0 25)) with (s := fr1)
    as (fr' & E & [Hwf' _] & R' & Q').
  - apply advances_refl.
  - apply advances_trans.
  - intros cardy s s' Hcy%elem_of_seqZ Hp [_ Hadv] y outx Hy Hox.
    apply Hadv; [lia..|]. by apply Hp.
  - intros cardy s Hcy%elem_of_seqZ Hs. apply cardrow_body_spec; [lia|done].
  - subst fr1. unfold frame_wf. simpl. rewrite length_insert.
    split; [done|]. apply list_lookup_insert_eq. lia.
  - exists fr'. repeat (split; [done|]).
    intros outy outx Hoy Hox.
    rewrite (Z.div_mod outy 8) by lia.
    pose proof (Z.mod_pos_bound outy 8 ltac:(lia)).
    apply Q'; [|done..]. apply elem_of_seqZ.
    pose proof (Z.div_mod outy 8 ltac:(lia)). lia.
Qed.

(** The final [outimage] is the raster, whatever the arrays held on
    entry. *)
Lemma render_raster (fr : frame) :
  frame_wf fr ->
  exists fr', render pal img fr = Some fr' /\ outimage fr' = raster pal img.
Proof.
  intros Hwf. destruct (render_spec fr Hwf) as (fr' & E & (_ & _ & Hoi) & Hp).
  exists fr'. split; [done|].
  apply list_eq. intros o. unfold raster.
  rewrite list_lookup_fmap.
  destruct (decide (o < Z.to_nat 32000)%nat) as [Ho|Ho].
  - rewrite lookup_seqZ_lt by lia. simpl.
    replace (0 + Z.of_nat o) with (Z.of_nat o) by lia.
    pose proof (Z.div_mod (Z.of_nat o) 160 ltac:(lia)) as Hdm.
    pose proof (Z.mod_pos_bound (Z.of_nat o) 160 ltac:(lia)).
    rewrite <- (Hp (Z.of_nat o / 160) (Z.of_nat o mod 160)) by lia.
    f_equal. lia.
  - rewrite lookup_seqZ_ge by lia. simpl. apply lookup_ge_None. lia.
Qed.
End RenderProofs.

(** ** Decoding *)

Section Decoding.
Variable input : list Z.

Lemma and_fread_spec (w0 w : world) (k : nat) (ok : bool) (calls : list io_call)
    (buf : list Z) (size : Z) :
  0 < size ->
  reading input w0 w k ok calls ->
  exists ok' calls' w',
    and_fread ok buf size w = (ok', filled input k size buf, w') /\
    reading input w0 w' (k + Z.to_nat size) ok' calls'.
Proof.
  intros Hsize (Hf & Hout & Herr & Hlog & Hok). unfold filled.
  destruct ok; simpl.
  - destruct Hok as [Hk Hcalls]. unfold fread. rewrite Hf.
    eexists _, (calls ++ [Fread size _]), _. split; [done|].
    unfold reading. simpl. rewrite drop_drop, Hlog, <- (assoc_L (++)).
    repeat (split; [done|]).
    rewrite length_take, length_drop. case_bool_decide as Hlen.
    + split; [lia|]. apply Forall_app. split; [done|]. by repeat constructor.
    + split; [lia|]. by exists calls, size.
  - destruct Hok as [Hk Hcalls].
    exists false, calls, w. rewrite (drop_ge input k), take_nil by lia. simpl.
    split; [done|]. unfold reading. rewrite Hf, !drop_ge by lia.
    repeat (split; [done|]). split; [lia|done].
Qed.

(** What the bytes delivered to a buffer of [n] fallback bytes [v] leave
    in it, cell by cell. *)
Lemma filled_lookup (k : nat) (size : Z) (i : nat) (v : Z) :
  (i < Z.to_nat size)%nat ->
  filled input k size (replicate (Z.to_nat size) v) !! i
  = Some (default v (input !! (k + i)%nat)).
Proof.
  intros Hi. unfold filled. rewrite length_take, length_drop.
  destruct (decide (k + i < length input)%nat) as [Hin|Hin].
  - rewrite lookup_app_l by (rewrite length_take, length_drop; lia).
    rewrite lookup_take_lt, lookup_drop by done.
    by apply lookup_default.
  - rewrite lookup_app_r by (rewrite length_take, length_drop; lia).
    rewrite length_take, length_drop, lookup_drop.
    rewrite lookup_replicate_2 by lia.
    by rewrite (lookup_ge_None_2 input (k + i)) by lia.
Qed.

Lemma filled_length (k : nat) (size : Z) (buf : list Z) :
  length buf = Z.to_nat size -> length (filled input k size buf) = Z.to_nat size.
Proof.
  intros Hn. unfold filled. rewrite length_app, length_drop, length_take, length_drop. lia.
Qed.

(** The run of [read_koala] on a stream that holds [input]. *)
Lemma read_koala_run (argv0 : string) (w : world) :
  koalafile w = input ->
  exists w' calls,
    read_koala argv0 w = (filled_image input, w') /\
    stdout w' = stdout w /\
    io_log w' = io_log w ++ calls /\
    if decide (length input < Z.to_nat 10003)%nat
    then stderr w' = stderr w ++ [too_short argv0] /\ stops_at_failure calls
    else stderr w' = stderr w /\ Forall succeeded calls.
Proof.
  intros Hw.
  assert (R0 : reading input w w 0 true []).
  { unfold reading. rewrite drop_0, (right_id_L [] (++)).
    repeat (split; [done|]). split; [lia|constructor]. }
  destruct (and_fread_spec w w 0 true [] [0; 0] 2 ltac:(lia) R0)
    as (ok1 & c1 & w1 & E1 & R1).
  destruct (and_fread_spec w w1 _ ok1 c1 (bitmap fallback) 8000 ltac:(lia) R1)
    as (ok2 & c2 & w2 & E2 & R2).
  destruct (and_fread_spec w w2 _ ok2 c2 (video fallback) 1000 ltac:(lia) R2)
    as (ok3 & c3 & w3 & E3 & R3).
  destruct (and_fread_spec w w3 _ ok3 c3 (color fallback) 1000 ltac:(lia) R3)
    as (ok4 & c4 & w4 & E4 & R4).
  destruct (and_fread_spec w w4 _ ok4 c4 [bg fallback] 1 ltac:(lia) R4)
    as (ok5 & c5 & w5 & E5 & R5).
  replace (0 + Z.to_nat 2)%nat with (Z.to_nat 2) in * by lia.
  replace (Z.to_nat 2 + Z.to_nat 8000)%nat with (Z.to_nat 8002) in * by lia.
  replace (Z.to_nat 8002 + Z.to_nat 1000)%nat with (Z.to_nat 9002) in * by lia.
  replace (Z.to_nat 9002 + Z.to_nat 1000)%nat with (Z.to_nat 10002) in * by lia.
  replace (Z.to_nat 10002 + Z.to_nat 1)%nat with (Z.to_nat 10003) in * by lia.
  cbn [and_fread] in E1. unfold read_koala. rewrite E1, E2, E3, E4, E5.
  eexists _, c5. split; [done|].
  destruct R5 as (Hf & Hout & Herr & Hlog & Hok).
  destruct ok5; destruct Hok as [Hlen Hcalls].
  - rewrite decide_False by lia. by repeat split.
  - rewrite decide_True by lia. simpl. rewrite Herr. by repeat split.
Qed.

Lemma filled_image_wf : image_wf (filled_image input).
Proof.
  unfold image_wf, filled_image, fallback. cbn [bitmap video color].
  rewrite !filled_length; [done|apply length_replicate..].
Qed.

(** Each cell of the decoded arrays holds the byte of the file at its
    offset when the file has one, and its fallback value otherwise. *)
Lemma filled_image_bytes :
  (forall i, (i < Z.to_nat 8000)%nat ->
     bitmap (filled_image input) !! i
     = Some (default 0x1b (input !! (Z.to_nat 2 + i)%nat))) /\
  (forall i, (i < Z.to_nat 1000)%nat ->
     video (filled_image input) !! i
     = Some (default 0x25 (input !! (Z.to_nat 8002 + i)%nat))) /\
  (forall i, (i < Z.to_nat 1000)%nat ->
     color (filled_image input) !! i
     = Some (default 0x06 (input !! (Z.to_nat 9002 + i)%nat))) /\
  bg (filled_image input) = default 0x00 (input !! Z.to_nat 10002).
Proof.
  unfold filled_image, fallback. cbn [bitmap video color bg].
  split; [|split; [|split]]; try (intros i Hi; by apply filled_lookup).
  unfold filled.
  destruct (drop (Z.to_nat 10002) input) as [|x l] eqn:E.
  - simpl. rewrite lookup_ge_None_2; [done|].
    apply (f_equal length) in E. rewrite length_drop in E. simpl in E. lia.
  - simpl. by rewrite <- (Nat.add_0_r (Z.to_nat 10002)), <- lookup_drop, E.
Qed.

Lemma decode_filled : decode input = filled_image input.
Proof.
  unfold decode.
  destruct (read_koala_run "" (stream input) eq_refl) as (w' & calls & E & _).
  by rewrite E.
Qed.
End Decoding.

(** ** Writing *)

Lemma print_nil (w : world) : print [] w = w.
Proof. destruct w. unfold print. simpl. by rewrite (right_id_L [] (++)). Qed.

Lemma print_print (b1 b2 : list Z) (w : world) :
  print b2 (print b1 w) = print (b1 ++ b2) w.
Proof. unfold print. simpl. by rewrite (assoc_L (++)). Qed.

Lemma for_each_seqZ_cons {S} (lo : Z) (n : nat) (body : Z -> S -> option S) (s : S) :
  for_each (seqZ lo (Z.of_nat (Datatypes.S n))) body s
  = body lo s ≫= for_each (seqZ (lo + 1) (Z.of_nat n)) body.
Proof.
  rewrite seqZ_cons by lia. rewrite for_each_cons.
  by replace (Z.pred (Z.of_nat (Datatypes.S n))) with (Z.of_nat n) by lia.
Qed.

Section Writing.
Variable oi : list rgb_color.
Hypothesis oi_length : length oi = Z.to_nat 32000.

Lemma write_pixel_spec (y x : Z) (w : world) (p : rgb_color) :
  0 <= y < 200 -> 0 <= x < 160 ->
  oi !! Z.to_nat (y * 160 + x) = Some p ->
  write_pixel oi y x w = Some (print (pixel_bytes p) w).
Proof.
  intros Hy Hx Hp. unfold write_pixel.
  rewrite offset2_Some by lia. simpl. by rewrite Hp.
Qed.

(** [n] pixels of row [y], from column [lo] on. *)
Lemma write_pixels_spec (y : Z) (n : nat) :
  0 <= y < 200 ->
  forall (lo : Z) (w : world), 0 <= lo -> lo + Z.of_nat n <= 160 ->
    for_each (seqZ lo (Z.of_nat n)) (write_pixel oi y) w
    = Some (print (flat_map pixel_bytes (take n (drop (Z.to_nat (y * 160 + lo)) oi))) w).
Proof.
  intros Hy. induction n as [|n IH]; intros lo w Hlo Hn.
  - by rewrite take_0, print_nil.
  - destruct (lookup_lt_is_Some_2 oi (Z.to_nat (y * 160 + lo))) as [p Hp]; [lia|].
    rewrite for_each_seqZ_cons, (write_pixel_spec _ _ _ p) by (done || lia).
    simpl. rewrite IH by lia.
    rewrite print_print. rewrite (drop_S _ _ _ Hp). simpl.
    by replace (Z.to_nat (y * 160 + (lo + 1))) with (S (Z.to_nat (y * 160 + lo))) by lia.
Qed.

Lemma write_row_spec (y : Z) (w : world) :
  0 <= y < 200 ->
  write_row oi y w
  = Some (print (flat_map pixel_bytes
                   (take (Z.to_nat 160) (drop (Z.to_nat (y * 160)) oi))) w).
Proof.
  intros Hy. unfold write_row.
  change 160 with (Z.of_nat (Z.to_nat 160)) at 1.
  rewrite write_pixels_spec by (done || lia).
  by replace (y * 160 + 0) with (y * 160) by lia.
Qed.

(** [n] rows, from row [lo] on. *)
Lemma write_rows_spec (n : nat) :
  forall (lo : Z) (w : world), 0 <= lo -> lo + Z.of_nat n <= 200 ->
    for_each (seqZ lo (Z.of_nat n)) (write_row oi) w
    = Some (print (flat_map pixel_bytes
                     (take (n * Z.to_nat 160) (drop (Z.to_nat (lo * 160)) oi))) w).
Proof.
  induction n as [|n IH]; intros lo w Hlo Hn.
  - by rewrite take_0, print_nil.
  - rewrite for_each_seqZ_cons, write_row_spec by lia. cbn [mbind option_bind].
    rewrite IH by lia. rewrite print_print, <- flat_map_app.
    do 3 f_equal.
    replace (Z.to_nat ((lo + 1) * 160)) with (Z.to_nat (lo * 160) + Z.to_nat 160)%nat by lia.
    rewrite <- drop_drop. rewrite take_take_drop. f_equal; lia.
Qed.

(** The pixmap: the header, then the pixels of [oi] in array order,
    three bytes each. *)
Lemma write_ppm_spec (w : world) :
  write_ppm oi w = Some (print (ppm_header ++ flat_map pixel_bytes oi) w).
Proof.
  unfold write_ppm.
  change 200 with (Z.of_nat (Z.to_nat 200)) at 1.
  rewrite write_rows_spec by lia.
  rewrite print_print. change (Z.to_nat (0 * 160)) with 0%nat.
  rewrite drop_0, take_ge; [done|]. lia.
Qed.
End Writing.

Lemma pixel_bytes_length (l : list rgb_color) :
  length (flat_map pixel_bytes l) = (3 * length l)%nat.
Proof. induction l as [|p l IH]; simpl; lia. Qed.

(** Where the bytes of pixel [o] are in the payload. *)
Lemma pixel_bytes_at (l : list rgb_color) (o : nat) (p : rgb_color) :
  l !! o = Some p ->
  take 3 (drop (3 * o) (flat_map pixel_bytes l)) = pixel_bytes p.
Proof.
  revert o. induction l as [|q l IH]; intros o Ho; [done|].
  destruct o as [|o].
  - simpl in Ho. by injection Ho as ->.
  - simpl in Ho. replace (3 * S o)%nat with (S (S (S (3 * o)))) by lia.
    simpl. by apply IH.
Qed.

(** ** The command line and [main] *)

Lemma only_stderr_refl (w : world) : only_stderr w w.
Proof. repeat split. exists []. by rewrite (right_id_L [] (++)). Qed.

Lemma only_stderr_eprint (msg : string) (w w' : world) :
  only_stderr w w' -> only_stderr w (eprint msg w').
Proof.
  intros (? & ? & ? & msgs & E). repeat split; try done.
  exists (msgs ++ [msg]). simpl. by rewrite E, (assoc_L (++)).
Qed.

Section ProgramProofs.
Variables cos sin : spec_float -> spec_float.
Variable atof : string -> spec_float.
Variable files : string -> option (list Z).
Variable stdin : list Z.
Variable stack : frame.

Lemma getargs_options_world (a0 : string) (opts : list getopt_ret) :
  forall (sat : spec_float) (w : world),
    only_stderr w (result_world (getargs_options atof a0 sat opts w)).
Proof.
  induction opts as [|o opts IH]; intros sat w; simpl.
  - apply only_stderr_refl.
  - destruct o; simpl.
    + apply only_stderr_eprint, only_stderr_refl.
    + apply only_stderr_eprint, only_stderr_refl.
    + destruct (F32.ltb _ _); [|apply IH].
      apply only_stderr_eprint, only_stderr_refl.
    + do 2 apply only_stderr_eprint. apply only_stderr_refl.
Qed.

Lemma getargs_world (cmd : cmdline) (w : world) :
  only_stderr w (result_world (getargs atof cmd w)).
Proof.
  unfold getargs.
  pose proof (getargs_options_world (argv0 cmd) (options cmd)
                (F32.of_double SATURATION) w) as H.
  destruct (getargs_options _ _ _ _ _) as [st w'|sat w']; [done|].
  simpl in H. destruct (operands cmd) as [|name [|name' rest]]; simpl; try done.
  by do 2 apply only_stderr_eprint.
Qed.

(** The options before one that ends the loop do not matter beyond the
    saturation they leave. *)
Lemma getargs_options_app (a0 : string) (pre rest : list getopt_ret) :
  forall (sat : spec_float) (w : world),
    getargs_options atof a0 sat (pre ++ rest) w
    = match getargs_options atof a0 sat pre w with
      | Exit st w' => Exit st w'
      | Return sat' w' => getargs_options atof a0 sat' rest w'
      end.
Proof.
  induction pre as [|o pre IH]; intros sat w; [done|].
  destruct o; simpl; try done.
  destruct (F32.ltb _ _); [done|apply IH].
Qed.

Lemma init_colors_length (sat : spec_float) (pal : list rgb_color) :
  init_colors cos sin sat = Some pal -> length pal = Z.to_nat 16.
Proof.
  unfold init_colors. intros H. apply length_mapM in H. by rewrite <- H.
Qed.

(** A run of [main] that gets past the command line, opens its input
    and has a palette: it returns 0 and writes the pixmap of the decoded
    image. *)
Lemma main_run (cmd : cmdline) (sat : spec_float) (name : option string)
    (w0 : world) (input : list Z) (pal : list rgb_color) :
  getargs atof cmd start = Return (sat, name) w0 ->
  opened_input files stdin name = Some input ->
  init_colors cos sin sat = Some pal ->
  frame_wf stack ->
  exists w calls,
    main cos sin atof files stdin stack cmd = Some (0, w) /\
    stdout w = ppm_header ++ flat_map pixel_bytes (raster pal (decode input)) /\
    io_log w = match name with Some n => [Fopen n true] | None => [] end ++ calls /\
    if decide (length input < Z.to_nat 10003)%nat
    then stderr w = stderr w0 ++ [too_short (argv0 cmd)] /\ stops_at_failure calls
    else stderr w = stderr w0 /\ Forall succeeded calls.
Proof.
  intros Hargs Hopen Hpal Hstack.
  pose proof (getargs_world cmd start) as Hw0. rewrite Hargs in Hw0.
  destruct Hw0 as (Hf0 & Hlog0 & Hout0 & _). simpl in Hf0, Hlog0, Hout0.
  unfold main. rewrite Hargs.
  set (w1 := {| koalafile := input;
                io_log := match name with Some n => [Fopen n true] | None => [] end;
                stdout := []; stderr := stderr w0 |}).
  assert (E1 : match name with
               | Some n => fopen files n w0
               | None => (true, use_stdin stdin w0)
               end = (true, w1)).
  { subst w1. destruct name as [n|]; simpl in Hopen.
    - unfold fopen. rewrite Hopen, Hlog0, Hout0. done.
    - injection Hopen as <-. unfold use_stdin. by rewrite Hlog0, Hout0. }
  rewrite E1, Hpal. cbn [mbind option_bind].
  destruct (read_koala_run input (argv0 cmd) w1 eq_refl)
    as (w2 & calls & E2 & Hout2 & Hlog2 & Herr2).
  rewrite E2, <- decode_filled.
  destruct (render_raster pal (decode input) (init_colors_length _ _ Hpal)
              ltac:(rewrite decode_filled; apply filled_image_wf) stack Hstack)
    as (fr & E3 & Hoi).
  rewrite E3. cbn [mbind option_bind].
  rewrite write_ppm_spec by (rewrite Hoi; unfold raster;
    rewrite length_fmap, length_seqZ; reflexivity).
  eexists _, calls. split; [reflexivity|].
  cbn [print stdout io_log stderr].
  rewrite Hout2, Hlog2, Hoi. subst w1. cbn [stdout io_log stderr].
  split; [exact (left_id_L [] (++) _)|]. split; [reflexivity|]. exact Herr2.
Qed.
End ProgramProofs.

(** ** The local colour table (C1) *)

(** The arithmetic shift of the sign-extended byte and the shift of the
    byte itself have the same low nibble. *)
Lemma char_to_int_high_nibble (byte : Z) :
  Z.land (Z.shiftr (char_to_int byte) 4) 0x0f = Z.land (Z.shiftr byte 4) 0x0f.
Proof.
  unfold char_to_int. destruct (byte <? 128); [done|].
  change 0x0f with (Z.ones 4). rewrite !Z.land_ones, !Z.shiftr_div_pow2 by lia.
  replace (byte - 256) with (byte + (-16) * 2 ^ 4) by lia.
  rewrite Z.div_add by lia.
  replace (byte / 2 ^ 4 + -16) with (byte / 2 ^ 4 + (-1) * 2 ^ 4) by lia.
  apply Z.mod_add. lia.
Qed.

Lemma char_to_int_low_nibble (byte : Z) :
  Z.land (char_to_int byte) 0x0f = Z.land byte 0x0f.
Proof. apply (char_to_int_land byte 4). lia. Qed.

(** The table of a card, on the bytes as they are in the file. *)
Lemma block_colors_bytes (pal : list rgb_color) (img : image) (cardy cardx : Z) :
  block_colors pal img cardy cardx
  = [ palette_entry pal (Z.land (bg img) 0x0f);
      palette_entry pal (Z.land (Z.shiftr (video_byte img cardy cardx) 4) 0x0f);
      palette_entry pal (Z.land (video_byte img cardy cardx) 0x0f);
      palette_entry pal (Z.land (color_byte img cardy cardx) 0x0f) ].
Proof.
  unfold block_colors.
  by rewrite char_to_int_high_nibble, !char_to_int_low_nibble.
Qed.

(** Two images that differ only in the high nibbles of their colour RAM
    have the same raster. *)
Lemma raster_color_low_nibble (pal : list rgb_color) (img img' : image) :
  bitmap img' = bitmap img -> video img' = video img -> bg img' = bg img ->
  (fun k => Z.land k 0x0f) <$> color img' = (fun k => Z.land k 0x0f) <$> color img ->
  raster pal img' = raster pal img.
Proof.
  intros Hb Hv Hg Hc. unfold raster. apply list_fmap_ext. intros _ o _.
  unfold pixel_at.
  assert (Hbc : forall cardy cardx,
            block_colors pal img' cardy cardx = block_colors pal img cardy cardx).
  { intros cardy cardx. rewrite !block_colors_bytes.
    unfold video_byte, color_byte. rewrite Hv, Hg. do 3 f_equal.
    apply (f_equal (fun l => l !! Z.to_nat (cardy * 40 + cardx))) in Hc.
    rewrite !list_lookup_fmap in Hc.
    destruct (color img' !! _), (color img !! _); simpl in *; try done.
    injection Hc as Hc. by rewrite Hc. }
  rewrite Hbc. unfold bitmap_byte. by rewrite Hb.
Qed.

(** C1: for every card the four entries of [colors] are, in order, the
    palette entries selected by the low nibble of the background byte, the
    high nibble of the video-matrix byte, its low nibble, and the low
    nibble of the colour-RAM byte; every pixel of the card is one of these
    four; and the high nibble of the colour-RAM bytes has no influence on
    the raster. *)
Theorem C1_local_color_table (pal : list rgb_color) (img : image) (stack : frame) :
  length pal = Z.to_nat 16 -> image_wf img -> frame_wf stack ->
  exists fr e0,
    render pal img stack = Some fr /\
    index1 pal (Z.land (bg img) 0x0f) = Some e0 /\
    (forall cardy cardx, 0 <= cardy < 25 -> 0 <= cardx < 40 ->
       exists v k e1 e2 e3,
         video img !! Z.to_nat (cardy * 40 + cardx) = Some v /\
         color img !! Z.to_nat (cardy * 40 + cardx) = Some k /\
         index1 pal (Z.land (Z.shiftr v 4) 0x0f) = Some e1 /\
         index1 pal (Z.land v 0x0f) = Some e2 /\
         index1 pal (Z.land k 0x0f) = Some e3 /\
         (forall fr0, frame_wf fr0 -> colors fr0 !! 0%nat = Some e0 ->
            exists fr1, card_colors pal img cardy cardx fr0 = Some fr1 /\
                        colors fr1 = [e0; e1; e2; e3]) /\
         (forall y col, 0 <= y < 8 -> 0 <= col < 4 ->
            exists code, 0 <= code < 4 /\
              outimage fr !! Z.to_nat ((8 * cardy + y) * 160 + (4 * cardx + col))
              = [e0; e1; e2; e3] !! Z.to_nat code)) /\
    (forall img' stack',
       image_wf img' -> frame_wf stack' ->
       bitmap img' = bitmap img -> video img' = video img -> bg img' = bg img ->
       (fun k => Z.land k 0x0f) <$> color img' = (fun k => Z.land k 0x0f) <$> color img ->
       exists fr', render pal img' stack' = Some fr' /\ outimage fr' = outimage fr).
Proof.
  intros Hpal Himg Hstack.
  destruct (render_spec pal img Hpal Himg stack Hstack) as (fr & E & Hwf & Hp).
  destruct (render_raster pal img Hpal Himg stack Hstack) as (fr_ & E_ & Hoi).
  rewrite E in E_. injection E_ as <-.
  exists fr, (palette_entry pal (Z.land (bg img) 0x0f)).
  split; [done|]. split; [apply (palette_index pal Hpal)|]. split.
  - intros cardy cardx Hcy Hcx.
    exists (video_byte img cardy cardx), (color_byte img cardy cardx).
    eexists _, _, _.
    split; [by apply (video_lookup img Himg)|].
    split; [by apply (color_lookup img Himg)|].
    do 3 (split; [apply (palette_index pal Hpal)|]).
    rewrite <- block_colors_bytes. split.
    + intros fr0 Hfr0 H0.
      destruct (card_colors_spec pal img Hpal Himg cardy cardx fr0 _ Hcy Hcx Hfr0 H0)
        as (fr1 & E1 & Hc1 & _).
      exists fr1. split; [done|]. by rewrite Hc1.
    + intros y col Hy Hcol.
      exists (pixel_code (bitmap_byte img cardy cardx y) (6 - 2 * col)).
      pose proof (land_3_range
        (Z.shiftr (char_to_int (bitmap_byte img cardy cardx y)) (6 - 2 * col))) as Hr.
      split; [exact Hr|].
      rewrite (Hp (8 * cardy + y) (4 * cardx + col)) by lia.
      rewrite pixel_at_card by done.
      symmetry. apply lookup_default. unfold pixel_code. simpl. lia.
  - intros img' stack' Himg' Hstack' Hb Hv Hg Hc.
    destruct (render_raster pal img' Hpal Himg' stack' Hstack') as (fr' & E' & Hoi').
    exists fr'. split; [done|].
    rewrite Hoi, Hoi'. by apply raster_color_low_nibble.
Qed.

Lemma grey_ramp_length : length grey_ramp = Z.to_nat 16.
Proof. reflexivity. Qed.

Lemma fallback_wf : image_wf fallback.
Proof. unfold image_wf, fallback. cbn [bitmap video color]. by rewrite !length_replicate. Qed.

Lemma junk_frame_wf : frame_wf junk_frame.
Proof.
  unfold frame_wf, junk_frame. cbn [colors outbitmap outimage].
  by rewrite !length_replicate.
Qed.

Lemma C1_witness :
  length grey_ramp = Z.to_nat 16 /\ image_wf fallback /\ frame_wf junk_frame /\
  exists fr e0,
    render grey_ramp fallback junk_frame = Some fr /\
    index1 grey_ramp (Z.land (bg fallback) 0x0f) = Some e0.
Proof.
  split; [reflexivity|]. split; [exact fallback_wf|]. split; [exact junk_frame_wf|].
  destruct (C1_local_color_table grey_ramp fallback junk_frame
              grey_ramp_length fallback_wf junk_frame_wf)
    as (fr & e0 & E & He & _).
  exists fr, e0. split; [exact E|exact He].
Defined.

(** ** Placement of the pixels (C2, C3) *)

(** C2: for every card, every row [y] of it and every bit position [b] in
    0, 2, 4, 6 of the row's bitmap byte [c], the colour selected by the
    code [(c >> b) & 3] is in [outimage] at row [8*blockY + y] and column
    [4*blockX + (6-b)/2]; position 6 is the card's leftmost column and
    position 0 its rightmost. *)
Theorem C2_pixel_placement (pal : list rgb_color) (img : image) (stack : frame) :
  length pal = Z.to_nat 16 -> image_wf img -> frame_wf stack ->
  exists fr,
    render pal img stack = Some fr /\
    forall blockX blockY y b,
      0 <= blockX < 40 -> 0 <= blockY < 25 -> 0 <= y < 8 -> b ∈ [0; 2; 4; 6] ->
      exists byte outcolor,
        bitmap img !! Z.to_nat ((blockY * 40 + blockX) * 8 + y) = Some byte /\
        index1 (block_colors pal img blockY blockX)
               (Z.land (Z.shiftr (char_to_int byte) b) 3) = Some outcolor /\
        outimage fr !! Z.to_nat ((8 * blockY + y) * 160 + (4 * blockX + Z.quot (6 - b) 2))
        = Some outcolor /\
        (b = 6 -> 4 * blockX + Z.quot (6 - b) 2 = 4 * blockX) /\
        (b = 0 -> 4 * blockX + Z.quot (6 - b) 2 = 4 * blockX + 3).
Proof.
  intros Hpal Himg Hstack.
  destruct (render_spec pal img Hpal Himg stack Hstack) as (fr & E & Hwf & Hp).
  exists fr. split; [done|].
  intros blockX blockY y b Hx Hy Hrow Hb.
  destruct (column_of_bit b Hb) as [Hcol Hbit].
  exists (bitmap_byte img blockY blockX y). eexists.
  split; [by apply (bitmap_lookup img Himg)|].
  split; [apply (block_colors_index pal img)|].
  split.
  - rewrite (Hp (8 * blockY + y) (4 * blockX + Z.quot (6 - b) 2)) by lia.
    rewrite (pixel_at_card pal img) by done.
    unfold pixel_code. rewrite Hbit. reflexivity.
  - split; intros ->;
      [change (Z.quot (6 - 6) 2) with 0 | change (Z.quot (6 - 0) 2) with 3]; lia.
Qed.

Lemma C2_witness :
  length grey_ramp = Z.to_nat 16 /\ image_wf fallback /\ frame_wf junk_frame /\
  exists fr, render grey_ramp fallback junk_frame = Some fr.
Proof.
  split; [reflexivity|]. split; [exact fallback_wf|]. split; [exact junk_frame_wf|].
  destruct (C2_pixel_placement grey_ramp fallback junk_frame
              grey_ramp_length fallback_wf junk_frame_wf) as (fr & E & _).
  exists fr. exact E.
Defined.

Lemma e4_image_wf : image_wf e4_image.
Proof.
  unfold image_wf, e4_image, fallback. cbn [bitmap video color].
  by rewrite !length_replicate.
Qed.

(** C3, as amended: in a card row whose bitmap byte is 0xE4 (binary
    11 10 01 00, most significant pair first) the four cells receive, left
    to right, the colour-RAM colour, the colour of the low nibble of
    the video-matrix byte, the colour of its high nibble, and the background colour. *)
Theorem C3_block_row_0xE4 (pal : list rgb_color) (img : image) (stack : frame) :
  length pal = Z.to_nat 16 -> image_wf img -> frame_wf stack ->
  exists fr,
    render pal img stack = Some fr /\
    forall blockX blockY y,
      0 <= blockX < 40 -> 0 <= blockY < 25 -> 0 <= y < 8 ->
      bitmap img !! Z.to_nat ((blockY * 40 + blockX) * 8 + y) = Some 0xE4 ->
      block_row fr blockY blockX y
      = [ Some (palette_entry pal (Z.land (color_byte img blockY blockX) 0x0f));
          Some (palette_entry pal (Z.land (video_byte img blockY blockX) 0x0f));
          Some (palette_entry pal (Z.land (Z.shiftr (video_byte img blockY blockX) 4) 0x0f));
          Some (palette_entry pal (Z.land (bg img) 0x0f)) ].
Proof.
  intros Hpal Himg Hstack.
  destruct (render_spec pal img Hpal Himg stack Hstack) as (fr & E & Hwf & Hp).
  exists fr. split; [done|].
  intros blockX blockY y Hx Hy Hrow Hbyte.
  assert (Hb : bitmap_byte img blockY blockX y = 0xE4).
  { unfold bitmap_byte. by rewrite Hbyte. }
  unfold block_row. cbn [fmap list_fmap].
  rewrite !Hp by lia. rewrite !(pixel_at_card pal img), Hb by lia.
  by rewrite block_colors_bytes.
Qed.

Lemma C3_witness :
  length grey_ramp = Z.to_nat 16 /\ image_wf e4_image /\ frame_wf junk_frame /\
  exists fr, render grey_ramp e4_image junk_frame = Some fr.
Proof.
  split; [reflexivity|]. split; [exact e4_image_wf|]. split; [exact junk_frame_wf|].
  destruct (C3_block_row_0xE4 grey_ramp e4_image junk_frame
              grey_ramp_length e4_image_wf junk_frame_wf) as (fr & E & _).
  exists fr. exact E.
Defined.

(** The order C3 states (background, video high nibble, video low nibble,
    colour RAM) is the reverse of what the loops produce: on [e4_image]
    with a grey ramp as palette, the first card row reads 96, 80, 32, 0
    from left to right, that is colour RAM (6), video low nibble (5),
    video high nibble (2), background (0). *)
Lemma C3_counterexample :
  exists fr,
    render grey_ramp e4_image junk_frame = Some fr /\
    bitmap e4_image !! Z.to_nat ((0 * 40 + 0) * 8 + 0) = Some 0xE4 /\
    block_row fr 0 0 0
    = [ Some {| r := 96; g := 96; b := 96 |}; Some {| r := 80; g := 80; b := 80 |};
        Some {| r := 32; g := 32; b := 32 |}; Some {| r := 0; g := 0; b := 0 |} ] /\
    block_row fr 0 0 0
    <> [ Some (palette_entry grey_ramp (Z.land (bg e4_image) 0x0f));
         Some (palette_entry grey_ramp (Z.land (Z.shiftr (video_byte e4_image 0 0) 4) 0x0f));
         Some (palette_entry grey_ramp (Z.land (video_byte e4_image 0 0) 0x0f));
         Some (palette_entry grey_ramp (Z.land (color_byte e4_image 0 0) 0x0f)) ].
Proof.
  destruct (render_spec grey_ramp e4_image grey_ramp_length e4_image_wf
              junk_frame junk_frame_wf) as (fr & E & _ & Hp).
  exists fr. split; [exact E|]. split; [reflexivity|].
  assert (Hrow : block_row fr 0 0 0
    = [ Some {| r := 96; g := 96; b := 96 |}; Some {| r := 80; g := 80; b := 80 |};
        Some {| r := 32; g := 32; b := 32 |}; Some {| r := 0; g := 0; b := 0 |} ]).
  { unfold block_row. cbn [fmap list_fmap].
    rewrite (Hp (8 * 0 + 0) (4 * 0 + 0)), (Hp (8 * 0 + 0) (4 * 0 + 1)),
      (Hp (8 * 0 + 0) (4 * 0 + 2)), (Hp (8 * 0 + 0) (4 * 0 + 3)) by lia.
    vm_compute. reflexivity. }
  split; [exact Hrow|]. rewrite Hrow. vm_compute. discriminate.
Qed.

(** ** The pixmap written by [main] (C4, C10) *)

Lemma raster_length (pal : list rgb_color) (img : image) :
  length (raster pal img) = Z.to_nat 32000.
Proof. unfold raster. by rewrite length_fmap, length_seqZ. Qed.

Lemma raster_lookup (pal : list rgb_color) (img : image) (y x : Z) :
  0 <= y < 200 -> 0 <= x < 160 ->
  raster pal img !! Z.to_nat (160 * y + x) = Some (pixel_at pal img y x).
Proof.
  intros Hy Hx. unfold raster. rewrite list_lookup_fmap, lookup_seqZ_lt by lia.
  cbn [fmap option_fmap option_map]. rewrite Z2Nat.id by lia.
  replace (0 + (160 * y + x)) with (160 * y + x) by lia.
  replace ((160 * y + x) / 160) with y by (apply Z.div_unique with x; lia).
  replace ((160 * y + x) mod 160) with x by (apply Z.mod_unique with y; lia).
  reflexivity.
Qed.

Lemma ppm_header_bytes :
  ppm_header = [80; 54; 10; 49; 54; 48; 32; 50; 48; 48; 10; 50; 53; 53; 10].
Proof. reflexivity. Qed.

(** Size and layout of a pixmap. *)
Lemma pixmap_layout (pal : list rgb_color) (img : image) (out : list Z) :
  out = ppm_header ++ flat_map pixel_bytes (raster pal img) ->
  length out = Z.to_nat 96015 /\
  take (Z.to_nat 15) out = ppm_header /\
  length (drop (Z.to_nat 15) out) = Z.to_nat 96000 /\
  forall y x, 0 <= y < 200 -> 0 <= x < 160 ->
    take 3 (drop (Z.to_nat (15 + 3 * (160 * y + x))) out)
    = pixel_bytes (pixel_at pal img y x).
Proof.
  intros ->.
  assert (Hh : length ppm_header = Z.to_nat 15) by reflexivity.
  split; [|split; [|split]].
  - rewrite length_app, pixel_bytes_length, raster_length, Hh. lia.
  - by rewrite <- Hh, take_app_length.
  - rewrite <- Hh, drop_app_length, pixel_bytes_length, raster_length. lia.
  - intros y x Hy Hx.
    rewrite drop_app_ge by (rewrite Hh; lia).
    replace (Z.to_nat (15 + 3 * (160 * y + x)) - length ppm_header)%nat
      with (3 * Z.to_nat (160 * y + x))%nat by (rewrite Hh; lia).
    apply pixel_bytes_at. by apply raster_lookup.
Qed.

Section Output.
Variables cos sin : spec_float -> spec_float.
Variable atof : string -> spec_float.
Variable files : string -> option (list Z).
Variable stdin : list Z.
Variable stack : frame.

(** C4: whatever the bytes of the input, a run of [main] that gets past
    the command line, opens its input and has a palette writes exactly the
    15 bytes [P6\n160 200\n255\n] followed by 96000 bytes: the pixels of
    the raster row by row from the top, left to right within a row, three
    bytes r, g, b each and nothing between them; 96015 bytes in all. *)
Theorem C4_pixmap_output (cmd : cmdline) (sat : spec_float) (name : option string)
    (w0 : world) (input : list Z) (pal : list rgb_color) :
  getargs atof cmd start = Return (sat, name) w0 ->
  opened_input files stdin name = Some input ->
  init_colors cos sin sat = Some pal ->
  frame_wf stack ->
  exists w,
    main cos sin atof files stdin stack cmd = Some (0, w) /\
    take (Z.to_nat 15) (stdout w)
    = bytes_of_string ("P6" +:+ nl +:+ "160 200" +:+ nl +:+ "255" +:+ nl) /\
    length (drop (Z.to_nat 15) (stdout w)) = Z.to_nat (160 * 200 * 3) /\
    length (stdout w) = Z.to_nat 96015 /\
    forall y x, 0 <= y < 200 -> 0 <= x < 160 ->
      take 3 (drop (Z.to_nat (15 + 3 * (160 * y + x))) (stdout w))
      = [ r (pixel_at pal (decode input) y x) mod 256;
          g (pixel_at pal (decode input) y x) mod 256;
          b (pixel_at pal (decode input) y x) mod 256 ].
Proof.
  intros Hargs Hopen Hpal Hstack.
  destruct (main_run cos sin atof files stdin stack cmd sat name w0 input pal
              Hargs Hopen Hpal Hstack) as (w & calls & E & Hout & _).
  destruct (pixmap_layout pal (decode input) (stdout w) Hout) as (Hlen & Hhead & Hpay & Hpix).
  exists w. split; [exact E|]. split; [exact Hhead|]. split; [exact Hpay|].
  split; [exact Hlen|]. exact Hpix.
Qed.

(** C10: for an input shorter than the 10003 bytes of a Koala file such a
    run still returns 0 and still writes a pixmap of 96015 bytes, with one
    warning on the error stream; the truncation shows only in the pixels,
    which are those of the image with the fallback bytes where the file
    has none. *)
Theorem C10_short_input (cmd : cmdline) (sat : spec_float) (name : option string)
    (w0 : world) (input : list Z) (pal : list rgb_color) :
  getargs atof cmd start = Return (sat, name) w0 ->
  opened_input files stdin name = Some input ->
  init_colors cos sin sat = Some pal ->
  frame_wf stack ->
  (length input < Z.to_nat 10003)%nat ->
  exists w,
    main cos sin atof files stdin stack cmd = Some (0, w) /\
    length (stdout w) = Z.to_nat 96015 /\
    stdout w = ppm_header ++ flat_map pixel_bytes (raster pal (decode input)) /\
    stderr w = stderr w0 ++ [too_short (argv0 cmd)] /\
    (forall i, (i < Z.to_nat 8000)%nat ->
       bitmap (decode input) !! i = Some (default 0x1b (input !! (Z.to_nat 2 + i)%nat))) /\
    (forall i, (i < Z.to_nat 1000)%nat ->
       video (decode input) !! i = Some (default 0x25 (input !! (Z.to_nat 8002 + i)%nat))) /\
    (forall i, (i < Z.to_nat 1000)%nat ->
       color (decode input) !! i = Some (default 0x06 (input !! (Z.to_nat 9002 + i)%nat))) /\
    bg (decode input) = default 0x00 (input !! Z.to_nat 10002).
Proof.
  intros Hargs Hopen Hpal Hstack Hshort.
  destruct (main_run cos sin atof files stdin stack cmd sat name w0 input pal
              Hargs Hopen Hpal Hstack) as (w & calls & E & Hout & _ & Herr).
  rewrite decide_True in Herr by exact Hshort. destruct Herr as [Herr _].
  destruct (pixmap_layout pal (decode input) (stdout w) Hout) as (Hlen & _).
  exists w. split; [exact E|]. split; [exact Hlen|]. split; [exact Hout|].
  split; [exact Herr|]. rewrite decode_filled. apply filled_image_bytes.
Qed.
End Output.

Lemma sample_palette_init :
  init_colors cos_sample sin_sample (F32.of_double SATURATION) = Some sample_palette.
Proof. vm_compute. reflexivity. Qed.

Lemma plain_cmd_args :
  getargs atof_sample plain_cmd start = Return (F32.of_double SATURATION, None) start.
Proof. reflexivity. Qed.

Lemma C4_witness :
  getargs atof_sample plain_cmd start = Return (F32.of_double SATURATION, None) start /\
  opened_input no_files only_load_address None = Some only_load_address /\
  init_colors cos_sample sin_sample (F32.of_double SATURATION) = Some sample_palette /\
  frame_wf junk_frame /\
  exists w,
    main cos_sample sin_sample atof_sample no_files only_load_address junk_frame plain_cmd
    = Some (0, w) /\
    length (stdout w) = Z.to_nat 96015.
Proof.
  split; [reflexivity|]. split; [reflexivity|].
  split; [vm_compute; reflexivity|]. split; [exact junk_frame_wf|].
  destruct (C4_pixmap_output cos_sample sin_sample atof_sample no_files only_load_address
              junk_frame plain_cmd _ None start only_load_address sample_palette
              plain_cmd_args eq_refl sample_palette_init junk_frame_wf)
    as (w & E & _ & _ & Hlen & _).
  exists w. split; [exact E|exact Hlen].
Defined.

Lemma C10_witness :
  getargs atof_sample plain_cmd start = Return (F32.of_double SATURATION, None) start /\
  opened_input no_files only_load_address None = Some only_load_address /\
  init_colors cos_sample sin_sample (F32.of_double SATURATION) = Some sample_palette /\
  frame_wf junk_frame /\
  (length only_load_address < Z.to_nat 10003)%nat /\
  exists w,
    main cos_sample sin_sample atof_sample no_files only_load_address junk_frame plain_cmd
    = Some (0, w) /\
    length (stdout w) = Z.to_nat 96015 /\
    stderr w = [too_short "c64koala2ppm"].
Proof.
  assert (Hlen : (length only_load_address < Z.to_nat 10003)%nat) by (vm_compute; lia).
  split; [reflexivity|]. split; [reflexivity|].
  split; [vm_compute; reflexivity|]. split; [exact junk_frame_wf|].
  split; [exact Hlen|].
  destruct (C10_short_input cos_sample sin_sample atof_sample no_files only_load_address
              junk_frame plain_cmd _ None start only_load_address sample_palette
              plain_cmd_args eq_refl sample_palette_init junk_frame_wf Hlen)
    as (w & E & Hout & _ & Herr & _).
  exists w. split; [exact E|]. split; [exact Hout|exact Herr].
Defined.

(** ** Short reads (C5) *)

(** C5, as amended: when one of the five reads cannot be fully satisfied,
    decoding still yields an image: the bytes the file does hold, those
    of the failing read included, are in the arrays at their offsets,
    every other byte keeps its fallback value (0x1B, 0x25, 0x06, and 0x00
    for the background), the failing read is the last one made, nothing
    is written to standard output, and the error stream gets exactly one
    message, the warning. *)
Theorem C5_short_read (argv0 : string) (w : world) :
  (length (koalafile w) < Z.to_nat 10003)%nat ->
  exists img w' calls,
    read_koala argv0 w = (img, w') /\
    image_wf img /\
    (forall i, (i < Z.to_nat 8000)%nat ->
       bitmap img !! i = Some (default 0x1b (koalafile w !! (Z.to_nat 2 + i)%nat))) /\
    (forall i, (i < Z.to_nat 1000)%nat ->
       video img !! i = Some (default 0x25 (koalafile w !! (Z.to_nat 8002 + i)%nat))) /\
    (forall i, (i < Z.to_nat 1000)%nat ->
       color img !! i = Some (default 0x06 (koalafile w !! (Z.to_nat 9002 + i)%nat))) /\
    bg img = default 0x00 (koalafile w !! Z.to_nat 10002) /\
    io_log w' = io_log w ++ calls /\ stops_at_failure calls /\
    stdout w' = stdout w /\
    stderr w' = stderr w ++ [too_short argv0].
Proof.
  intros Hshort.
  destruct (read_koala_run (koalafile w) argv0 w eq_refl)
    as (w' & calls & E & Hout & Hlog & Herr).
  rewrite decide_True in Herr by exact Hshort. destruct Herr as [Herr Hstop].
  destruct (filled_image_bytes (koalafile w)) as (Hb & Hv & Hc & Hg).
  exists (filled_image (koalafile w)), w', calls.
  split; [exact E|]. split; [apply filled_image_wf|].
  split; [exact Hb|]. split; [exact Hv|]. split; [exact Hc|]. split; [exact Hg|].
  split; [exact Hlog|]. split; [exact Hstop|]. split; [exact Hout|exact Herr].
Qed.

Lemma C5_witness :
  (length (koalafile (stream only_load_address)) < Z.to_nat 10003)%nat /\
  exists img w',
    read_koala "c64koala2ppm" (stream only_load_address) = (img, w') /\
    stderr w' = [too_short "c64koala2ppm"].
Proof.
  assert (Hlen : (length (koalafile (stream only_load_address)) < Z.to_nat 10003)%nat)
    by (vm_compute; lia).
  split; [exact Hlen|].
  destruct (C5_short_read "c64koala2ppm" (stream only_load_address) Hlen)
    as (img & w' & calls & E & _ & _ & _ & _ & _ & _ & _ & _ & Herr).
  exists img, w'. split; [exact E|exact Herr].
Defined.

(** A file of three bytes: the load address is read, the read of the
    bitmap fails, and the one byte it delivered has replaced the fallback
    value of the first bitmap byte although no read of the bitmap
    succeeded. *)
Lemma C5_counterexample :
  exists img w',
    read_koala "c64koala2ppm" (stream [0; 0; 0xff]) = (img, w') /\
    io_log w' = [Fread 2 true; Fread 8000 false] /\
    bitmap img !! 0%nat = Some 0xff /\
    bitmap fallback !! 0%nat = Some 0x1b /\
    bitmap img !! 1%nat = Some 0x1b.
Proof.
  eexists _, _. split; [vm_compute; reflexivity|]. by vm_compute.
Qed.

(** ** Totality of the transform (C8) *)

(** C8: on every image, whatever the values in its arrays (bytes with the
    high bit set are negative as [char]), and so on everything decoding
    can produce, the card loops and the writer run to completion: every
    index into the palette, masked with 0x0f, is in 0..15 and every pixel
    code, masked with 3, in 0..3, so that no checked access fails. *)
Theorem C8_transform_total (pal : list rgb_color) (img : image) (stack : frame) (w : world) :
  length pal = Z.to_nat 16 -> image_wf img -> frame_wf stack ->
  (exists fr w',
     render pal img stack = Some fr /\ frame_wf fr /\
     write_ppm (outimage fr) w = Some w') /\
  (forall byte,
     0 <= Z.land (char_to_int byte) 0x0f < 16 /\
     0 <= Z.land (Z.shiftr (char_to_int byte) 4) 0x0f < 16 /\
     0 <= Z.land byte 0x0f < 16) /\
  (forall byte b, 0 <= pixel_code byte b < 4) /\
  (forall input, image_wf (decode input)).
Proof.
  intros Hpal Himg Hstack. split; [|split; [|split]].
  - destruct (render_spec pal img Hpal Himg stack Hstack) as (fr & E & Hwf & _).
    exists fr. eexists. split; [exact E|]. split; [exact Hwf|].
    apply write_ppm_spec. apply Hwf.
  - intros byte. repeat split; apply land_0x0f_range.
  - intros byte b. apply land_3_range.
  - intros input. rewrite decode_filled. apply filled_image_wf.
Qed.

Lemma C8_witness :
  length grey_ramp = Z.to_nat 16 /\
  image_wf (decode (replicate (Z.to_nat 10003) 0xff)) /\
  frame_wf junk_frame /\
  exists fr w',
    render grey_ramp (decode (replicate (Z.to_nat 10003) 0xff)) junk_frame = Some fr /\
    write_ppm (outimage fr) (stream []) = Some w'.
Proof.
  assert (Himg : image_wf (decode (replicate (Z.to_nat 10003) 0xff))).
  { rewrite decode_filled. apply filled_image_wf. }
  split; [reflexivity|]. split; [exact Himg|]. split; [exact junk_frame_wf|].
  destruct (C8_transform_total grey_ramp (decode (replicate (Z.to_nat 10003) 0xff))
              junk_frame (stream []) grey_ramp_length Himg junk_frame_wf)
    as ((fr & w' & E & _ & Ew) & _).
  exists fr, w'. split; [exact E|exact Ew].
Defined.

(** ** Negative saturation (C9) *)

Section Saturation.
Variables cos sin : spec_float -> spec_float.
Variable atof : string -> spec_float.
Variable files : string -> option (list Z).
Variable stdin : list Z.
Variable stack : frame.

(** X18: when the loop of [getargs] comes to a [-s] option whose value,
    once stored in the [float] [saturation], is less than 0, [main] ends
    with status 1 and the message on the error stream; nothing has been
    opened or read and standard output is empty. *)
Theorem X18_negative_float_rejected (cmd : cmdline) (pre rest : list getopt_ret)
    (optarg : string) (sat : spec_float) :
  options cmd = pre ++ Opt_s optarg :: rest ->
  getargs_options atof (argv0 cmd) (F32.of_double SATURATION) pre start
  = Return sat start ->
  F32.ltb (F32.of_double (atof optarg)) (F32.of_int 0) = true ->
  exists w,
    main cos sin atof files stdin stack cmd = Some (1, w) /\
    stderr w = [negative_saturation (argv0 cmd)] /\
    stdout w = [] /\ io_log w = [] /\ koalafile w = [].
Proof.
  intros Hopts Hpre Hneg.
  unfold main, getargs. rewrite Hopts, getargs_options_app, Hpre.
  cbn [getargs_options]. rewrite Hneg.
  eexists. split; [reflexivity|]. by repeat split.
Qed.
End Saturation.

Lemma X18_witness :
  options negative_cmd = [] ++ Opt_s "-1.0" :: [] /\
  getargs_options atof_sample (argv0 negative_cmd) (F32.of_double SATURATION) [] start
  = Return (F32.of_double SATURATION) start /\
  F32.ltb (F32.of_double (atof_sample "-1.0")) (F32.of_int 0) = true /\
  exists w,
    main cos_sample sin_sample atof_sample no_files only_load_address junk_frame
      negative_cmd = Some (1, w) /\
    stdout w = [].
Proof.
  split; [reflexivity|]. split; [reflexivity|]. split; [reflexivity|].
  destruct (X18_negative_float_rejected cos_sample sin_sample atof_sample no_files
              only_load_address junk_frame negative_cmd [] [] "-1.0"
              (F32.of_double SATURATION) eq_refl eq_refl eq_refl)
    as (w & E & _ & Hout & _).
  exists w. split; [exact E|exact Hout].
Defined.

(** C9: a negative saturation that the program accepts. The usage text
    asks for a value >= 0 and line 206 is there to refuse the others, but
    the test is made after the value has been narrowed to [float]: the
    negative [double] -2^-200, written [-0x1p-200], is below the range of
    [float] and is stored as -0.0, which is not less than 0. No error is
    reported; [main] goes on to read its input and writes the whole
    pixmap, with status 0. *)
Theorem C9_negative_accepted :
  SFltb (atof_tiny "-0x1p-200") (F64.of_int 0) = true /\
  F32.of_double (atof_tiny "-0x1p-200") = S754_zero true /\
  F32.ltb (S754_zero true) (F32.of_int 0) = false /\
  getargs atof_tiny tiny_cmd start = Return (S754_zero true, None) start /\
  exists w,
    main cos_sample sin_sample atof_tiny no_files only_load_address junk_frame tiny_cmd
    = Some (0, w) /\
    length (stdout w) = Z.to_nat 96015 /\
    io_log w <> [] /\
    stderr w = [too_short "c64koala2ppm"].
Proof.
  split; [reflexivity|]. split; [reflexivity|]. split; [reflexivity|].
  assert (Hargs : getargs atof_tiny tiny_cmd start = Return (S754_zero true, None) start)
    by reflexivity.
  split; [exact Hargs|].
  assert (Hpal : exists pal,
            init_colors cos_sample sin_sample (S754_zero true) = Some pal).
  { eexists. vm_compute. reflexivity. }
  destruct Hpal as [pal Hpal].
  destruct (main_run cos_sample sin_sample atof_tiny no_files only_load_address
              junk_frame tiny_cmd _ None start only_load_address pal
              Hargs eq_refl Hpal junk_frame_wf)
    as (w & calls & E & Hout & Hlog & Herr).
  exists w. split; [exact E|].
  destruct (pixmap_layout pal (decode only_load_address) (stdout w) Hout) as (Hlen & _).
  split; [exact Hlen|].
  rewrite decide_True in Herr by (vm_compute; lia).
  destruct Herr as (Herr & pre & size & -> & _).
  split; [|exact Herr].
  rewrite Hlog. cbn [app]. by destruct pre.
Qed.

(** ** Palette at saturation zero (C6) *)

(** A zero times a finite number is a zero, in any format. *)
Lemma SFmul_zero_l (prec emax : Z) (x y : spec_float) :
  is_zero x = true -> is_finite y = true -> is_zero (SFmul prec emax x y) = true.
Proof. by destruct x, y. Qed.

Lemma SFmul_zero_r (prec emax : Z) (x y : spec_float) :
  is_finite x = true -> is_zero y = true -> is_zero (SFmul prec emax x y) = true.
Proof. by destruct x, y. Qed.

Lemma of_float_zero (x : spec_float) :
  is_zero x = true -> is_zero (F64.of_float x) = true.
Proof. by destruct x. Qed.

Lemma of_double_zero (x : spec_float) :
  is_zero x = true -> is_zero (F32.of_double x) = true.
Proof. by destruct x. Qed.

Lemma is_zero_inv (x : spec_float) : is_zero x = true -> exists s, x = S754_zero s.
Proof. destruct x; try done. by eexists. Qed.

(** The hue angles are finite numbers. *)
Lemma hue_finite (c64 : c64_color) : c64 ∈ c64_colors -> is_finite (hue c64) = true.
Proof.
  intros H. unfold c64_colors in H.
  repeat (apply elem_of_cons in H as [->|H]; [by vm_compute|]).
  inversion H.
Qed.

(** With both chroma terms zero the three components are equal. *)
Lemma zero_chroma_grey (c64 : c64_color) (su sv : bool) :
  c64 ∈ c64_colors ->
  exists rgb,
    yuv_to_rgb {| yuv_y := F32.of_double (F64.div (F64.of_int (luma c64)) (F64.of_int 32));
                  yuv_u := S754_zero su; yuv_v := S754_zero sv |} = Some rgb /\
    grey rgb.
Proof.
  intros H. unfold c64_colors in H.
  repeat (apply elem_of_cons in H as [->|H];
          [destruct su, sv; eexists; (split; [vm_compute; reflexivity|by split])|]).
  inversion H.
Qed.

Lemma mapM_Forall {A B} (f : A -> option B) (P : B -> Prop) (l : list A) :
  (forall x, x ∈ l -> exists y, f x = Some y /\ P y) ->
  exists k, mapM f l = Some k /\ Forall P k.
Proof.
  induction l as [|x l IH]; intros H.
  - exists []. by split.
  - destruct (H x) as (y & Ey & Py); [left|].
    destruct IH as (k & Ek & Pk); [intros x' Hx'; apply H; by right|].
    exists (y :: k). simpl. rewrite Ey. simpl. rewrite Ek. simpl.
    split; [done|]. by constructor.
Qed.

Section Greys.
Variables cos sin : spec_float -> spec_float.
Hypothesis cos_finite : forall x, is_finite x = true -> is_finite (cos x) = true.
Hypothesis sin_finite : forall x, is_finite x = true -> is_finite (sin x) = true.

Lemma chroma_zero (sat : spec_float) (c64 : c64_color) (scale : spec_float)
    (f : spec_float -> spec_float) :
  (forall x, is_finite x = true -> is_finite (f x) = true) ->
  c64 ∈ c64_colors -> is_zero sat = true -> is_finite scale = true ->
  is_zero (chroma sat c64 scale f) = true.
Proof.
  intros Hf Hc Hsat Hscale. unfold chroma.
  apply of_double_zero, SFmul_zero_l; [|by apply Hf, hue_finite].
  apply of_float_zero, SFmul_zero_l; [|done].
  apply SFmul_zero_r; [|done].
  unfold c64_colors in Hc.
  repeat (apply elem_of_cons in Hc as [->|Hc]; [by vm_compute|]).
  inversion Hc.
Qed.

(** C6: with the global saturation zero (of either sign), for each of
    the sixteen colours the chroma terms u and v are zeros, and the
    palette [init_colors] builds has r = g = b in every entry. *)
Theorem C6_saturation_zero_greys (sat : spec_float) :
  is_zero sat = true ->
  (forall c64, c64 ∈ c64_colors ->
     is_zero (yuv_u (c64_to_yuv cos sin sat c64 (F32.of_double USCALE) (F32.of_double VSCALE)))
       = true /\
     is_zero (yuv_v (c64_to_yuv cos sin sat c64 (F32.of_double USCALE) (F32.of_double VSCALE)))
       = true /\
     exists rgb,
       c64_to_rgb cos sin sat c64 (F32.of_double USCALE) (F32.of_double VSCALE) = Some rgb /\
       r rgb = g rgb /\ g rgb = b rgb) /\
  exists pal,
    init_colors cos sin sat = Some pal /\ length pal = Z.to_nat 16 /\
    Forall (fun p => r p = g p /\ g p = b p) pal.
Proof.
  intros Hsat.
  assert (Hone : forall c64, c64 ∈ c64_colors ->
     is_zero (chroma sat c64 (F32.of_double USCALE) cos) = true /\
     is_zero (chroma sat c64 (F32.of_double VSCALE) sin) = true /\
     exists rgb,
       c64_to_rgb cos sin sat c64 (F32.of_double USCALE) (F32.of_double VSCALE) = Some rgb /\
       grey rgb).
  { intros c64 Hc.
    pose proof (chroma_zero sat c64 (F32.of_double USCALE) cos cos_finite Hc Hsat eq_refl) as Hu.
    pose proof (chroma_zero sat c64 (F32.of_double VSCALE) sin sin_finite Hc Hsat eq_refl) as Hv.
    split; [exact Hu|]. split; [exact Hv|].
    destruct (is_zero_inv _ Hu) as [su Eu], (is_zero_inv _ Hv) as [sv Ev].
    unfold c64_to_rgb, c64_to_yuv. rewrite Eu, Ev. by apply zero_chroma_grey. }
  split; [exact Hone|].
  destruct (mapM_Forall
              (fun c64 => c64_to_rgb cos sin sat c64 (F32.of_double USCALE) (F32.of_double VSCALE))
              grey c64_colors) as (pal & E & Hgrey).
  { intros c64 Hc. by destruct (Hone c64 Hc) as (_ & _ & H). }
  exists pal. split; [exact E|]. split; [|exact Hgrey].
  apply length_mapM in E. by rewrite <- E.
Qed.
End Greys.

Lemma trig_lookup_finite (x : spec_float) (table : list (spec_float * spec_float)) :
  Forall (fun kv => is_finite (snd kv) = true) table ->
  is_finite (trig_lookup x table) = true.
Proof.
  induction 1 as [|[k v] table Hv _ IH]; [done|].
  simpl. by destruct (SFeqb k x).
Qed.

Lemma cos_sample_finite (x : spec_float) :
  is_finite x = true -> is_finite (cos_sample x) = true.
Proof. intros _. apply trig_lookup_finite. vm_compute. by repeat constructor. Qed.

Lemma sin_sample_finite (x : spec_float) :
  is_finite x = true -> is_finite (sin_sample x) = true.
Proof. intros _. apply trig_lookup_finite. vm_compute. by repeat constructor. Qed.

Lemma C6_witness :
  (forall x, is_finite x = true -> is_finite (cos_sample x) = true) /\
  (forall x, is_finite x = true -> is_finite (sin_sample x) = true) /\
  is_zero (S754_zero false) = true /\
  exists pal,
    init_colors cos_sample sin_sample (S754_zero false) = Some pal /\
    Forall (fun p => r p = g p /\ g p = b p) pal.
Proof.
  split; [exact cos_sample_finite|]. split; [exact sin_sample_finite|].
  split; [reflexivity|].
  destruct (C6_saturation_zero_greys cos_sample sin_sample
              cos_sample_finite sin_sample_finite (S754_zero false) eq_refl)
    as (_ & pal & E & _ & Hgrey).
  exists pal. split; [exact E|exact Hgrey].
Defined.

(** ** Rounding *)

Lemma iter_pos_nat {A} (f : A -> A) (p : positive) (x : A) :
  @SpecFloat.iter_pos A f p x = Nat.iter (Pos.to_nat p) f x.
Proof.
  revert x. induction p as [p IH|p IH|]; intros x; cbn [SpecFloat.iter_pos].
  - rewrite !IH, Pos2Nat.inj_xI.
    replace (S (2 * Pos.to_nat p)) with (Pos.to_nat p + (Pos.to_nat p + 1))%nat by lia.
    rewrite !Nat.iter_add. reflexivity.
  - rewrite !IH, Pos2Nat.inj_xO.
    replace (2 * Pos.to_nat p)%nat with (Pos.to_nat p + Pos.to_nat p)%nat by lia.
    rewrite Nat.iter_add. reflexivity.
  - reflexivity.
Qed.

Lemma digits2_pos_size (p : positive) : digits2_pos p = Pos.size p.
Proof. induction p; simpl; congruence. Qed.

(** [Zdigits2 m] is the number of bits of a positive [m]. *)
Lemma Zdigits2_bounds (m : Z) :
  0 < m -> 2 ^ (Zdigits2 m - 1) <= m < 2 ^ Zdigits2 m.
Proof.
  destruct m as [|p|p]; try lia. intros _.
  change (Zdigits2 (Z.pos p)) with (Z.pos (digits2_pos p)). rewrite digits2_pos_size.
  pose proof (Pos.size_gt p) as Hgt. pose proof (Pos.size_le p) as Hle.
  apply Pos2Z.pos_lt_pos in Hgt. apply Pos2Z.pos_le_pos in Hle.
  rewrite Pos2Z.inj_pow in Hgt, Hle. rewrite (Pos2Z.inj_xO p) in Hle.
  split; [|exact Hgt].
  replace (Z.pos (Pos.size p)) with (Z.succ (Z.pos (Pos.size p) - 1)) in Hle by lia.
  rewrite Z.pow_succ_r in Hle by lia. lia.
Qed.

Lemma pow2_pos (a : Z) : 0 <= a -> 0 < 2 ^ a.
Proof. intros. apply Z.pow_pos_nonneg; lia. Qed.

Lemma pow2_add (a b : Z) : 0 <= a -> 0 <= b -> 2 ^ (a + b) = 2 ^ a * 2 ^ b.
Proof. intros. by apply Z.pow_add_r. Qed.

Lemma scaled_shift (L m e j : Z) :
  L <= e -> 0 <= j -> scaled L (m * 2 ^ j) e = scaled L m (e + j).
Proof.
  intros He Hj. unfold scaled.
  replace (e + j - L) with (j + (e - L)) by lia.
  rewrite pow2_add by lia. lia.
Qed.

Lemma scaled_le_cancel (L a b e : Z) :
  L <= e -> scaled L a e <= scaled L b e -> a <= b.
Proof.
  unfold scaled. intros He H. pose proof (pow2_pos (e - L) ltac:(lia)). nia.
Qed.

Lemma scaled_le_mono (L a b e : Z) :
  L <= e -> a <= b -> scaled L a e <= scaled L b e.
Proof.
  unfold scaled. intros He H. pose proof (pow2_pos (e - L) ltac:(lia)). nia.
Qed.

(** Dropping [j] low bits does not increase the value. *)
Lemma scaled_div_le (L m e j : Z) :
  L <= e -> 0 <= j -> 0 <= m -> scaled L (m / 2 ^ j) (e + j) <= scaled L m e.
Proof.
  intros He Hj Hm. rewrite <- scaled_shift by lia.
  apply scaled_le_mono; [done|].
  pose proof (pow2_pos j Hj). pose proof (Z.mul_div_le m (2 ^ j) ltac:(lia)). lia.
Qed.

(** A value below a bound has no more bits above the grid than the
    bound. *)
Lemma digits_le_of_scaled (L m e c k : Z) :
  L <= e -> L <= k -> 0 < m -> 0 < c ->
  scaled L m e <= scaled L c k ->
  Zdigits2 m + e <= Zdigits2 c + k.
Proof.
  intros He Hk Hm Hc H.
  pose proof (Zdigits2_bounds m Hm) as [Hlo _].
  pose proof (Zdigits2_bounds c Hc) as [_ Hhi].
  assert (Hdm : 0 < Zdigits2 m) by (destruct m; simpl; lia).
  assert (Hdc : 0 < Zdigits2 c) by (destruct c; simpl; lia).
  unfold scaled in H.
  pose proof (pow2_pos (e - L) ltac:(lia)). pose proof (pow2_pos (k - L) ltac:(lia)).
  assert (Hlt : 2 ^ (Zdigits2 m - 1 + (e - L)) < 2 ^ (Zdigits2 c + (k - L))).
  { rewrite !pow2_add by lia. nia. }
  apply Z.pow_lt_mono_r_iff in Hlt; lia.
Qed.

Lemma fexp_mono (prec emax a b : Z) : a <= b -> fexp prec emax a <= fexp prec emax b.
Proof. unfold fexp. lia. Qed.

(** *** Shifting right *)

Lemma shr_1_spec (m : Z) (r s : bool) :
  0 <= m ->
  shr_1 {| shr_m := m; shr_r := r; shr_s := s |}
  = {| shr_m := m / 2; shr_r := Z.odd m; shr_s := r || s |}.
Proof.
  intros Hm. destruct m as [|p|p]; [done| |lia].
  destruct p as [p|p|]; cbn [shr_1].
  - f_equal. rewrite Pos2Z.inj_xI. apply Z.div_unique with 1; lia.
  - f_equal. rewrite Pos2Z.inj_xO. apply Z.div_unique with 0; lia.
  - done.
Qed.

Lemma shr_iter_spec (k : nat) (m : Z) :
  0 <= m ->
  exists r s,
    Nat.iter k shr_1 {| shr_m := m; shr_r := false; shr_s := false |}
    = {| shr_m := m / 2 ^ Z.of_nat k; shr_r := r; shr_s := s |} /\
    (m mod 2 ^ Z.of_nat k = 0 -> r = false /\ s = false).
Proof.
  intros Hm. induction k as [|k (r & s & E & Hrs)].
  - exists false, false. simpl. by rewrite Z.div_1_r.
  - rewrite Nat.iter_succ, E.
    pose proof (pow2_pos (Z.of_nat k) ltac:(lia)) as Hp.
    rewrite shr_1_spec by (apply Z.div_pos; lia).
    eexists _, _. split.
    + f_equal. rewrite Z.div_div by lia.
      rewrite Nat2Z.inj_succ, Z.pow_succ_r by lia. f_equal. lia.
    + intros Hmod. rewrite Nat2Z.inj_succ, Z.pow_succ_r in Hmod by lia.
      assert (Hdiv : m = 2 * 2 ^ Z.of_nat k * (m / (2 * 2 ^ Z.of_nat k))).
      { pose proof (Z.div_mod m (2 * 2 ^ Z.of_nat k) ltac:(lia)). lia. }
      set (t := m / (2 * 2 ^ Z.of_nat k)) in *.
      assert (Hq : m / 2 ^ Z.of_nat k = 2 * t).
      { symmetry. apply Z.div_unique with 0; lia. }
      assert (Hm0 : m mod 2 ^ Z.of_nat k = 0).
      { symmetry. apply Z.mod_unique with (2 * t); lia. }
      destruct (Hrs Hm0) as [-> ->]. rewrite Hq. split; [|done].
      rewrite Z.odd_mul. done.
Qed.

(** Round to nearest, ties to even, of a truncated mantissa. *)
Lemma round_nearest_even_bounds (q : Z) (l : location) :
  q <= round_nearest_even q l <= q + 1.
Proof.
  destruct l as [|[]]; simpl; try lia. destruct (Z.even q); lia.
Qed.

(** [shr] on an exact mantissa: the quotient, and an exact location when
    nothing is lost. *)
Lemma shr_spec (m e n : Z) :
  0 <= m ->
  exists mrs,
    shr {| shr_m := m; shr_r := false; shr_s := false |} e n = (mrs, e + Z.max 0 n) /\
    shr_m mrs = m / 2 ^ Z.max 0 n /\
    (m mod 2 ^ Z.max 0 n = 0 -> loc_of_shr_record mrs = loc_Exact).
Proof.
  intros Hm. destruct n as [|p|p]; cbn [shr].
  - eexists. rewrite Z.add_0_r. split; [done|]. simpl. by rewrite Z.div_1_r.
  - rewrite iter_pos_nat.
    destruct (shr_iter_spec (Pos.to_nat p) m Hm) as (r & s & E & Hrs).
    rewrite positive_nat_Z in E, Hrs.
    rewrite E. replace (Z.max 0 (Z.pos p)) with (Z.pos p) by lia.
    eexists. split; [done|]. split; [done|].
    intros H. by destruct (Hrs H) as [-> ->].
  - eexists. replace (Z.max 0 (Z.neg p)) with 0 by lia. rewrite Z.add_0_r.
    split; [done|]. simpl. by rewrite Z.div_1_r.
Qed.

Lemma shr_fexp_spec (prec emax m e : Z) :
  0 <= m ->
  exists mrs,
    shr_fexp prec emax m e loc_Exact
    = (mrs, e + Z.max 0 (fexp prec emax (Zdigits2 m + e) - e)) /\
    shr_m mrs = m / 2 ^ Z.max 0 (fexp prec emax (Zdigits2 m + e) - e) /\
    (m mod 2 ^ Z.max 0 (fexp prec emax (Zdigits2 m + e) - e) = 0 ->
     loc_of_shr_record mrs = loc_Exact).
Proof. intros Hm. unfold shr_fexp. cbn [shr_record_of_loc]. by apply shr_spec. Qed.

(** Rounding to nearest does not cross a bound [c * 2^k] that is itself
    a number of the format. *)
Lemma round_aux_below (prec emax L M E c k : Z) :
  0 < M -> L <= E -> L <= k -> 0 < c ->
  scaled L M E <= scaled L c k ->
  fexp prec emax (Zdigits2 c + k) <= k ->
  Zdigits2 c + k - 1 <= emax - prec ->
  below L c k (binary_round_aux prec emax false M E loc_Exact).
Proof.
  intros HM HE Hk Hc Hle Hgrid Hmax.
  assert (HdM : 0 < Zdigits2 M) by (destruct M; simpl; lia).
  assert (Hdc : 0 < Zdigits2 c) by (destruct c; simpl; lia).
  pose proof (digits_le_of_scaled L M E c k HE Hk HM Hc Hle) as Hdig.
  unfold binary_round_aux.
  destruct (shr_fexp_spec prec emax M E ltac:(lia)) as (mrs1 & E1 & Hq1 & Hloc1).
  rewrite E1.
  set (t := fexp prec emax (Zdigits2 M + E)) in *.
  pose proof (fexp_mono prec emax _ _ Hdig) as Ht. fold t in Ht.
  remember (Z.max 0 (t - E)) as j eqn:Hj.
  set (m1 := round_nearest_even (shr_m mrs1) (loc_of_shr_record mrs1)).
  pose proof (pow2_pos j ltac:(lia)) as Hpj.
  assert (Hq0 : 0 <= M / 2 ^ j) by (apply Z.div_pos; lia).
  pose proof (round_nearest_even_bounds (shr_m mrs1) (loc_of_shr_record mrs1)) as Hrnd.
  fold m1 in Hrnd. rewrite Hq1 in Hrnd.
  assert (Hstage : scaled L m1 (E + j) <= scaled L c k /\ E + j <= emax - prec).
  { destruct (Z.le_gt_cases (t - E) 0) as [Hn|Hn].
    - assert (j = 0) as -> by lia.
      assert (m1 = M) as ->.
      { unfold m1. rewrite Hloc1 by (rewrite Z.pow_0_r; apply Z.mod_1_r).
        simpl. by rewrite Hq1, Z.pow_0_r, Z.div_1_r. }
      rewrite Z.add_0_r. split; [done|lia].
    - assert (j = t - E) as -> by lia.
      replace (E + (t - E)) with t by lia.
      split; [|lia].
      set (K := c * 2 ^ (k - t)).
      assert (HMK : M <= K * 2 ^ (t - E)).
      { apply (scaled_le_cancel L _ _ E HE).
        unfold K. rewrite <- Z.mul_assoc, <- pow2_add by lia.
        rewrite scaled_shift by lia.
        by replace (E + (k - t + (t - E))) with k by lia. }
      assert (Hm1K : m1 <= K).
      { assert (HqK : M / 2 ^ (t - E) <= K) by (apply Z.div_le_upper_bound; lia).
        destruct (Z.eq_dec (M / 2 ^ (t - E)) K) as [Heq|Hne]; [|lia].
        assert (M mod 2 ^ (t - E) = 0) as Hmod.
        { pose proof (Z.div_mod M (2 ^ (t - E)) ltac:(lia)).
          pose proof (Z.mod_pos_bound M (2 ^ (t - E)) ltac:(lia)). nia. }
        unfold m1. rewrite (Hloc1 Hmod). simpl. rewrite Hq1. lia. }
      transitivity (scaled L K t); [apply scaled_le_mono; lia|].
      unfold K. rewrite scaled_shift by lia. by replace (t + (k - t)) with k by lia. }
  destruct Hstage as [Hle1 Hmax1].
  destruct (shr_fexp_spec prec emax m1 (E + j) ltac:(lia)) as (mrs2 & E2 & Hq2 & _).
  rewrite E2, Hq2.
  set (t2 := fexp prec emax (Zdigits2 m1 + (E + j))) in *.
  remember (Z.max 0 (t2 - (E + j))) as j2 eqn:Hj2.
  pose proof (pow2_pos j2 ltac:(lia)) as Hpj2.
  pose proof (scaled_div_le L m1 (E + j) j2 ltac:(lia) ltac:(lia) ltac:(lia)) as Hdiv.
  destruct (m1 / 2 ^ j2) as [|m2|m2] eqn:Em2; [done| |].
  - assert (Hm1pos : 0 < m1).
    { destruct (Z.eq_dec m1 0) as [->|]; [|lia]. by rewrite Z.div_0_l in Em2 by lia. }
    pose proof (digits_le_of_scaled L m1 (E + j) c k ltac:(lia) Hk Hm1pos Hc Hle1) as Hdig2.
    pose proof (fexp_mono prec emax _ _ Hdig2) as Ht2. fold t2 in Ht2.
    assert (Hfin : E + j + j2 <= emax - prec) by lia.
    apply Z.leb_le in Hfin. rewrite Hfin. simpl.
    split; [done|]. split; [lia|]. lia.
  - pose proof (Z.div_pos m1 (2 ^ j2) ltac:(lia) ltac:(lia)). lia.
Qed.

(** *** Aligning and normalising *)

Lemma shl_align_spec (mx : positive) (ex ex' : Z) :
  snd (shl_align mx ex ex') = Z.min ex ex' /\
  Z.pos (fst (shl_align mx ex ex')) = Z.pos mx * 2 ^ (ex - Z.min ex ex').
Proof.
  unfold shl_align. destruct (ex' - ex) as [|d|d] eqn:Ed; cbn [fst snd].
  - replace (Z.min ex ex') with ex by lia. rewrite Z.sub_diag. lia.
  - replace (Z.min ex ex') with ex by lia. rewrite Z.sub_diag. lia.
  - replace (Z.min ex ex') with ex' by lia. split; [done|].
    change (Pos.iter xO mx d) with (shift_pos d mx).
    rewrite shift_pos_correct, Z.pow_pos_fold.
    replace (ex - ex') with (Z.pos d) by lia. lia.
Qed.

Lemma binary_round_below (prec emax L : Z) (m : positive) (e c k : Z) :
  L <= e -> L <= emin prec emax -> L <= k -> 0 < c ->
  scaled L (Z.pos m) e <= scaled L c k ->
  fexp prec emax (Zdigits2 c + k) <= k ->
  Zdigits2 c + k - 1 <= emax - prec ->
  below L c k (binary_round prec emax false m e).
Proof.
  intros He Hmin Hk Hc Hle Hgrid Hmax. unfold binary_round.
  pose proof (shl_align_spec m e (fexp prec emax (Z.pos (digits2_pos m) + e)))
    as [Hez Hmz].
  destruct (shl_align _ _ _) as [mz ez]. cbn [fst snd] in Hez, Hmz.
  assert (HLez : L <= ez) by (unfold fexp in Hez; lia).
  apply round_aux_below; try done.
  rewrite Hmz, scaled_shift by lia.
  by replace (ez + (e - Z.min e (fexp prec emax (Z.pos (digits2_pos m) + e))))
    with e by lia.
Qed.

(** *** The conversion to a byte *)

(** The mantissa and exponent of a valid [float]. *)
Lemma float_valid_bounds (m : positive) (e : Z) :
  F32.valid (S754_finite false m e) = true ->
  -149 <= e /\ Z.pos m < 16777216.
Proof.
  intros Hvalid.
  unfold F32.valid, valid_binary, bounded, canonical_mantissa in Hvalid.
  apply andb_prop in Hvalid as [Hcan _]. apply Z.eqb_eq in Hcan.
  change (Z.pos (digits2_pos m)) with (Zdigits2 (Z.pos m)) in Hcan.
  pose proof (Zdigits2_bounds (Z.pos m) ltac:(lia)) as [_ Hhi].
  unfold fexp, emin, F32.prec, F32.emax in Hcan.
  split; [lia|].
  eapply Z.lt_le_trans; [exact Hhi|].
  change 16777216 with (2 ^ 24). apply Z.pow_le_mono_r; lia.
Qed.

(** What the test [1 < x] of [BOUND] leaves. *)
Lemma float_not_above_1 (m : positive) (e : Z) :
  F32.ltb (F32.of_int 1) (S754_finite false m e) = false ->
  e < -23 \/ (e = -23 /\ Z.pos m <= 8388608).
Proof.
  change (F32.of_int 1) with (S754_finite false 8388608 (-23)).
  unfold F32.ltb, SFltb, SFcompare.
  destruct (Z.compare_spec (-23) e) as [He|Hlt|Hgt]; [|done|lia].
  change (Pos.compare_cont Eq 8388608 m) with (8388608 ?= m)%positive.
  destruct (Pos.compare_spec 8388608 m) as [Hm|Hlt|Hgt]; [|done|].
  - intros _. right. split; [exact (eq_sym He)|]. rewrite <- Hm. reflexivity.
  - intros _. right. split; [exact (eq_sym He)|].
    apply Pos2Z.pos_lt_pos in Hgt. apply Z.lt_le_incl, Hgt.
Qed.

(** A valid [float] that is not above 1. *)
Lemma float_le_1_scaled (L : Z) (m : positive) (e : Z) :
  L <= -149 ->
  F32.valid (S754_finite false m e) = true ->
  F32.ltb (F32.of_int 1) (S754_finite false m e) = false ->
  L <= e /\ scaled L (Z.pos m) e <= scaled L 1 0.
Proof.
  intros HL Hvalid Hle1.
  destruct (float_valid_bounds m e Hvalid) as [He Hm].
  split; [lia|]. unfold scaled. rewrite Z.mul_1_l.
  pose proof (pow2_pos (e - L) ltac:(lia)) as Hp.
  assert (He0 : e <= -23) by (destruct (float_not_above_1 m e Hle1); lia).
  replace (0 - L) with ((- e) + (e - L)) by lia. rewrite pow2_add by lia.
  apply Z.mul_le_mono_nonneg_r; [lia|].
  destruct (float_not_above_1 m e Hle1) as [Hlt|[-> Hm23]].
  - transitivity (2 ^ 24); [change (2 ^ 24) with 16777216; lia|].
    apply Z.pow_le_mono_r; lia.
  - exact Hm23.
Qed.

(** [255 * x] in [float], for a valid [x] between 0 and 1. *)
Lemma mul_255_below (L : Z) (m : positive) (e : Z) :
  L <= -200 ->
  F32.valid (S754_finite false m e) = true ->
  F32.ltb (F32.of_int 1) (S754_finite false m e) = false ->
  below L 255 0 (F32.mul (F32.of_int 255) (S754_finite false m e)).
Proof.
  intros HL Hvalid Hle1.
  destruct (float_le_1_scaled L m e ltac:(lia) Hvalid Hle1) as [He Hle].
  destruct (float_valid_bounds m e Hvalid) as [He149 _].
  change (F32.of_int 255) with (S754_finite false 16711680 (-16)).
  unfold F32.mul, SFmul. cbn [xorb].
  apply round_aux_below; try done; try lia.
  unfold scaled in *. rewrite Pos2Z.inj_mul.
  replace (Z.pos 16711680) with (255 * 2 ^ 16) by done.
  replace (e - L) with (16 + (-16 + e - L)) in Hle by lia.
  rewrite pow2_add in Hle by lia.
  pose proof (pow2_pos (-16 + e - L) ltac:(lia)). nia.
Qed.

Lemma of_float_below (L : Z) (p : spec_float) :
  L <= -1074 -> below L 255 0 p -> below L 255 0 (F64.of_float p).
Proof.
  intros HL Hp. destruct p as [s|s| |s m e]; try done.
  destruct Hp as (-> & He & Hle). unfold F64.of_float.
  apply binary_round_below;
    [lia | unfold emin, F64.prec, F64.emax; lia | lia | lia | done | done | done].
Qed.

Lemma half_eq : F64.lit 5 10 = S754_finite false (2 ^ 52) (-53).
Proof. vm_compute. reflexivity. Qed.

Lemma scaled_half (L : Z) : L <= -53 -> scaled L (2 ^ 52) (-53) = scaled L 1 (-1).
Proof.
  intros HL. unfold scaled.
  replace (-1 - L) with (52 + (-53 - L)) by lia. rewrite pow2_add by lia. lia.
Qed.

Lemma scaled_255 (L : Z) : L <= -1 -> scaled L 255 0 = scaled L 510 (-1).
Proof.
  intros HL. unfold scaled.
  replace (0 - L) with (1 + (-1 - L)) by lia. rewrite pow2_add by lia. lia.
Qed.

(** Adding 0.5 in [double] to a number that is at most 255. *)
Lemma add_half_below (L : Z) (q : spec_float) :
  L <= -1074 -> below L 255 0 q -> below L 511 (-1) (F64.add q (F64.lit 5 10)).
Proof.
  intros HL Hq. rewrite half_eq.
  assert (Hhalf : scaled L (2 ^ 52) (-53) <= scaled L 511 (-1)).
  { rewrite scaled_half by lia. apply scaled_le_mono; lia. }
  destruct q as [s|s| |s m e]; try done.
  - unfold F64.add, SFadd. split; [done|]. split; [lia|]. exact Hhalf.
  - destruct Hq as (-> & He & Hle).
    unfold F64.add, SFadd. cbn [cond_Zopp].
    pose proof (shl_align_spec m e (Z.min e (-53))) as [_ Hm].
    pose proof (shl_align_spec (2 ^ 52) (-53) (Z.min e (-53))) as [_ Hh].
    replace (Z.min e (Z.min e (-53))) with (Z.min e (-53)) in Hm by lia.
    replace (Z.min (-53) (Z.min e (-53))) with (Z.min e (-53)) in Hh by lia.
    set (ez := Z.min e (-53)) in *.
    set (a := fst (shl_align m e ez)) in *.
    set (h := fst (shl_align (2 ^ 52) (-53) ez)) in *.
    change (Z.pos a + Z.pos h) with (Z.pos (a + h)).
    unfold binary_normalize.
    apply binary_round_below;
      [lia | unfold emin, F64.prec, F64.emax; lia | lia | lia | | done | done].
    rewrite Pos2Z.inj_add. unfold scaled at 1. rewrite Z.mul_add_distr_r.
    fold (scaled L (Z.pos a) ez). fold (scaled L (Z.pos h) ez).
    rewrite Hm, Hh, !scaled_shift by lia.
    replace (ez + (e - ez)) with e by lia.
    replace (ez + (-53 - ez)) with (-53) by lia.
    change (Z.pos (2 ^ 52)) with (2 ^ 52).
    rewrite scaled_half by lia. rewrite scaled_255 in Hle by lia.
    unfold scaled in *. pose proof (pow2_pos (-1 - L) ltac:(lia)). lia.
Qed.

(** Truncation of a [double] that is at most 255.5. *)
Lemma double_to_int_below (L : Z) (x : spec_float) :
  L <= -1 -> below L 511 (-1) x ->
  exists z, double_to_int x = Some z /\ 0 <= z <= 255.
Proof.
  intros HL Hx. destruct x as [s|s| |s m e]; try done.
  - exists 0. by split.
  - destruct Hx as (-> & He & Hle). unfold double_to_int.
    set (a := match e with
              | Z.neg p => Z.pos m / 2 ^ Z.pos p
              | _ => Z.pos m * 2 ^ e
              end).
    assert (Ha : 0 <= a <= 255).
    { unfold scaled in Hle.
      pose proof (pow2_pos (-1 - L) ltac:(lia)) as Hp.
      destruct (Z.le_gt_cases 0 e) as [He0|He0].
      - assert (a = Z.pos m * 2 ^ e) as -> by (subst a; destruct e; lia).
        replace (e - L) with (e + 1 + (-1 - L)) in Hle by lia.
        rewrite pow2_add in Hle by lia. rewrite Z.pow_add_r, Z.pow_1_r in Hle by lia.
        pose proof (pow2_pos e He0). nia.
      - assert (a = Z.pos m / 2 ^ (- e)) as -> by (subst a; destruct e; try lia; done).
        replace (-1 - L) with ((-1 - e) + (e - L)) in Hle by lia.
        rewrite pow2_add in Hle by lia.
        pose proof (pow2_pos (e - L) ltac:(lia)).
        pose proof (pow2_pos (-1 - e) ltac:(lia)) as Hq.
        assert (Hm : Z.pos m <= 511 * 2 ^ (-1 - e)) by nia.
        replace (- e) with (1 + (-1 - e)) by lia. rewrite pow2_add by lia.
        rewrite Z.pow_1_r. split; [apply Z.div_pos; lia|].
        apply Z.lt_succ_r. apply Z.div_lt_upper_bound; lia. }
    exists a. split; [|exact Ha].
    assert (Hmin : (INT_MIN <=? a) = true) by (apply Z.leb_le; unfold INT_MIN; lia).
    assert (Hmax : (a <=? INT_MAX) = true) by (apply Z.leb_le; unfold INT_MAX; lia).
    by rewrite Hmin, Hmax.
Qed.

(** *** Rounded numbers are numbers of the format *)

Lemma Zdigits2_unique (x d : Z) :
  0 < x -> 2 ^ (d - 1) <= x < 2 ^ d -> Zdigits2 x = d.
Proof.
  intros Hx [Hlo Hhi].
  pose proof (Zdigits2_bounds x Hx) as [Hlo' Hhi'].
  assert (Hdx : 0 < Zdigits2 x) by (destruct x; simpl; lia).
  assert (Hd : 0 < d).
  { destruct (Z.le_gt_cases d 0) as [Hd|]; [|done].
    destruct (Z.eq_dec d 0) as [->|]; [simpl in Hhi; lia|].
    rewrite (Z.pow_neg_r 2 d) in Hhi by lia. lia. }
  assert (H1 : 2 ^ (d - 1) < 2 ^ Zdigits2 x) by lia.
  assert (H2 : 2 ^ (Zdigits2 x - 1) < 2 ^ d) by lia.
  apply Z.pow_lt_mono_r_iff in H1; [|lia..].
  apply Z.pow_lt_mono_r_iff in H2; lia.
Qed.

Lemma Zdigits2_div (m j : Z) :
  0 <= j -> 0 < m / 2 ^ j -> Zdigits2 (m / 2 ^ j) = Zdigits2 m - j.
Proof.
  intros Hj Hq.
  pose proof (pow2_pos j Hj) as Hp.
  assert (Hm : 0 < m).
  { destruct (Z.le_gt_cases m 0) as [Hm|]; [|done].
    pose proof (Z.div_le_upper_bound m (2 ^ j) 0 Hp ltac:(lia)). lia. }
  pose proof (Zdigits2_bounds m Hm) as [Hlo Hhi].
  pose proof (Z.mul_div_le m (2 ^ j) Hp) as Hle.
  pose proof (Z.mul_succ_div_gt m (2 ^ j) Hp) as Hgt.
  assert (Hdj : j < Zdigits2 m).
  { destruct (Z.le_gt_cases (Zdigits2 m) j) as [Hge|]; [|done].
    assert (2 ^ Zdigits2 m <= 2 ^ j) by (apply Z.pow_le_mono_r; lia). nia. }
  apply Zdigits2_unique; [done|].
  replace (Zdigits2 m) with (Zdigits2 m - j + j) in Hhi by lia.
  replace (Zdigits2 m - 1) with (Zdigits2 m - j - 1 + j) in Hlo by lia.
  rewrite pow2_add in Hhi, Hlo by lia.
  split.
  - apply Z.div_le_lower_bound; lia.
  - apply Z.div_lt_upper_bound; lia.
Qed.

Lemma Zdigits2_mono (a b : Z) : 0 < a -> a <= b -> Zdigits2 a <= Zdigits2 b.
Proof.
  intros Ha Hab.
  pose proof (Zdigits2_bounds a Ha) as [Hlo _].
  pose proof (Zdigits2_bounds b ltac:(lia)) as [_ Hhi].
  assert (Hdb : 0 < Zdigits2 b) by (destruct b; simpl; lia).
  assert (H : 2 ^ (Zdigits2 a - 1) < 2 ^ Zdigits2 b) by lia.
  apply Z.pow_lt_mono_r_iff in H; lia.
Qed.

(** A mantissa whose exponent is not above the one the format asks for
    comes out of [shr_fexp] at exactly that exponent. *)
Lemma shr_fexp_canonical (prec emax m e : Z) :
  0 <= m -> e <= fexp prec emax (Zdigits2 m + e) ->
  exists mrs e',
    shr_fexp prec emax m e loc_Exact = (mrs, e') /\
    0 <= shr_m mrs /\
    (0 < shr_m mrs -> fexp prec emax (Zdigits2 (shr_m mrs) + e') = e').
Proof.
  intros Hm He.
  destruct (shr_fexp_spec prec emax m e Hm) as (mrs & E & Hq & _).
  set (t := fexp prec emax (Zdigits2 m + e)) in *.
  replace (Z.max 0 (t - e)) with (t - e) in * by lia.
  replace (e + (t - e)) with t in E by lia.
  exists mrs, t. split; [done|]. rewrite Hq.
  pose proof (pow2_pos (t - e) ltac:(lia)).
  split; [apply Z.div_pos; lia|].
  intros Hpos. rewrite Zdigits2_div by lia.
  by replace (Zdigits2 m - (t - e) + t) with (Zdigits2 m + e) by lia.
Qed.

Lemma binary_round_aux_valid (prec emax : Z) (s : bool) (M E : Z) :
  0 < prec -> 0 < M -> E <= fexp prec emax (Zdigits2 M + E) ->
  valid_binary prec emax (binary_round_aux prec emax s M E loc_Exact) = true.
Proof.
  intros Hprec HM HE. unfold binary_round_aux.
  destruct (shr_fexp_spec prec emax M E ltac:(lia)) as (mrs1 & E1 & Hq1 & _).
  rewrite E1.
  set (t := fexp prec emax (Zdigits2 M + E)) in *.
  replace (Z.max 0 (t - E)) with (t - E) in * by lia.
  replace (E + (t - E)) with t by lia.
  set (m1 := round_nearest_even (shr_m mrs1) (loc_of_shr_record mrs1)).
  pose proof (round_nearest_even_bounds (shr_m mrs1) (loc_of_shr_record mrs1)) as Hrnd.
  fold m1 in Hrnd. rewrite Hq1 in Hrnd.
  pose proof (pow2_pos (t - E) ltac:(lia)) as Hp.
  assert (Hq0 : 0 <= M / 2 ^ (t - E)) by (apply Z.div_pos; lia).
  assert (Hpre : 0 < m1 -> t <= fexp prec emax (Zdigits2 m1 + t)).
  { intros Hm1. unfold fexp in *.
    destruct (Z.eq_dec t (emin prec emax)) as [->|Hne]; [lia|].
    assert (Ht : t = Zdigits2 M + E - prec) by (subst t; lia).
    assert (Hqpos : 0 < M / 2 ^ (t - E)).
    { apply Z.div_str_pos. split; [lia|].
      pose proof (Zdigits2_bounds M HM) as [Hlo _].
      eapply Z.le_trans; [|exact Hlo]. apply Z.pow_le_mono_r; lia. }
    pose proof (Zdigits2_div M (t - E) ltac:(lia) Hqpos) as Hdq.
    pose proof (Zdigits2_mono _ m1 Hqpos ltac:(lia)). lia. }
  destruct (Z.eq_dec m1 0) as [Hz|Hnz].
  - rewrite Hz. unfold shr_fexp. cbn [Zdigits2 shr_record_of_loc].
    destruct (shr_spec 0 t (fexp prec emax (0 + t) - t) ltac:(lia)) as (mrs2 & E2 & Hq2 & _).
    rewrite E2, Hq2, Z.div_0_l; [done|].
    apply Z.pow_nonzero; lia.
  - destruct (shr_fexp_canonical prec emax m1 t ltac:(lia) (Hpre ltac:(lia)))
      as (mrs2 & e2 & E2 & Hm2 & Hcan).
    rewrite E2. destruct (shr_m mrs2) as [|m2|m2]; [done| |lia].
    destruct (Z.leb_spec e2 (emax - prec)) as [Hle|Hgt]; [|done].
    unfold valid_binary, bounded, canonical_mantissa.
    change (Z.pos (digits2_pos m2)) with (Zdigits2 (Z.pos m2)).
    rewrite (Hcan ltac:(lia)), Z.eqb_refl. simpl. by apply Z.leb_le.
Qed.

Lemma binary_round_valid (prec emax : Z) (s : bool) (m : positive) (e : Z) :
  0 < prec -> valid_binary prec emax (binary_round prec emax s m e) = true.
Proof.
  intros Hprec. unfold binary_round.
  pose proof (shl_align_spec m e (fexp prec emax (Z.pos (digits2_pos m) + e)))
    as [Hez Hmz].
  change (Z.pos (digits2_pos m)) with (Zdigits2 (Z.pos m)) in *.
  destruct (shl_align _ _ _) as [mz ez]. cbn [fst snd] in Hez, Hmz.
  apply binary_round_aux_valid; [done|lia|].
  set (t := fexp prec emax (Zdigits2 (Z.pos m) + e)) in *.
  destruct (Z.le_gt_cases e t) as [Hle|Hgt].
  - assert (ez = e) as -> by lia.
    assert (Z.pos mz = Z.pos m) as ->; [|done].
    rewrite Hmz. replace (e - Z.min e t) with 0 by lia. lia.
  - assert (ez = t) as -> by lia.
    replace (Z.min e t) with t in Hmz by lia.
    assert (Hd : Zdigits2 (Z.pos mz) = Zdigits2 (Z.pos m) + (e - t)).
    { apply Zdigits2_unique; [lia|].
      pose proof (Zdigits2_bounds (Z.pos m) ltac:(lia)) as [Hlo Hhi].
      assert (Hdm : 0 < Zdigits2 (Z.pos m)) by (simpl; lia).
      pose proof (pow2_pos (e - t) ltac:(lia)).
      rewrite Hmz.
      replace (Zdigits2 (Z.pos m) + (e - t) - 1) with (Zdigits2 (Z.pos m) - 1 + (e - t)) by lia.
      rewrite !pow2_add by lia. nia. }
    rewrite Hd. replace (Zdigits2 (Z.pos m) + (e - t) + t) with (Zdigits2 (Z.pos m) + e) by lia.
    subst t. lia.
Qed.

(** Every value a [double] expression leaves in a [float] is a number of
    the [float] format. *)
Lemma of_double_valid (d : spec_float) : F32.valid (F32.of_double d) = true.
Proof.
  destruct d as [s|s| |s m e]; try done.
  unfold F32.of_double, F32.valid. by apply binary_round_valid.
Qed.

(** ** Clamping and conversion to bytes (C7) *)

Lemma BOUND_cases (x : spec_float) :
  BOUND x = F32.of_int 0 \/ BOUND x = F32.of_int 1 \/
  (BOUND x = x /\ F32.ltb x (F32.of_int 0) = false /\
   F32.ltb (F32.of_int 1) x = false).
Proof.
  unfold BOUND.
  destruct (F32.ltb x (F32.of_int 0)) eqn:E0; [by left|].
  destruct (F32.ltb (F32.of_int 1) x) eqn:E1; [by right; left|].
  by right; right.
Qed.

(** A number that passes both tests of [BOUND] is between 0 and 1. *)
Lemma unit_interval (x : spec_float) :
  is_nan x = false ->
  F32.ltb x (F32.of_int 0) = false -> F32.ltb (F32.of_int 1) x = false ->
  SFleb (F32.of_int 0) x = true /\ SFleb x (F32.of_int 1) = true.
Proof.
  intros Hnan H0 H1. destruct x as [s|s| |s m e]; try done.
  - destruct s; [vm_compute in H0|vm_compute in H1]; discriminate.
  - destruct s; [vm_compute in H0; discriminate|]. split; [done|].
    destruct (float_not_above_1 m e H1) as [Hlt|[-> Hm]].
    + change (F32.of_int 1) with (S754_finite false 8388608 (-23)).
      unfold SFleb, SFcompare. apply Z.compare_lt_iff in Hlt. by rewrite Hlt.
    + change (F32.of_int 1) with (S754_finite false 8388608 (-23)).
      unfold SFleb, SFcompare. rewrite Z.compare_refl.
      destruct (Pos.compare_cont Eq m 8388608) eqn:E; [reflexivity|reflexivity|].
      exfalso. apply Hm. exact E.
Qed.

(** The byte of a [float] between 0 and 1. *)
Lemma to_byte_unit (x : spec_float) :
  F32.valid x = true -> is_nan x = false ->
  F32.ltb x (F32.of_int 0) = false -> F32.ltb (F32.of_int 1) x = false ->
  exists z, to_byte x = Some z /\ 0 <= z <= 255.
Proof.
  intros Hvalid Hnan H0 H1. destruct x as [s|s| |s m e]; try done.
  - exists 0. by destruct s.
  - destruct s; [vm_compute in H0|vm_compute in H1]; discriminate.
  - destruct s; [vm_compute in H0; discriminate|]. unfold to_byte.
    apply (double_to_int_below (-1100)); [lia|].
    apply add_half_below; [lia|]. apply of_float_below; [lia|].
    apply mul_255_below; [lia|done..].
Qed.

Lemma to_byte_BOUND (x : spec_float) :
  F32.valid x = true -> is_nan x = false ->
  SFleb (F32.of_int 0) (BOUND x) = true /\
  SFleb (BOUND x) (F32.of_int 1) = true /\
  exists z, to_byte (BOUND x) = Some z /\ 0 <= z <= 255.
Proof.
  intros Hvalid Hnan.
  destruct (BOUND_cases x) as [->|[->|(-> & H0 & H1)]].
  - split; [done|]. split; [done|]. exists 0. by vm_compute.
  - split; [done|]. split; [done|]. exists 255. by vm_compute.
  - destruct (unit_interval x Hnan H0 H1) as [Hlo Hhi].
    split; [done|]. split; [done|]. by apply to_byte_unit.
Qed.

(** C7: a palette component that is not clamped. [BOUND] is there to
    bring every linear value between 0 and 1 before the conversion, but it
    has no case for a NaN: both of its comparisons are false on one and the
    value goes on as it is to [255*x + 0.5], whose conversion to [int] is
    undefined. The value comes from the command line: [-s 1e39] is a
    number >= 0, it is stored in the [float] saturation as +infinity,
    the test of line 206 lets it through, and for black, whose saturation
    in the table is 0, the chroma is 0 times infinity, a NaN, whatever
    [cos] and [sin] return. No palette is stored and the run of [main] is
    undefined on every input. *)
Theorem C7_nan_past_BOUND (cos sin : spec_float -> spec_float)
    (files : string -> option (list Z)) (stdin : list Z) (stack : frame) :
  SFleb (F64.of_int 0) (atof_huge "1e39") = true /\
  F32.of_double (atof_huge "1e39") = S754_infinity false /\
  F32.ltb (S754_infinity false) (F32.of_int 0) = false /\
  getargs atof_huge huge_cmd start = Return (S754_infinity false, None) start /\
  yuv_u (c64_to_yuv cos sin (S754_infinity false)
           {| angle := 0; luma := 0; saturation := 0 |}
           (F32.of_double USCALE) (F32.of_double VSCALE)) = S754_nan /\
  linear_b (c64_to_yuv cos sin (S754_infinity false)
              {| angle := 0; luma := 0; saturation := 0 |}
              (F32.of_double USCALE) (F32.of_double VSCALE)) = S754_nan /\
  BOUND S754_nan = S754_nan /\
  to_byte (BOUND S754_nan) = None /\
  init_colors cos sin (S754_infinity false) = None /\
  main cos sin atof_huge files stdin stack huge_cmd = None.
Proof.
  assert (Hpal : init_colors cos sin (S754_infinity false) = None)
    by (vm_compute; reflexivity).
  do 8 (split; [vm_compute; reflexivity|]).
  split; [exact Hpal|].
  unfold main.
  change (getargs atof_huge huge_cmd start)
    with (Return (A := spec_float * option string) (S754_infinity false, None) start).
  cbn beta iota. rewrite Hpal. reflexivity.
Qed.

(** ** The command line: options and operands (X1 to X8) *)

Section CommandLine.
Variables cos sin : spec_float -> spec_float.
Variable atof : string -> spec_float.
Variable files : string -> option (list Z).
Variable stdin : list Z.
Variable stack : frame.

(** Accepted options leave the streams alone and only set the
    saturation. *)
Lemma getargs_options_accepted (a0 : string) (opts : list getopt_ret) :
  forall (sat : spec_float) (w : world),
    forallb (accepted atof) opts = true ->
    exists sat', getargs_options atof a0 sat opts w = Return sat' w.
Proof.
  induction opts as [|o opts IH]; intros sat w H; [by eexists|].
  apply andb_prop in H as [Ho H]. destruct o; try done.
  cbn [getargs_options]. cbn [accepted] in Ho. apply negb_true_iff in Ho.
  rewrite Ho. by apply IH.
Qed.

(** When [getargs] returns, it has written nothing. *)
Lemma getargs_options_Return (a0 : string) (opts : list getopt_ret) :
  forall (sat sat' : spec_float) (w w' : world),
    getargs_options atof a0 sat opts w = Return sat' w' -> w' = w.
Proof.
  induction opts as [|o opts IH]; intros sat sat' w w' H.
  - by injection H.
  - destruct o; try done. cbn [getargs_options] in H.
    destruct (F32.ltb _ _); [done|]. by eapply IH.
Qed.

Lemma getargs_Return (cmd : cmdline) (w w' : world) (x : spec_float * option string) :
  getargs atof cmd w = Return x w' -> w' = w.
Proof.
  unfold getargs.
  destruct (getargs_options _ _ _ _ _) as [st w1|sat w1] eqn:E; [done|].
  apply getargs_options_Return in E as ->.
  destruct (operands cmd) as [|name [|name' rest]]; intros H; try done;
    by injection H.
Qed.

(** [getargs] ends the process with status 0 or 1 only. *)
Lemma getargs_options_Exit (a0 : string) (opts : list getopt_ret) :
  forall (sat : spec_float) (w w' : world) (st : Z),
    getargs_options atof a0 sat opts w = Exit st w' -> st = 0 \/ st = 1.
Proof.
  induction opts as [|o opts IH]; intros sat w w' st H; [done|].
  destruct o; cbn [getargs_options] in H.
  - injection H as <- _. by left.
  - injection H as <- _. by left.
  - destruct (F32.ltb _ _); [injection H as <- _; by right|by eapply IH].
  - injection H as <- _. by right.
Qed.

Lemma getargs_Exit (cmd : cmdline) (w w' : world) (st : Z) :
  getargs atof cmd w = Exit st w' -> st = 0 \/ st = 1.
Proof.
  unfold getargs.
  destruct (getargs_options _ _ _ _ _) as [st1 w1|sat w1] eqn:E.
  - intros H. injection H as <- _. by eapply getargs_options_Exit.
  - destruct (operands cmd) as [|name [|name' rest]]; intros H; try done.
    injection H as <- _. by right.
Qed.

(** X1: when [getopt] comes to [-h] after options that were all accepted,
    the run ends with status 0 and the usage text, with the program's
    name in it, as the only message on the error stream; whatever follows
    on the command line is not looked at, no input is opened or read and
    nothing is written to standard output. *)
Theorem X1_help_option (cmd : cmdline) (pre rest : list getopt_ret) :
  options cmd = pre ++ Opt_h :: rest ->
  forallb (accepted atof) pre = true ->
  exists w,
    main cos sin atof files stdin stack cmd = Some (0, w) /\
    stderr w = [usage_text (argv0 cmd)] /\
    stdout w = [] /\ io_log w = [].
Proof.
  intros Hopts Hpre.
  destruct (getargs_options_accepted (argv0 cmd) pre (F32.of_double SATURATION)
              start Hpre) as [sat E].
  unfold main, getargs. rewrite Hopts, getargs_options_app, E.
  cbn [getargs_options]. eexists. split; [reflexivity|]. by repeat split.
Qed.

(** X2: when [getopt] comes to [-L] after options that were all accepted,
    the run ends with status 0 and the licence text as the only message on
    the error stream; no input is opened or read and nothing is written
    to standard output. *)
Theorem X2_license_option (cmd : cmdline) (pre rest : list getopt_ret) :
  options cmd = pre ++ Opt_L :: rest ->
  forallb (accepted atof) pre = true ->
  exists w,
    main cos sin atof files stdin stack cmd = Some (0, w) /\
    stderr w = [license_text] /\
    stdout w = [] /\ io_log w = [].
Proof.
  intros Hopts Hpre.
  destruct (getargs_options_accepted (argv0 cmd) pre (F32.of_double SATURATION)
              start Hpre) as [sat E].
  unfold main, getargs. rewrite Hopts, getargs_options_app, E.
  cbn [getargs_options]. eexists. split; [reflexivity|]. by repeat split.
Qed.

(** X3: when [getopt] rejects an option (it returns ['?'] after its own
    diagnostic) after options that were all accepted, the run ends with
    status 1; the error stream holds the diagnostic followed by the usage
    text, no input is opened or read and nothing is written to standard
    output. *)
Theorem X3_unknown_option (cmd : cmdline) (pre rest : list getopt_ret)
    (diagnostic : string) :
  options cmd = pre ++ Opt_unknown diagnostic :: rest ->
  forallb (accepted atof) pre = true ->
  exists w,
    main cos sin atof files stdin stack cmd = Some (1, w) /\
    stderr w = [diagnostic; usage_text (argv0 cmd)] /\
    stdout w = [] /\ io_log w = [].
Proof.
  intros Hopts Hpre.
  destruct (getargs_options_accepted (argv0 cmd) pre (F32.of_double SATURATION)
              start Hpre) as [sat E].
  unfold main, getargs. rewrite Hopts, getargs_options_app, E.
  cbn [getargs_options]. eexists. split; [reflexivity|]. by repeat split.
Qed.

(** X4: with every option accepted and two or more operands left, the run
    ends with status 1; the error stream holds the complaint about too
    many filenames followed by the usage text, none of the files is
    opened and nothing is written to standard output. *)
Theorem X4_too_many_filenames (cmd : cmdline) :
  forallb (accepted atof) (options cmd) = true ->
  (2 <= length (operands cmd))%nat ->
  exists w,
    main cos sin atof files stdin stack cmd = Some (1, w) /\
    stderr w = [too_many_filenames (argv0 cmd); usage_text (argv0 cmd)] /\
    stdout w = [] /\ io_log w = [].
Proof.
  intros Hopts Hlen.
  destruct (getargs_options_accepted (argv0 cmd) (options cmd)
              (F32.of_double SATURATION) start Hopts) as [sat E].
  unfold main, getargs. rewrite E.
  destruct (operands cmd) as [|name [|name' rest]]; simpl in Hlen; [lia..|].
  eexists. split; [reflexivity|]. by repeat split.
Qed.

(** X5: with every option accepted and one operand, other than [-],
    that names a file which cannot be opened, [main] returns -1 after the
    one call of [fopen]; the error stream holds the message that names the
    file, nothing is read and nothing is written to standard output. The
    palette is not computed on this path, so this holds for every
    saturation. *)
Theorem X5_cannot_open (cmd : cmdline) (name : string) :
  forallb (accepted atof) (options cmd) = true ->
  operands cmd = [name] -> name <> "-" -> files name = None ->
  exists w,
    main cos sin atof files stdin stack cmd = Some (-1, w) /\
    stderr w = [cannot_open (argv0 cmd) name] /\
    stdout w = [] /\ io_log w = [Fopen name false].
Proof.
  intros Hopts Hops Hname Hfile.
  destruct (getargs_options_accepted (argv0 cmd) (options cmd)
              (F32.of_double SATURATION) start Hopts) as [sat E].
  unfold main, getargs. rewrite E, Hops.
  rewrite decide_False by done. unfold fopen. rewrite Hfile.
  eexists. split; [reflexivity|]. by repeat split.
Qed.

(** X6: the operand [-] stands for standard input: the run is the one of
    the same command line with no operand, and the file system is not
    consulted. *)
Theorem X6_dash_is_stdin (a0 : string) (opts : list getopt_ret)
    (files' : string -> option (list Z)) :
  main cos sin atof files stdin stack
    {| argv0 := a0; options := opts; operands := ["-"] |}
  = main cos sin atof files' stdin stack
      {| argv0 := a0; options := opts; operands := [] |}.
Proof.
  unfold main, getargs. cbn [argv0 options operands].
  destruct (getargs_options atof a0 (F32.of_double SATURATION) opts start)
    as [st w|sat w]; [done|].
  by rewrite decide_True.
Qed.

(** X7: a later [-s] overrides the accepted options before it: the run
    is the one of the command line without them. *)
Theorem X7_last_saturation_wins (a0 : string) (pre rest : list getopt_ret)
    (optarg : string) (ops : list string) :
  forallb (accepted atof) pre = true ->
  main cos sin atof files stdin stack
    {| argv0 := a0; options := pre ++ Opt_s optarg :: rest; operands := ops |}
  = main cos sin atof files stdin stack
      {| argv0 := a0; options := Opt_s optarg :: rest; operands := ops |}.
Proof.
  intros Hpre.
  destruct (getargs_options_accepted a0 pre (F32.of_double SATURATION) start Hpre)
    as [sat E].
  unfold main, getargs. cbn [argv0 options operands].
  by rewrite getargs_options_app, E.
Qed.

(** X8: the saturation is 1 unless [-s] sets it: a leading [-s] whose
    value [atof] reads as 1.0 changes nothing. *)
Theorem X8_default_saturation (a0 : string) (rest : list getopt_ret)
    (optarg : string) (ops : list string) :
  atof optarg = SATURATION ->
  main cos sin atof files stdin stack
    {| argv0 := a0; options := Opt_s optarg :: rest; operands := ops |}
  = main cos sin atof files stdin stack
      {| argv0 := a0; options := rest; operands := ops |}.
Proof.
  intros Hone. unfold main, getargs. cbn [argv0 options operands getargs_options].
  by rewrite Hone.
Qed.
End CommandLine.

Lemma X1_witness :
  options help_cmd = [Opt_s "0.5"] ++ Opt_h :: [] /\
  forallb (accepted atof_sample) [Opt_s "0.5"] = true /\
  exists w,
    main cos_sample sin_sample atof_sample no_files [] junk_frame help_cmd = Some (0, w) /\
    stdout w = [].
Proof.
  split; [reflexivity|]. split; [reflexivity|].
  destruct (X1_help_option cos_sample sin_sample atof_sample no_files [] junk_frame
              help_cmd [Opt_s "0.5"] [] eq_refl eq_refl) as (w & E & _ & Hout & _).
  exists w. split; [exact E|exact Hout].
Defined.

Lemma X2_witness :
  options license_cmd
  = [Opt_s "0.5"] ++ Opt_L :: [Opt_unknown "c64koala2ppm: invalid option -- 'x'"] /\
  forallb (accepted atof_sample) [Opt_s "0.5"] = true /\
  exists w,
    main cos_sample sin_sample atof_sample no_files [] junk_frame license_cmd = Some (0, w) /\
    stderr w = [license_text].
Proof.
  split; [reflexivity|]. split; [reflexivity|].
  destruct (X2_license_option cos_sample sin_sample atof_sample no_files [] junk_frame
              license_cmd [Opt_s "0.5"] _ eq_refl eq_refl) as (w & E & Herr & _).
  exists w. split; [exact E|exact Herr].
Defined.

Lemma X3_witness :
  options unknown_cmd
  = [] ++ Opt_unknown "c64koala2ppm: invalid option -- 'x'" :: [Opt_h] /\
  forallb (accepted atof_sample) [] = true /\
  exists w,
    main cos_sample sin_sample atof_sample no_files [] junk_frame unknown_cmd = Some (1, w) /\
    stdout w = [].
Proof.
  split; [reflexivity|]. split; [reflexivity|].
  destruct (X3_unknown_option cos_sample sin_sample atof_sample no_files [] junk_frame
              unknown_cmd [] [Opt_h] _ eq_refl eq_refl) as (w & E & _ & Hout & _).
  exists w. split; [exact E|exact Hout].
Defined.

Lemma X4_witness :
  forallb (accepted atof_sample) (options two_files_cmd) = true /\
  (2 <= length (operands two_files_cmd))%nat /\
  exists w,
    main cos_sample sin_sample atof_sample no_files [] junk_frame two_files_cmd
    = Some (1, w) /\
    io_log w = [].
Proof.
  split; [reflexivity|]. split; [apply le_n|].
  destruct (X4_too_many_filenames cos_sample sin_sample atof_sample no_files []
              junk_frame two_files_cmd eq_refl (le_n 2)) as (w & E & _ & _ & Hlog).
  exists w. split; [exact E|exact Hlog].
Defined.

Lemma X5_witness :
  forallb (accepted atof_sample) (options one_file_cmd) = true /\
  operands one_file_cmd = ["a.koa"] /\ "a.koa" <> "-" /\ no_files "a.koa" = None /\
  exists w,
    main cos_sample sin_sample atof_sample no_files [] junk_frame one_file_cmd
    = Some (-1, w) /\
    stdout w = [].
Proof.
  assert (Hname : "a.koa" <> "-") by discriminate.
  split; [reflexivity|]. split; [reflexivity|]. split; [exact Hname|].
  split; [reflexivity|].
  destruct (X5_cannot_open cos_sample sin_sample atof_sample no_files []
              junk_frame one_file_cmd "a.koa" eq_refl eq_refl Hname eq_refl)
    as (w & E & _ & Hout & _).
  exists w. split; [exact E|exact Hout].
Defined.

Lemma X7_witness :
  forallb (accepted atof_sample) [Opt_s "0.5"] = true /\
  main cos_sample sin_sample atof_sample no_files [] junk_frame twice_cmd
  = main cos_sample sin_sample atof_sample no_files [] junk_frame
      {| argv0 := "c64koala2ppm"; options := [Opt_s "1.0"]; operands := [] |}.
Proof.
  split; [reflexivity|].
  exact (X7_last_saturation_wins cos_sample sin_sample atof_sample no_files []
           junk_frame "c64koala2ppm" [Opt_s "0.5"] [] "1.0" [] eq_refl).
Defined.

Lemma X8_witness :
  atof_sample "1.0" = SATURATION /\
  main cos_sample sin_sample atof_sample no_files [] junk_frame
    {| argv0 := "c64koala2ppm"; options := [Opt_s "1.0"]; operands := [] |}
  = main cos_sample sin_sample atof_sample no_files [] junk_frame plain_cmd.
Proof.
  split; [reflexivity|].
  exact (X8_default_saturation cos_sample sin_sample atof_sample no_files []
           junk_frame "c64koala2ppm" [] "1.0" [] eq_refl).
Defined.

(** ** Complete files and whole runs (X9 to X11, X14) *)

(** A read that finds all its bytes: they replace the buffer and the
    stream moves past them. *)
Lemma fread_complete (buf got rest : list Z) (size : Z) (w : world) :
  length got = Z.to_nat size -> length buf = Z.to_nat size ->
  koalafile w = got ++ rest ->
  fread buf size w
  = (true, got,
     {| koalafile := rest; io_log := io_log w ++ [Fread size true];
        stdout := stdout w; stderr := stderr w |}).
Proof.
  intros Hgot Hbuf Hw. unfold fread. rewrite Hw.
  rewrite take_app_length', drop_app_length' by exact (eq_sym Hgot).
  rewrite bool_decide_eq_true_2 by exact Hgot.
  rewrite drop_ge by (rewrite Hgot, Hbuf; reflexivity).
  by rewrite (right_id_L [] (++)).
Qed.

Lemma read_koala_complete (a0 : string) (w : world) (l0 l1 : Z) (img : image)
    (trailing : list Z) :
  image_wf img ->
  koalafile w = koala_bytes l0 l1 img trailing ->
  read_koala a0 w
  = (img, {| koalafile := trailing; io_log := io_log w ++ complete_reads;
             stdout := stdout w; stderr := stderr w |}).
Proof.
  intros (Hb & Hv & Hc) Hw. unfold read_koala, koala_bytes in *.
  rewrite (fread_complete [0; 0] [l0; l1] _ 2 w eq_refl eq_refl Hw).
  cbn [and_fread].
  erewrite (fread_complete (bitmap fallback) (bitmap img) _ 8000);
    [|exact Hb|apply length_replicate|reflexivity].
  cbn [and_fread].
  erewrite (fread_complete (video fallback) (video img) _ 1000);
    [|exact Hv|apply length_replicate|reflexivity].
  cbn [and_fread].
  erewrite (fread_complete (color fallback) (color img) _ 1000);
    [|exact Hc|apply length_replicate|reflexivity].
  cbn [and_fread].
  erewrite (fread_complete [bg fallback] [bg img] trailing 1);
    [|reflexivity|reflexivity|reflexivity].
  cbn [koalafile io_log stdout stderr head default].
  unfold complete_reads. rewrite <- !(assoc_L (++)). cbn [app].
  by destruct img.
Qed.

Lemma zero_frame_wf : frame_wf zero_frame.
Proof.
  unfold frame_wf, zero_frame. cbn [colors outbitmap outimage].
  by rewrite !length_replicate.
Qed.

(** X10: reading inverts the layout of the file. On a stream that holds
    two bytes of load address, the 8000, 1000 and 1000 bytes of the three
    arrays and the background byte, the five reads all succeed, the image
    decoded is the one the bytes were laid out from, no warning is given,
    and the stream is left at the first byte after the background byte,
    which is never read. *)
Theorem X10_read_complete_file (a0 : string) (w : world) (l0 l1 : Z) (img : image)
    (trailing : list Z) :
  image_wf img ->
  koalafile w = koala_bytes l0 l1 img trailing ->
  exists w',
    read_koala a0 w = (img, w') /\
    decode (koala_bytes l0 l1 img trailing) = img /\
    io_log w' = io_log w ++ complete_reads /\
    koalafile w' = trailing /\
    stdout w' = stdout w /\ stderr w' = stderr w.
Proof.
  intros Himg Hw. eexists.
  split; [exact (read_koala_complete a0 w l0 l1 img trailing Himg Hw)|].
  split; [|by repeat split].
  unfold decode.
  by rewrite (read_koala_complete "" (stream (koala_bytes l0 l1 img trailing))
                l0 l1 img trailing Himg eq_refl).
Qed.

Section WholeRun.
Variables cos sin : spec_float -> spec_float.
Variable atof : string -> spec_float.
Variable files : string -> option (list Z).
Variable stdin : list Z.
Variable stack : frame.

(** X11: on a complete file a run that gets past the command line and has
    a palette returns 0 with nothing at all on the error stream, makes
    exactly the five reads, and writes the pixmap of the image the file
    holds: neither the load address nor bytes after the background byte
    have any effect on the output. *)
Theorem X11_complete_file_run (cmd : cmdline) (sat : spec_float)
    (name : option string) (w0 : world) (pal : list rgb_color)
    (l0 l1 : Z) (img : image) (trailing : list Z) :
  getargs atof cmd start = Return (sat, name) w0 ->
  opened_input files stdin name = Some (koala_bytes l0 l1 img trailing) ->
  init_colors cos sin sat = Some pal ->
  frame_wf stack -> image_wf img ->
  exists w,
    main cos sin atof files stdin stack cmd = Some (0, w) /\
    stdout w = ppm_header ++ flat_map pixel_bytes (raster pal img) /\
    stderr w = [] /\
    io_log w = match name with Some n => [Fopen n true] | None => [] end ++ complete_reads.
Proof.
  intros Hargs Hopen Hpal Hstack Himg.
  pose proof (getargs_Return atof cmd _ _ _ Hargs) as ->.
  unfold main. rewrite Hargs.
  set (w1 := {| koalafile := koala_bytes l0 l1 img trailing;
                io_log := match name with Some n => [Fopen n true] | None => [] end;
                stdout := []; stderr := [] |}).
  assert (E1 : match name with
               | Some n => fopen files n start
               | None => (true, use_stdin stdin start)
               end = (true, w1)).
  { subst w1. destruct name as [n|]; cbn [opened_input] in Hopen.
    - unfold fopen. rewrite Hopen. reflexivity.
    - injection Hopen as ->. reflexivity. }
  rewrite E1, Hpal. cbn [mbind option_bind].
  rewrite (read_koala_complete (argv0 cmd) w1 l0 l1 img trailing Himg eq_refl).
  destruct (render_raster pal img (init_colors_length _ _ _ _ Hpal) Himg stack Hstack)
    as (fr & E3 & Hoi).
  rewrite E3. cbn [mbind option_bind].
  rewrite write_ppm_spec by (rewrite Hoi; apply raster_length).
  eexists. split; [reflexivity|].
  cbn [print stdout io_log stderr]. rewrite Hoi. subst w1. cbn [stdout io_log stderr].
  split; [exact (left_id_L [] (++) _)|]. split; reflexivity.
Qed.

(** X9: the run does not depend on what the local arrays [colors],
    [outbitmap] and [outimage] hold on entry: every cell that is written
    out has been assigned first. *)
Theorem X9_uninitialised_arrays (cmd : cmdline) (stack' : frame) :
  frame_wf stack -> frame_wf stack' ->
  main cos sin atof files stdin stack cmd
  = main cos sin atof files stdin stack' cmd.
Proof.
  intros Hs Hs'. unfold main.
  destruct (getargs atof cmd start) as [st w|[sat name] w]; [reflexivity|].
  destruct (match name with
            | Some n => fopen files n w
            | None => (true, use_stdin stdin w)
            end) as [opened w1].
  destruct opened; [|reflexivity].
  destruct (init_colors cos sin sat) as [pal|] eqn:Hpal; [|reflexivity].
  cbn [mbind option_bind].
  destruct (read_koala_run (koalafile w1) (argv0 cmd) w1 eq_refl)
    as (w2 & calls & E & _).
  rewrite E.
  destruct (render_raster pal _ (init_colors_length _ _ _ _ Hpal)
              (filled_image_wf (koalafile w1)) stack Hs) as (fr & E1 & Hoi).
  destruct (render_raster pal _ (init_colors_length _ _ _ _ Hpal)
              (filled_image_wf (koalafile w1)) stack' Hs') as (fr' & E1' & Hoi').
  rewrite E1, E1'. cbn [mbind option_bind]. rewrite Hoi, Hoi'. reflexivity.
Qed.

(** When [getargs] ends the process it has said why. *)
Lemma getargs_options_Exit_message (a0 : string) (opts : list getopt_ret) :
  forall (sat : spec_float) (w w' : world) (st : Z),
    getargs_options atof a0 sat opts w = Exit st w' -> stderr w' <> [].
Proof.
  induction opts as [|o opts IH]; intros sat w w' st H; [done|].
  destruct o; cbn [getargs_options] in H.
  - injection H as _ <-. cbn. by destruct (stderr w).
  - injection H as _ <-. cbn. by destruct (stderr w).
  - destruct (F32.ltb _ _); [|by eapply IH].
    injection H as _ <-. cbn. by destruct (stderr w).
  - injection H as _ <-. cbn. by destruct (stderr w).
Qed.

Lemma getargs_Exit_message (cmd : cmdline) (w w' : world) (st : Z) :
  getargs atof cmd w = Exit st w' -> stderr w' <> [].
Proof.
  unfold getargs.
  destruct (getargs_options _ _ _ _ _) as [st1 w1|sat w1] eqn:E.
  - intros H. injection H as _ <-. by eapply getargs_options_Exit_message.
  - destruct (operands cmd) as [|name [|name' rest]]; intros H; try done.
    injection H as _ <-. cbn. by destruct (stderr w1).
Qed.

(** X14: whatever the command line, the file system and the input, a
    run that returns does so with status 0, 1 or -1; its standard output
    is either empty or one complete pixmap of 96015 bytes that starts with
    the header, the latter only with status 0; and a status other than 0
    comes with a message on the error stream. *)
Theorem X14_status_and_output (cmd : cmdline) (st : Z) (w : world) :
  frame_wf stack ->
  main cos sin atof files stdin stack cmd = Some (st, w) ->
  (st = 0 \/ st = 1 \/ st = -1) /\
  (stdout w = [] \/
   (st = 0 /\ length (stdout w) = Z.to_nat 96015 /\
    take (Z.to_nat 15) (stdout w) = ppm_header)) /\
  (st <> 0 -> stderr w <> []).
Proof.
  intros Hstack Hmain.
  destruct (getargs atof cmd start) as [st0 w0|[sat name] w0] eqn:Hargs.
  - unfold main in Hmain. rewrite Hargs in Hmain. injection Hmain as -> ->.
    pose proof (getargs_world atof cmd start) as Hw. rewrite Hargs in Hw.
    destruct Hw as (_ & _ & Hout & _). cbn [result_world] in Hout.
    split; [destruct (getargs_Exit _ _ _ _ _ Hargs) as [->| ->]; auto|].
    split; [by left|]. intros _. by eapply getargs_Exit_message.
  - pose proof (getargs_Return atof cmd _ _ _ Hargs) as ->.
    destruct (opened_input files stdin name) as [input|] eqn:Hopen.
    + destruct (init_colors cos sin sat) as [pal|] eqn:Hpal.
      * destruct (main_run cos sin atof files stdin stack cmd sat name start input pal
                    Hargs Hopen Hpal Hstack) as (w1 & calls & E & Hout & _).
        rewrite E in Hmain. injection Hmain as <- <-.
        destruct (pixmap_layout pal (decode input) (stdout w1) Hout)
          as (Hlen & Hhead & _).
        split; [left; reflexivity|].
        split; [right; split; [reflexivity|split; [exact Hlen|exact Hhead]]|].
        intros H. exfalso. apply H. reflexivity.
      * exfalso. unfold main in Hmain. rewrite Hargs in Hmain.
        destruct name as [n|]; cbn [opened_input] in Hopen.
        -- unfold fopen in Hmain. rewrite Hopen, Hpal in Hmain. discriminate Hmain.
        -- rewrite Hpal in Hmain. discriminate Hmain.
    + destruct name as [n|]; [|done]. cbn [opened_input] in Hopen.
      unfold main in Hmain. rewrite Hargs in Hmain.
      unfold fopen in Hmain. rewrite Hopen in Hmain.
      injection Hmain as <- <-.
      split; [auto|]. split; [by left|]. intros _. done.
Qed.
End WholeRun.

Lemma X9_witness :
  frame_wf junk_frame /\ frame_wf zero_frame /\
  main cos_sample sin_sample atof_sample no_files only_load_address junk_frame plain_cmd
  = main cos_sample sin_sample atof_sample no_files only_load_address zero_frame plain_cmd.
Proof.
  split; [exact junk_frame_wf|]. split; [exact zero_frame_wf|].
  exact (X9_uninitialised_arrays cos_sample sin_sample atof_sample no_files
           only_load_address junk_frame plain_cmd zero_frame junk_frame_wf zero_frame_wf).
Defined.

Lemma X10_witness :
  image_wf fallback /\
  koalafile (stream complete_input) = koala_bytes 0x00 0x60 fallback [0xff] /\
  exists w',
    read_koala "c64koala2ppm" (stream complete_input) = (fallback, w') /\
    koalafile w' = [0xff] /\ stderr w' = [].
Proof.
  split; [exact fallback_wf|]. split; [reflexivity|].
  destruct (X10_read_complete_file "c64koala2ppm" (stream complete_input)
              0x00 0x60 fallback [0xff] fallback_wf eq_refl)
    as (w' & E & _ & _ & Hf & _ & Herr).
  exists w'. split; [exact E|]. split; [exact Hf|exact Herr].
Defined.

Lemma X11_witness :
  getargs atof_sample plain_cmd start = Return (F32.of_double SATURATION, None) start /\
  opened_input no_files complete_input None = Some (koala_bytes 0x00 0x60 fallback [0xff]) /\
  init_colors cos_sample sin_sample (F32.of_double SATURATION) = Some sample_palette /\
  frame_wf junk_frame /\ image_wf fallback /\
  exists w,
    main cos_sample sin_sample atof_sample no_files complete_input junk_frame plain_cmd
    = Some (0, w) /\
    stderr w = [].
Proof.
  split; [exact plain_cmd_args|]. split; [reflexivity|].
  split; [exact sample_palette_init|]. split; [exact junk_frame_wf|].
  split; [exact fallback_wf|].
  destruct (X11_complete_file_run cos_sample sin_sample atof_sample no_files
              complete_input junk_frame plain_cmd _ None start sample_palette
              0x00 0x60 fallback [0xff]
              plain_cmd_args eq_refl sample_palette_init junk_frame_wf fallback_wf)
    as (w & E & _ & Herr & _).
  exists w. split; [exact E|exact Herr].
Defined.

Lemma X14_witness :
  frame_wf junk_frame /\
  main cos_sample sin_sample atof_sample no_files [] junk_frame negative_cmd
  = Some (1, eprint (negative_saturation "c64koala2ppm") start) /\
  stdout (eprint (negative_saturation "c64koala2ppm") start) = [] /\
  stderr (eprint (negative_saturation "c64koala2ppm") start) <> [].
Proof.
  assert (E : main cos_sample sin_sample atof_sample no_files [] junk_frame negative_cmd
              = Some (1, eprint (negative_saturation "c64koala2ppm") start))
    by reflexivity.
  split; [exact junk_frame_wf|]. split; [exact E|].
  destruct (X14_status_and_output cos_sample sin_sample atof_sample no_files []
              junk_frame negative_cmd 1 _ junk_frame_wf E) as (_ & _ & Herr).
  split; [reflexivity|]. apply Herr. discriminate.
Defined.

(** ** The bitmap by scan lines (X15) *)

(** Partial-correctness rule for [for_each]: what a completed loop has
    established. *)
Lemma for_each_post {A S} (R : S -> S -> Prop) (Q : A -> S -> Prop)
    (body : A -> S -> option S) (l : list A) :
  (forall s, R s s) ->
  (forall s1 s2 s3, R s1 s2 -> R s2 s3 -> R s1 s3) ->
  (forall a s s', a ∈ l -> Q a s -> R s s' -> Q a s') ->
  (forall a s s', a ∈ l -> body a s = Some s' -> R s s' /\ Q a s') ->
  forall s s', for_each l body s = Some s' ->
    R s s' /\ forall a, a ∈ l -> Q a s'.
Proof.
  intros Hrefl Htrans.
  induction l as [|a l IH]; intros Hstable Hbody s s' E.
  - injection E as <-. split; [apply Hrefl|]. intros a Ha. inversion Ha.
  - rewrite for_each_cons in E.
    destruct (body a s) as [s1|] eqn:E1; [|discriminate E].
    cbn [mbind option_bind] in E.
    destruct (Hbody a s s1) as [R1 Q1]; [left|exact E1|].
    destruct (IH) with (s := s1) (s' := s') as [R2 Q2]; [| |exact E|].
    { intros a' t t' Ha'. apply Hstable. by right. }
    { intros a' t t' Ha'. apply Hbody. by right. }
    split; [by eapply Htrans|].
    intros a' Ha'. apply elem_of_cons in Ha' as [->|Ha']; [|by apply Q2].
    eapply Hstable; [left|exact Q1|exact R2].
Qed.

Lemma set_colors_others (i : Z) (v : rgb_color) (fr fr' : frame) :
  set_colors i v fr = Some fr' ->
  outbitmap fr' = outbitmap fr /\ outimage fr' = outimage fr.
Proof.
  unfold set_colors. destruct (_ && _); [|discriminate].
  intros H. bind_step H. by injection H as <-.
Qed.

Section Scan.
Variable pal : list rgb_color.
Variable img : image.
Hypothesis img_wf : image_wf img.

Lemma keeps_scanned_refl fr : keeps_scanned img fr fr.
Proof using Type. by split. Qed.

Lemma keeps_scanned_trans fr1 fr2 fr3 :
  keeps_scanned img fr1 fr2 -> keeps_scanned img fr2 fr3 -> keeps_scanned img fr1 fr3.
Proof using Type.
  intros [L12 P12] [L23 P23]. split; [congruence|]. auto.
Qed.

Lemma keeps_scanned_eq fr fr' :
  outbitmap fr' = outbitmap fr -> keeps_scanned img fr fr'.
Proof using Type.
  intros E. unfold keeps_scanned, scanned. rewrite E. by split.
Qed.

(** The innermost loop does not touch [outbitmap]. *)
Lemma pixel_body_outbitmap (c outx outy b : Z) (fr fr' : frame) :
  pixel_body c outx outy b fr = Some fr' -> outbitmap fr' = outbitmap fr.
Proof using Type.
  unfold pixel_body, set_outimage. intros H.
  destruct (index1 _ _) as [oc|]; [|discriminate H].
  cbn [mbind option_bind] in H.
  destruct (offset2 _ _ _ _) as [o|]; [|discriminate H].
  cbn [mbind option_bind] in H.
  destruct (store _ _ _) as [oi|]; [|discriminate H].
  by injection H as <-.
Qed.

Lemma pixels_outbitmap (c outx outy : Z) (l : list Z) :
  forall fr fr', for_each l (pixel_body c outx outy) fr = Some fr' ->
    outbitmap fr' = outbitmap fr.
Proof using Type.
  induction l as [|b l IH]; intros fr fr' E.
  - by injection E as <-.
  - rewrite for_each_cons in E.
    destruct (pixel_body c outx outy b fr) as [fr1|] eqn:E1; [|discriminate E].
    cbn [mbind option_bind] in E.
    rewrite (IH _ _ E). by eapply pixel_body_outbitmap.
Qed.

(** Line 291: one pass of the row loop stores the byte of its row. *)
Lemma row_body_scanned (cardy cardx y : Z) (fr fr' : frame) :
  0 <= cardy < 25 -> 0 <= cardx < 40 -> 0 <= y < 8 ->
  row_body img cardy cardx y fr = Some fr' ->
  keeps_scanned img fr fr' /\ scanned img fr' (8 * cardy + y) cardx.
Proof using img_wf.
  intros Hcy Hcx Hy. unfold row_body, set_outbitmap.
  rewrite offset3_Some by lia. cbn [mbind option_bind].
  rewrite (bitmap_lookup img img_wf) by done. cbn [mbind option_bind].
  rewrite offset2_Some by lia. cbn [mbind option_bind].
  unfold store. destruct (decide _) as [Ho|]; [|discriminate].
  cbn [mbind option_bind]. intros E. apply pixels_outbitmap in E.
  cbn [outbitmap] in E.
  assert (Hdiv : (8 * cardy + y) / 8 = cardy) by (symmetry; apply Z.div_unique with y; lia).
  assert (Hmod : (8 * cardy + y) mod 8 = y) by (symmetry; apply Z.mod_unique with cardy; lia).
  unfold keeps_scanned, scanned. rewrite E, length_insert.
  split; [split; [reflexivity|]|].
  - intros outy outx Hoy Hox Hs.
    destruct (decide (Z.to_nat ((8 * cardy + y) * 40 + cardx)
                      = Z.to_nat (outy * 40 + outx))) as [Eo|N].
    + assert (outy = 8 * cardy + y /\ outx = cardx) as [-> ->] by lia.
      rewrite list_lookup_insert_eq by exact Ho. by rewrite Hdiv, Hmod.
    + by rewrite list_lookup_insert_ne.
  - rewrite list_lookup_insert_eq by exact Ho. by rewrite Hdiv, Hmod.
Qed.

Lemma card_colors_outbitmap (cardy cardx : Z) (fr fr' : frame) :
  card_colors pal img cardy cardx fr = Some fr' -> outbitmap fr' = outbitmap fr.
Proof using Type.
  unfold card_colors. intros H. do 4 bind_step H. do 2 bind_step H. do 2 bind_step H.
  repeat match goal with
         | E : set_colors _ _ _ = Some _ |- _ => apply set_colors_others in E as [-> _]
         end.
  reflexivity.
Qed.

(** One pass of the card loop stores the eight bytes of its card. *)
Lemma card_body_scanned (cardy cardx : Z) (fr fr' : frame) :
  0 <= cardy < 25 -> 0 <= cardx < 40 ->
  card_body pal img cardy cardx fr = Some fr' ->
  keeps_scanned img fr fr' /\
  forall y, 0 <= y < 8 -> scanned img fr' (8 * cardy + y) cardx.
Proof using img_wf.
  intros Hcy Hcx. unfold card_body. intros H. bind_step H.
  match goal with E : card_colors _ _ _ _ _ = Some _ |- _ =>
    apply card_colors_outbitmap in E; rename E into E1 end.
  destruct (for_each_post (keeps_scanned img)
              (fun y s => scanned img s (8 * cardy + y) cardx)
              (row_body img cardy cardx) (seqZ 0 8)) with (s := f) (s' := fr')
    as [R Q].
  - apply keeps_scanned_refl.
  - apply keeps_scanned_trans.
  - intros y s s' Hy%elem_of_seqZ Hs [_ Hk]. apply Hk; [lia..|exact Hs].
  - intros y s s' Hy%elem_of_seqZ. apply row_body_scanned; [done..|lia].
  - exact H.
  - split.
    + eapply keeps_scanned_trans; [by apply keeps_scanned_eq|exact R].
    + intros y Hy. apply Q. apply elem_of_seqZ. lia.
Qed.

(** One pass of the outer loop stores the bytes of eight scan lines. *)
Lemma cardrow_body_scanned (cardy : Z) (fr fr' : frame) :
  0 <= cardy < 25 ->
  cardrow_body pal img cardy fr = Some fr' ->
  keeps_scanned img fr fr' /\
  forall y outx, 0 <= y < 8 -> 0 <= outx < 40 -> scanned img fr' (8 * cardy + y) outx.
Proof using img_wf.
  intros Hcy. unfold cardrow_body. intros H.
  destruct (for_each_post (keeps_scanned img)
              (fun cardx s => forall y, 0 <= y < 8 -> scanned img s (8 * cardy + y) cardx)
              (card_body pal img cardy) (seqZ 0 40)) with (s := fr) (s' := fr')
    as [R Q].
  - apply keeps_scanned_refl.
  - apply keeps_scanned_trans.
  - intros cardx s s' Hcx%elem_of_seqZ Hs [_ Hk] y Hy. apply Hk; [lia..|by apply Hs].
  - intros cardx s s' Hcx%elem_of_seqZ. apply card_body_scanned; [done|lia].
  - exact H.
  - split; [exact R|]. intros y outx Hy Hox. apply Q; [|exact Hy].
    apply elem_of_seqZ. lia.
Qed.

(** When the card loops are through, [outbitmap] holds the bitmap by
    scan lines. *)
Lemma render_scanned (fr fr' : frame) :
  render pal img fr = Some fr' ->
  forall outy outx, 0 <= outy < 200 -> 0 <= outx < 40 -> scanned img fr' outy outx.
Proof using img_wf.
  unfold render. intros H. do 2 bind_step H.
  destruct (for_each_post (keeps_scanned img)
              (fun cardy s => forall y outx, 0 <= y < 8 -> 0 <= outx < 40 ->
                 scanned img s (8 * cardy + y) outx)
              (cardrow_body pal img) (seqZ 0 25)) with (s := f) (s' := fr')
    as [R Q].
  - apply keeps_scanned_refl.
  - apply keeps_scanned_trans.
  - intros cardy s s' Hcy%elem_of_seqZ Hs [_ Hk] y outx Hy Hox.
    apply Hk; [lia..|by apply Hs].
  - intros cardy s s' Hcy%elem_of_seqZ. apply cardrow_body_scanned. lia.
  - exact H.
  - intros outy outx Hoy Hox.
    pose proof (Z.div_mod outy 8 ltac:(lia)) as Hdm.
    pose proof (Z.mod_pos_bound outy 8 ltac:(lia)) as Hm.
    replace outy with (8 * (outy / 8) + outy mod 8) by lia.
    apply Q; [|exact Hm|exact Hox]. apply elem_of_seqZ. lia.
Qed.
End Scan.

(** X15: [outbitmap] is the bitmap re-arranged by scan order. On every
    image with arrays of the declared sizes the card loops run to the end
    and leave in [outbitmap[8*cardy+y][cardx]] the byte
    [bitmap[cardy][cardx][y]], for every card and every row of it: each
    of the 8000 cells is assigned, whatever the array held on entry. *)
Theorem X15_outbitmap_scan_order (pal : list rgb_color) (img : image) (stack : frame) :
  length pal = Z.to_nat 16 -> image_wf img -> frame_wf stack ->
  exists fr,
    render pal img stack = Some fr /\
    length (outbitmap fr) = Z.to_nat 8000 /\
    forall cardy cardx y, 0 <= cardy < 25 -> 0 <= cardx < 40 -> 0 <= y < 8 ->
      outbitmap fr !! Z.to_nat ((8 * cardy + y) * 40 + cardx)
      = bitmap img !! Z.to_nat ((cardy * 40 + cardx) * 8 + y).
Proof.
  intros Hpal Himg Hstack.
  destruct (render_spec pal img Hpal Himg stack Hstack) as (fr & E & (_ & Hob & _) & _).
  exists fr. split; [exact E|]. split; [exact Hob|].
  intros cardy cardx y Hcy Hcx Hy.
  pose proof (render_scanned pal img Himg stack fr E (8 * cardy + y) cardx
                ltac:(lia) Hcx) as Hs.
  unfold scanned in Hs. rewrite Hs.
  replace ((8 * cardy + y) / 8) with cardy by (apply Z.div_unique with y; lia).
  replace ((8 * cardy + y) mod 8) with y by (apply Z.mod_unique with cardy; lia).
  symmetry. by apply (bitmap_lookup img Himg).
Qed.

Lemma X15_witness :
  length grey_ramp = Z.to_nat 16 /\ image_wf fallback /\ frame_wf junk_frame /\
  exists fr,
    render grey_ramp fallback junk_frame = Some fr /\
    length (outbitmap fr) = Z.to_nat 8000.
Proof.
  split; [exact grey_ramp_length|]. split; [exact fallback_wf|].
  split; [exact junk_frame_wf|].
  destruct (X15_outbitmap_scan_order grey_ramp fallback junk_frame
              grey_ramp_length fallback_wf junk_frame_wf) as (fr & E & Hlen & _).
  exists fr. split; [exact E|exact Hlen].
Defined.

(** ** Unsigned bytes and the greys of the palette (X12, X13) *)



(** A colour of the table with saturation 0 has no chroma, whatever the
    finite global saturation. *)
Lemma chroma_unsaturated (sat : spec_float) (c64 : c64_color) (scale : spec_float)
    (f : spec_float -> spec_float) :
  (forall x, is_finite x = true -> is_finite (f x) = true) ->
  c64 ∈ c64_colors -> saturation c64 = 0 ->
  is_finite sat = true -> is_finite scale = true ->
  is_zero (chroma sat c64 scale f) = true.
Proof.
  intros Hf Hc H0 Hsat Hscale. unfold chroma. rewrite H0.
  apply of_double_zero, SFmul_zero_l; [|by apply Hf, hue_finite].
  apply of_float_zero, SFmul_zero_l; [|exact Hscale].
  apply SFmul_zero_l; [reflexivity|exact Hsat].
Qed.

(** The conversion of a colour with luma only. *)
Lemma luma_only_rgb (c64 : c64_color) (su sv : bool) :
  c64 ∈ c64_colors ->
  yuv_to_rgb {| yuv_y := F32.of_double (F64.div (F64.of_int (luma c64)) (F64.of_int 32));
                yuv_u := S754_zero su; yuv_v := S754_zero sv |}
  = Some {| r := grey_level (luma c64); g := grey_level (luma c64);
            b := grey_level (luma c64) |}.
Proof.
  intros H. unfold c64_colors in H.
  repeat (apply elem_of_cons in H as [->|H];
          [destruct su, sv; vm_compute; reflexivity|]).
  inversion H.
Qed.

Section Unsaturated.
Variables cos sin : spec_float -> spec_float.
Hypothesis cos_finite : forall x, is_finite x = true -> is_finite (cos x) = true.
Hypothesis sin_finite : forall x, is_finite x = true -> is_finite (sin x) = true.

(** X12: the greys of the palette do not depend on [-s]. For each of the
    five colours of the table whose saturation is 0 (black, white and the
    three greys) and every finite global saturation, the chroma terms are
    zeros and the entry stored is the grey of level
    [floor (255 * luma / 32 + 1/2)] in all three components: 0, 255, 80,
    120 and 159. *)
Theorem X12_greys_ignore_saturation (sat : spec_float) (c64 : c64_color) :
  is_finite sat = true ->
  c64 ∈ c64_colors -> saturation c64 = 0 ->
  c64_to_rgb cos sin sat c64 (F32.of_double USCALE) (F32.of_double VSCALE)
  = Some {| r := grey_level (luma c64); g := grey_level (luma c64);
            b := grey_level (luma c64) |} /\
  grey_level (luma c64) ∈ [0; 255; 80; 120; 159].
Proof.
  intros Hsat Hc H0.
  pose proof (chroma_unsaturated sat c64 (F32.of_double USCALE) cos
                cos_finite Hc H0 Hsat eq_refl) as Hu.
  pose proof (chroma_unsaturated sat c64 (F32.of_double VSCALE) sin
                sin_finite Hc H0 Hsat eq_refl) as Hv.
  destruct (is_zero_inv _ Hu) as [su Eu], (is_zero_inv _ Hv) as [sv Ev].
  split.
  - unfold c64_to_rgb, c64_to_yuv. rewrite Eu, Ev. by apply luma_only_rgb.
  - clear Hu Hv Eu Ev. unfold c64_colors in Hc.
    repeat (apply elem_of_cons in Hc as [->|Hc];
            [first [discriminate H0 | vm_compute; repeat constructor]|]).
    inversion Hc.
Qed.
End Unsaturated.

Lemma X12_witness :
  (forall x, is_finite x = true -> is_finite (cos_sample x) = true) /\
  (forall x, is_finite x = true -> is_finite (sin_sample x) = true) /\
  is_finite (F32.of_double SATURATION) = true /\
  dark_grey ∈ c64_colors /\ saturation dark_grey = 0 /\
  c64_to_rgb cos_sample sin_sample (F32.of_double SATURATION) dark_grey
    (F32.of_double USCALE) (F32.of_double VSCALE)
  = Some {| r := grey_level 10; g := grey_level 10; b := grey_level 10 |}.
Proof.
  assert (Hc : dark_grey ∈ c64_colors).
  { unfold c64_colors, dark_grey. repeat constructor. }
  split; [exact cos_sample_finite|]. split; [exact sin_sample_finite|].
  split; [reflexivity|]. split; [exact Hc|]. split; [reflexivity|].
  exact (proj1 (X12_greys_ignore_saturation cos_sample sin_sample
                  cos_sample_finite sin_sample_finite (F32.of_double SATURATION)
                  dark_grey eq_refl Hc eq_refl)).
Defined.

(** ** Finite luma and chroma (X16) *)

(** *** Signs *)

Lemma abs_round_aux (prec emax : Z) (s : bool) (M E : Z) (l : location) :
  SFabs (binary_round_aux prec emax s M E l) = binary_round_aux prec emax false M E l.
Proof.
  unfold binary_round_aux.
  destruct (shr_fexp prec emax M E l) as [mrs1 e1].
  destruct (shr_fexp prec emax _ e1 loc_Exact) as [mrs2 e2].
  destruct (shr_m mrs2); [reflexivity| |reflexivity].
  by destruct (e2 <=? emax - prec).
Qed.

Lemma abs_binary_round (prec emax : Z) (s : bool) (m : positive) (e : Z) :
  SFabs (binary_round prec emax s m e) = binary_round prec emax false m e.
Proof.
  unfold binary_round. destruct (shl_align _ _ _) as [mz ez]. apply abs_round_aux.
Qed.

Lemma within_finite (L c k : Z) (x : spec_float) : within L c k x -> is_finite x = true.
Proof. by destruct x. Qed.

Lemma within_zero (L c k : Z) (x : spec_float) : is_zero x = true -> within L c k x.
Proof. by destruct x. Qed.

(** *** Rounding never makes a NaN *)

Lemma round_aux_not_nan (prec emax : Z) (s : bool) (M E : Z) :
  0 <= M -> is_nan (binary_round_aux prec emax s M E loc_Exact) = false.
Proof.
  intros HM. unfold binary_round_aux.
  destruct (shr_fexp_spec prec emax M E HM) as (mrs1 & E1 & Hq1 & _). rewrite E1.
  set (j := Z.max 0 _) in *.
  pose proof (pow2_pos j ltac:(lia)) as Hpj.
  pose proof (round_nearest_even_bounds (shr_m mrs1) (loc_of_shr_record mrs1)) as Hrnd.
  set (m1 := round_nearest_even _ _) in *.
  assert (Hm1 : 0 <= m1).
  { rewrite Hq1 in Hrnd. pose proof (Z.div_pos M (2 ^ j) HM Hpj). lia. }
  destruct (shr_fexp_spec prec emax m1 (E + j) Hm1) as (mrs2 & E2 & Hq2 & _).
  rewrite E2, Hq2.
  set (j2 := Z.max 0 _).
  pose proof (Z.div_pos m1 (2 ^ j2) Hm1 (pow2_pos j2 ltac:(lia))) as Hq.
  destruct (m1 / 2 ^ j2) as [|m2|m2]; [reflexivity| |lia].
  by destruct (_ <=? _).
Qed.

Lemma binary_round_not_nan (prec emax : Z) (s : bool) (m : positive) (e : Z) :
  is_nan (binary_round prec emax s m e) = false.
Proof.
  unfold binary_round. destruct (shl_align _ _ _) as [mz ez].
  apply round_aux_not_nan. lia.
Qed.

Lemma binary_normalize_not_nan (prec emax : Z) (m e : Z) (sz : bool) :
  is_nan (binary_normalize prec emax m e sz) = false.
Proof. destruct m; [reflexivity|apply binary_round_not_nan..]. Qed.

(** A sum with a finite term is a NaN only if the other term is. *)
Lemma SFadd_not_nan (prec emax : Z) (x y : spec_float) :
  is_nan x = false -> is_finite y = true -> is_nan (SFadd prec emax x y) = false.
Proof.
  intros Hx Hy. destruct x as [sx|sx| |sx mx ex], y as [sy|sy| |sy my ey]; try done.
  - by destruct sx, sy.
  - unfold SFadd. apply binary_normalize_not_nan.
Qed.

Lemma SFadd_not_nan_l (prec emax : Z) (x y : spec_float) :
  is_finite x = true -> is_nan y = false -> is_nan (SFadd prec emax x y) = false.
Proof.
  intros Hx Hy. destruct x as [sx|sx| |sx mx ex], y as [sy|sy| |sy my ey]; try done.
  - by destruct sx, sy.
  - unfold SFadd. apply binary_normalize_not_nan.
Qed.

Lemma of_double_not_nan (x : spec_float) :
  is_nan x = false -> is_nan (F32.of_double x) = false.
Proof.
  destruct x as [s|s| |s m e]; try done. intros _. apply binary_round_not_nan.
Qed.

(** *** Rounding below a bound of the format *)

(** As [round_aux_below], for a mantissa that is not shorter than the
    format asks and a bound up to the largest number. *)
Lemma round_aux_within (prec emax L M E c k : Z) :
  0 < M -> L <= E -> L <= k -> 0 < c ->
  scaled L M E <= scaled L c k ->
  fexp prec emax (Zdigits2 c + k) <= k ->
  k <= emax - prec ->
  E <= fexp prec emax (Zdigits2 M + E) ->
  below L c k (binary_round_aux prec emax false M E loc_Exact).
Proof.
  intros HM HE Hk Hc Hle Hgrid Hmax Hcan.
  assert (HdM : 0 < Zdigits2 M) by (destruct M; simpl; lia).
  assert (Hdc : 0 < Zdigits2 c) by (destruct c; simpl; lia).
  pose proof (digits_le_of_scaled L M E c k HE Hk HM Hc Hle) as Hdig.
  unfold binary_round_aux.
  destruct (shr_fexp_spec prec emax M E ltac:(lia)) as (mrs1 & E1 & Hq1 & Hloc1).
  rewrite E1.
  set (t := fexp prec emax (Zdigits2 M + E)) in *.
  pose proof (fexp_mono prec emax _ _ Hdig) as Ht. fold t in Ht.
  remember (Z.max 0 (t - E)) as j eqn:Hj.
  set (m1 := round_nearest_even (shr_m mrs1) (loc_of_shr_record mrs1)).
  pose proof (pow2_pos j ltac:(lia)) as Hpj.
  assert (Hq0 : 0 <= M / 2 ^ j) by (apply Z.div_pos; lia).
  pose proof (round_nearest_even_bounds (shr_m mrs1) (loc_of_shr_record mrs1)) as Hrnd.
  fold m1 in Hrnd. rewrite Hq1 in Hrnd.
  assert (Hstage : scaled L m1 (E + j) <= scaled L c k /\ E + j <= emax - prec).
  { destruct (Z.le_gt_cases (t - E) 0) as [Hn|Hn].
    - assert (j = 0) as -> by lia.
      assert (m1 = M) as ->.
      { unfold m1. rewrite Hloc1 by (rewrite Z.pow_0_r; apply Z.mod_1_r).
        simpl. by rewrite Hq1, Z.pow_0_r, Z.div_1_r. }
      rewrite Z.add_0_r. split; [done|lia].
    - assert (j = t - E) as -> by lia.
      replace (E + (t - E)) with t by lia.
      split; [|lia].
      set (K := c * 2 ^ (k - t)).
      assert (HMK : M <= K * 2 ^ (t - E)).
      { apply (scaled_le_cancel L _ _ E HE).
        unfold K. rewrite <- Z.mul_assoc, <- pow2_add by lia.
        rewrite scaled_shift by lia.
        by replace (E + (k - t + (t - E))) with k by lia. }
      assert (Hm1K : m1 <= K).
      { assert (HqK : M / 2 ^ (t - E) <= K) by (apply Z.div_le_upper_bound; lia).
        destruct (Z.eq_dec (M / 2 ^ (t - E)) K) as [Heq|Hne]; [|lia].
        assert (M mod 2 ^ (t - E) = 0) as Hmod.
        { pose proof (Z.div_mod M (2 ^ (t - E)) ltac:(lia)).
          pose proof (Z.mod_pos_bound M (2 ^ (t - E)) ltac:(lia)). nia. }
        unfold m1. rewrite (Hloc1 Hmod). simpl. rewrite Hq1. lia. }
      transitivity (scaled L K t); [apply scaled_le_mono; lia|].
      unfold K. rewrite scaled_shift by lia. by replace (t + (k - t)) with k by lia. }
  destruct Hstage as [Hle1 Hmax1].
  destruct (shr_fexp_spec prec emax m1 (E + j) ltac:(lia)) as (mrs2 & E2 & Hq2 & _).
  rewrite E2, Hq2.
  set (t2 := fexp prec emax (Zdigits2 m1 + (E + j))) in *.
  remember (Z.max 0 (t2 - (E + j))) as j2 eqn:Hj2.
  pose proof (pow2_pos j2 ltac:(lia)) as Hpj2.
  pose proof (scaled_div_le L m1 (E + j) j2 ltac:(lia) ltac:(lia) ltac:(lia)) as Hdiv.
  destruct (m1 / 2 ^ j2) as [|m2|m2] eqn:Em2; [done| |].
  - assert (Hm1pos : 0 < m1).
    { destruct (Z.eq_dec m1 0) as [->|]; [|lia]. by rewrite Z.div_0_l in Em2 by lia. }
    pose proof (digits_le_of_scaled L m1 (E + j) c k ltac:(lia) Hk Hm1pos Hc Hle1) as Hdig2.
    pose proof (fexp_mono prec emax _ _ Hdig2) as Ht2. fold t2 in Ht2.
    assert (Hfin : E + j + j2 <= emax - prec) by lia.
    apply Z.leb_le in Hfin. rewrite Hfin. simpl.
    split; [done|]. split; [lia|]. lia.
  - pose proof (Z.div_pos m1 (2 ^ j2) ltac:(lia) ltac:(lia)). lia.
Qed.

(** The mantissa [shl_align] hands to the rounding is long enough. *)
Lemma shl_align_canonical (prec emax : Z) (m : positive) (e : Z) :
  let '(mz, ez) := shl_align m e (fexp prec emax (Zdigits2 (Z.pos m) + e)) in
  ez <= fexp prec emax (Zdigits2 (Z.pos mz) + ez).
Proof.
  pose proof (shl_align_spec m e (fexp prec emax (Zdigits2 (Z.pos m) + e)))
    as [Hez Hmz].
  destruct (shl_align _ _ _) as [mz ez]. cbn [fst snd] in Hez, Hmz.
  set (t := fexp prec emax (Zdigits2 (Z.pos m) + e)) in *.
  destruct (Z.le_gt_cases e t) as [Hle|Hgt].
  - assert (ez = e) as -> by lia.
    assert (Z.pos mz = Z.pos m) as ->; [|done].
    rewrite Hmz. replace (e - Z.min e t) with 0 by lia. lia.
  - assert (ez = t) as -> by lia.
    replace (Z.min e t) with t in Hmz by lia.
    assert (Hd : Zdigits2 (Z.pos mz) = Zdigits2 (Z.pos m) + (e - t)).
    { apply Zdigits2_unique; [lia|].
      pose proof (Zdigits2_bounds (Z.pos m) ltac:(lia)) as [Hlo Hhi].
      assert (Hdm : 0 < Zdigits2 (Z.pos m)) by (simpl; lia).
      pose proof (pow2_pos (e - t) ltac:(lia)).
      rewrite Hmz.
      replace (Zdigits2 (Z.pos m) + (e - t) - 1) with (Zdigits2 (Z.pos m) - 1 + (e - t)) by lia.
      rewrite !pow2_add by lia. nia. }
    rewrite Hd. replace (Zdigits2 (Z.pos m) + (e - t) + t) with (Zdigits2 (Z.pos m) + e) by lia.
    subst t. lia.
Qed.

Lemma binary_round_within (prec emax L : Z) (s : bool) (m : positive) (e c k : Z) :
  L <= e -> L <= emin prec emax -> L <= k -> 0 < c ->
  scaled L (Z.pos m) e <= scaled L c k ->
  fexp prec emax (Zdigits2 c + k) <= k ->
  k <= emax - prec ->
  within L c k (binary_round prec emax s m e).
Proof.
  intros He Hmin Hk Hc Hle Hgrid Hmax. unfold within. rewrite abs_binary_round.
  unfold binary_round.
  pose proof (shl_align_spec m e (fexp prec emax (Z.pos (digits2_pos m) + e)))
    as [Hez Hmz].
  pose proof (shl_align_canonical prec emax m e) as Hcan.
  change (Zdigits2 (Z.pos m)) with (Z.pos (digits2_pos m)) in Hcan.
  destruct (shl_align _ _ _) as [mz ez]. cbn [fst snd] in Hez, Hmz.
  assert (HLez : L <= ez) by (unfold fexp in Hez; lia).
  apply round_aux_within; try done.
  rewrite Hmz, scaled_shift by lia.
  by replace (ez + (e - Z.min e (fexp prec emax (Z.pos (digits2_pos m) + e))))
    with e by lia.
Qed.

(** *** Numbers of a format *)

(** The exponent of a number of the format is the one its length asks
    for. *)
Lemma valid_canonical (prec emax : Z) (s : bool) (m : positive) (e : Z) :
  valid_binary prec emax (S754_finite s m e) = true ->
  fexp prec emax (Zdigits2 (Z.pos m) + e) = e /\ e <= emax - prec.
Proof.
  unfold valid_binary, bounded, canonical_mantissa. intros H.
  apply andb_prop in H as [Hcan Hmax].
  apply Z.eqb_eq in Hcan. apply Z.leb_le in Hmax. by split.
Qed.

Lemma Zdigits2_pos (m : Z) : 0 < m -> 0 < Zdigits2 m.
Proof. destruct m; simpl; lia. Qed.

(** A mantissa of the format has at most [prec] bits. *)
Lemma valid_mantissa (prec emax : Z) (s : bool) (m : positive) (e : Z) :
  0 < prec -> valid_binary prec emax (S754_finite s m e) = true ->
  Z.pos m < 2 ^ prec.
Proof.
  intros Hprec Hvalid. destruct (valid_canonical _ _ _ _ _ Hvalid) as [Hcan _].
  pose proof (Zdigits2_bounds (Z.pos m) ltac:(lia)) as [_ Hhi].
  eapply Z.lt_le_trans; [exact Hhi|].
  apply Z.pow_le_mono_r; [lia|]. unfold fexp in Hcan. lia.
Qed.

(** A finite [float] is at most the largest [float] in magnitude. *)
Lemma float_within (L : Z) (x : spec_float) :
  L <= -149 -> F32.valid x = true -> is_finite x = true ->
  within L FLT_MAX_m FLT_MAX_e x.
Proof.
  intros HL Hvalid Hfin. destruct x as [s|s| |s m e]; try done.
  destruct (valid_canonical F32.prec F32.emax s m e Hvalid) as [Hcan Hmax].
  pose proof (valid_mantissa F32.prec F32.emax s m e ltac:(done) Hvalid) as Hm.
  unfold fexp, emin, F32.prec, F32.emax in *.
  unfold within. cbn [SFabs below]. split; [done|]. split; [lia|].
  unfold scaled, FLT_MAX_m, FLT_MAX_e.
  pose proof (pow2_pos (e - L) ltac:(lia)) as Hp.
  assert (Hpow : 2 ^ (e - L) <= 2 ^ (104 - L)) by (apply Z.pow_le_mono_r; lia).
  assert (Hm' : Z.pos m <= 2 ^ 24 - 1) by lia.
  assert (H0 : 0 <= 2 ^ 24 - 1) by (change (2 ^ 24) with 16777216; lia).
  transitivity ((2 ^ 24 - 1) * 2 ^ (e - L)).
  - apply Z.mul_le_mono_nonneg_r; [lia|exact Hm'].
  - apply Z.mul_le_mono_nonneg_l; [exact H0|exact Hpow].
Qed.

(** The product of two mantissas is about as long as both together. *)
Lemma Zdigits2_mul_ge (a b : Z) :
  0 < a -> 0 < b -> Zdigits2 a + Zdigits2 b - 1 <= Zdigits2 (a * b).
Proof.
  intros Ha Hb.
  pose proof (Zdigits2_bounds a Ha) as [Hla _].
  pose proof (Zdigits2_bounds b Hb) as [Hlb _].
  pose proof (Zdigits2_bounds (a * b) ltac:(lia)) as [_ Hh].
  pose proof (Zdigits2_pos a Ha). pose proof (Zdigits2_pos b Hb).
  pose proof (Zdigits2_pos (a * b) ltac:(lia)).
  pose proof (pow2_pos (Zdigits2 a - 1) ltac:(lia)).
  pose proof (pow2_pos (Zdigits2 b - 1) ltac:(lia)).
  assert (Hlt : 2 ^ (Zdigits2 a - 1 + (Zdigits2 b - 1)) < 2 ^ Zdigits2 (a * b)).
  { rewrite pow2_add by lia. nia. }
  apply Z.pow_lt_mono_r_iff in Hlt; lia.
Qed.

(** The exact product of two numbers of a format is long enough for the
    rounding of [SFmul]. *)
Lemma mul_canonical (prec emax : Z) (m1 m2 : positive) (e1 e2 : Z) :
  0 < prec -> emin prec emax <= 0 ->
  fexp prec emax (Zdigits2 (Z.pos m1) + e1) = e1 ->
  fexp prec emax (Zdigits2 (Z.pos m2) + e2) = e2 ->
  e1 + e2 <= fexp prec emax (Zdigits2 (Z.pos (m1 * m2)) + (e1 + e2)).
Proof.
  intros Hprec Hmin H1 H2.
  pose proof (Zdigits2_mul_ge (Z.pos m1) (Z.pos m2) ltac:(lia) ltac:(lia)) as Hd.
  rewrite <- Pos2Z.inj_mul in Hd.
  pose proof (Zdigits2_pos (Z.pos m1) ltac:(lia)).
  pose proof (Zdigits2_pos (Z.pos m2) ltac:(lia)).
  unfold fexp in *. lia.
Qed.

Lemma scaled_mul (L1 L2 m1 e1 m2 e2 : Z) :
  L1 <= e1 -> L2 <= e2 ->
  scaled (L1 + L2) (m1 * m2) (e1 + e2) = scaled L1 m1 e1 * scaled L2 m2 e2.
Proof.
  intros H1 H2. unfold scaled.
  replace (e1 + e2 - (L1 + L2)) with ((e1 - L1) + (e2 - L2)) by lia.
  rewrite pow2_add by lia. lia.
Qed.

Lemma scaled_nonneg (L m e : Z) : 0 <= m -> L <= e -> 0 <= scaled L m e.
Proof.
  intros Hm He. unfold scaled. pose proof (pow2_pos (e - L) ltac:(lia)). nia.
Qed.

Section Products.
Variables prec emax : Z.
Hypothesis prec_pos : 0 < prec.
Hypothesis emin_neg : emin prec emax <= 0.

(** The product of two numbers of a format is a number of the format. *)
Lemma SFmul_valid (x y : spec_float) :
  valid_binary prec emax x = true -> valid_binary prec emax y = true ->
  valid_binary prec emax (SFmul prec emax x y) = true.
Proof using prec_pos emin_neg.
  intros Hx Hy. destruct x as [sx|sx| |sx mx ex], y as [sy|sy| |sy my ey]; try done.
  unfold SFmul.
  destruct (valid_canonical _ _ _ _ _ Hx) as [Hcx _].
  destruct (valid_canonical _ _ _ _ _ Hy) as [Hcy _].
  apply binary_round_aux_valid; [exact prec_pos|lia|].
  by apply mul_canonical.
Qed.

(** The product of two bounded numbers of a format keeps below the
    product of the bounds, when that is a number of the format. *)
Lemma SFmul_within (L1 L2 c1 k1 c2 k2 : Z) (x y : spec_float) :
  valid_binary prec emax x = true -> valid_binary prec emax y = true ->
  within L1 c1 k1 x -> within L2 c2 k2 y ->
  0 < c1 -> 0 < c2 -> L1 <= k1 -> L2 <= k2 ->
  fexp prec emax (Zdigits2 (c1 * c2) + (k1 + k2)) <= k1 + k2 ->
  k1 + k2 <= emax - prec ->
  within (L1 + L2) (c1 * c2) (k1 + k2) (SFmul prec emax x y).
Proof using prec_pos emin_neg.
  intros Hx Hy Wx Wy Hc1 Hc2 Hk1 Hk2 Hgrid Hmax.
  destruct x as [sx|sx| |sx mx ex], y as [sy|sy| |sy my ey]; try done.
  destruct Wx as (_ & He1 & Hle1), Wy as (_ & He2 & Hle2).
  destruct (valid_canonical _ _ _ _ _ Hx) as [Hcx _].
  destruct (valid_canonical _ _ _ _ _ Hy) as [Hcy _].
  unfold within, SFmul. rewrite abs_round_aux.
  apply round_aux_within; [lia|lia|lia|lia| |exact Hgrid|exact Hmax|].
  - rewrite Pos2Z.inj_mul, !scaled_mul by lia.
    apply Z.mul_le_mono_nonneg; [apply scaled_nonneg; lia|exact Hle1| |exact Hle2].
    apply scaled_nonneg; lia.
  - by apply mul_canonical.
Qed.
End Products.

(** *** The linear values are numbers *)

Lemma of_float_valid (x : spec_float) : F64.valid (F64.of_float x) = true.
Proof.
  destruct x as [s|s| |s m e]; try done.
  unfold F64.of_float, F64.valid. by apply binary_round_valid.
Qed.

(** A finite [float] converted to [double] keeps its bound. *)
Lemma of_float_within (L : Z) (x : spec_float) :
  L <= -1074 -> finite_float x = true ->
  within L FLT_MAX_m FLT_MAX_e (F64.of_float x).
Proof.
  intros HL Hx. apply andb_prop in Hx as [Hvalid Hfin].
  pose proof (float_within L x ltac:(lia) Hvalid Hfin) as W.
  destruct x as [s|s| |s m e]; try done.
  destruct W as (_ & He & Hle). unfold F64.of_float.
  apply binary_round_within;
    [exact He | unfold emin, F64.prec, F64.emax; lia | unfold FLT_MAX_e; lia
    | reflexivity | exact Hle | by vm_compute | by vm_compute].
Qed.

(** A constant of magnitude at most 4 times a finite [float], in
    [double]: a finite number. *)
Lemma mul_constant_finite (lit x : spec_float) :
  F64.valid lit = true -> within (-60) 1 2 lit -> finite_float x = true ->
  is_finite (F64.mul lit (F64.of_float x)) = true.
Proof.
  intros Hlit Wlit Hx.
  eapply within_finite.
  apply (SFmul_within F64.prec F64.emax ltac:(done) ltac:(done)
           (-60) (-1074) 1 2 FLT_MAX_m FLT_MAX_e);
    [exact Hlit | apply of_float_valid | exact Wlit
    | apply of_float_within; [lia|exact Hx]
    | lia | reflexivity | lia | unfold FLT_MAX_e; lia
    | by vm_compute | by vm_compute].
Qed.

Lemma of_float_finite (x : spec_float) :
  finite_float x = true -> is_finite (F64.of_float x) = true.
Proof.
  intros Hx. eapply within_finite. apply (of_float_within (-1074)); [lia|exact Hx].
Qed.

Lemma is_finite_not_nan (x : spec_float) : is_finite x = true -> is_nan x = false.
Proof. by destruct x. Qed.

(** With finite luma and chroma none of the three linear values is a
    NaN. *)
Lemma linear_not_nan (yuv : yuv_color) :
  finite_float (yuv_y yuv) = true -> finite_float (yuv_u yuv) = true ->
  finite_float (yuv_v yuv) = true ->
  is_nan (linear_r yuv) = false /\ is_nan (linear_g yuv) = false /\
  is_nan (linear_b yuv) = false.
Proof.
  intros Hy Hu Hv.
  pose proof (of_float_finite _ Hy) as HY.
  assert (Hlit : forall lit x,
            lit ∈ [F64.lit 113983 100000; F64.opp (F64.lit 39465 100000);
                   F64.opp (F64.lit 58060 100000); F64.lit 203211 100000] ->
            finite_float x = true -> is_finite (F64.mul lit (F64.of_float x)) = true).
  { intros lit x Hl Hx. apply mul_constant_finite; [| |exact Hx];
      repeat (apply elem_of_cons in Hl as [->|Hl]; [by vm_compute|]); inversion Hl. }
  unfold linear_r, linear_g, linear_b. repeat split; apply of_double_not_nan.
  - apply SFadd_not_nan; [by apply is_finite_not_nan|].
    apply Hlit; [|exact Hv]. repeat constructor.
  - apply SFadd_not_nan.
    + apply SFadd_not_nan; [by apply is_finite_not_nan|].
      apply Hlit; [|exact Hu]. repeat constructor.
    + apply Hlit; [|exact Hv]. repeat constructor.
  - apply SFadd_not_nan; [by apply is_finite_not_nan|].
    apply Hlit; [|exact Hu]. repeat constructor.
Qed.

(** The three bytes of linear values that are numbers. *)
Lemma yuv_to_rgb_bytes (yuv : yuv_color) :
  is_nan (linear_r yuv) = false -> is_nan (linear_g yuv) = false ->
  is_nan (linear_b yuv) = false ->
  exists rgb,
    yuv_to_rgb yuv = Some rgb /\
    0 <= r rgb <= 255 /\ 0 <= g rgb <= 255 /\ 0 <= b rgb <= 255.
Proof.
  intros Hr Hg Hb.
  destruct (to_byte_BOUND (linear_r yuv) (of_double_valid _) Hr) as (_ & _ & zr & Er & Hzr).
  destruct (to_byte_BOUND (linear_g yuv) (of_double_valid _) Hg) as (_ & _ & zg & Eg & Hzg).
  destruct (to_byte_BOUND (linear_b yuv) (of_double_valid _) Hb) as (_ & _ & zb & Eb & Hzb).
  exists {| r := zr; g := zg; b := zb |}.
  unfold yuv_to_rgb. rewrite Er, Eg, Eb. cbn [mbind option_bind r g b].
  split; [reflexivity|]. split; [exact Hzr|]. split; [exact Hzg|exact Hzb].
Qed.

(** X16: [yuv_to_rgb] has defined behaviour on every colour whose luma
    and chroma are finite [float]s, however large: each linear value is
    then a number or an infinity, the clamp brings it between 0 and 1, and
    the three components stored are integers in the range 0 to 255. *)
Theorem X16_yuv_to_rgb_total (yuv : yuv_color) :
  finite_float (yuv_y yuv) = true -> finite_float (yuv_u yuv) = true ->
  finite_float (yuv_v yuv) = true ->
  exists rgb,
    yuv_to_rgb yuv = Some rgb /\
    0 <= r rgb <= 255 /\ 0 <= g rgb <= 255 /\ 0 <= b rgb <= 255.
Proof.
  intros Hy Hu Hv.
  destruct (linear_not_nan yuv Hy Hu Hv) as (Hr & Hg & Hb).
  by apply yuv_to_rgb_bytes.
Qed.

Lemma X16_witness :
  finite_float (yuv_y red_yuv) = true /\ finite_float (yuv_u red_yuv) = true /\
  finite_float (yuv_v red_yuv) = true /\
  exists rgb, yuv_to_rgb red_yuv = Some rgb /\ 0 <= g rgb <= 255.
Proof.
  assert (Hy : finite_float (yuv_y red_yuv) = true) by (vm_compute; reflexivity).
  assert (Hu : finite_float (yuv_u red_yuv) = true) by (vm_compute; reflexivity).
  assert (Hv : finite_float (yuv_v red_yuv) = true) by (vm_compute; reflexivity).
  split; [exact Hy|]. split; [exact Hu|]. split; [exact Hv|].
  destruct (X16_yuv_to_rgb_total red_yuv Hy Hu Hv) as (rgb & E & _ & Hg & _).
  exists rgb. split; [exact E|exact Hg].
Defined.

(** ** Finite saturations: the palette and the whole run (X17, X19, X20) *)

(** *** The chroma terms are finite *)

Lemma within_lower (L L' c k : Z) (x : spec_float) :
  L' <= L -> L <= k -> within L c k x -> within L' c k x.
Proof.
  intros HL Hk W. destruct x as [s|s| |s m e]; try done.
  destruct W as (_ & He & Hle). unfold within. cbn [SFabs below].
  split; [done|]. split; [lia|].
  unfold scaled in *.
  replace (e - L') with ((e - L) + (L - L')) by lia.
  replace (k - L') with ((k - L) + (L - L')) by lia.
  rewrite !pow2_add, !Z.mul_assoc by lia.
  apply Z.mul_le_mono_nonneg_r; [|exact Hle].
  pose proof (pow2_pos (L - L') ltac:(lia)). lia.
Qed.

(** A bounded number converted to [double] keeps its bound. *)
Lemma of_float_keeps (L c k : Z) (x : spec_float) :
  L <= -1074 -> L <= k -> 0 < c ->
  fexp F64.prec F64.emax (Zdigits2 c + k) <= k -> k <= F64.emax - F64.prec ->
  within L c k x -> within L c k (F64.of_float x).
Proof.
  intros HL Hk Hc Hgrid Hmax W. destruct x as [s|s| |s m e]; try done.
  destruct W as (_ & He & Hle). unfold F64.of_float.
  apply binary_round_within;
    [exact He | unfold emin, F64.prec, F64.emax; lia | exact Hk | exact Hc
    | exact Hle | exact Hgrid | exact Hmax].
Qed.

(** A bounded [double] stored in a [float] is finite when the bound is a
    [float]. *)
Lemma of_double_finite (L c k : Z) (x : spec_float) :
  L <= -149 -> L <= k -> 0 < c ->
  fexp F32.prec F32.emax (Zdigits2 c + k) <= k -> k <= F32.emax - F32.prec ->
  within L c k x -> finite_float (F32.of_double x) = true.
Proof.
  intros HL Hk Hc Hgrid Hmax W. unfold finite_float.
  rewrite of_double_valid. cbn [andb].
  destruct x as [s|s| |s m e]; try done.
  destruct W as (_ & He & Hle). unfold F32.of_double.
  eapply within_finite.
  apply (binary_round_within F32.prec F32.emax L s m e c k);
    [exact He | unfold emin, F32.prec, F32.emax; lia | exact Hk | exact Hc
    | exact Hle | exact Hgrid | exact Hmax].
Qed.

Lemma double_one : F64.of_int 1 = S754_finite false 4503599627370496 (-52).
Proof. vm_compute. reflexivity. Qed.

(** What [|x| <= 1] says of a finite [double]. *)
Lemma double_not_above_1 (m : positive) (e : Z) :
  SFleb (S754_finite false m e) (F64.of_int 1) = true ->
  e < -52 \/ (e = -52 /\ Z.pos m <= Z.pos 4503599627370496).
Proof.
  rewrite double_one. unfold SFleb, SFcompare.
  destruct (Z.compare_spec e (-52)) as [He|Hlt|Hgt]; [|left; exact Hlt|discriminate].
  rewrite Pos.compare_cont_spec. cbn [Pos.switch_Eq].
  destruct (Pos.compare_spec m 4503599627370496) as [Hm|Hm|Hm]; [| |discriminate].
  - intros _. right. split; [exact He|]. rewrite Hm. apply Z.le_refl.
  - intros _. right. split; [exact He|].
    apply Z.lt_le_incl. apply Pos2Z.pos_lt_pos. exact Hm.
Qed.

(** A [double] of magnitude at most 1. *)
Lemma unit_within (L : Z) (x : spec_float) :
  L <= -1074 -> F64.valid x = true -> unit_bounded x = true -> within L 1 0 x.
Proof.
  intros HL Hvalid Hunit. destruct x as [s|s| |s m e]; [exact I|by destruct s|done|].
  destruct (valid_canonical F64.prec F64.emax s m e Hvalid) as [Hcan _].
  pose proof (valid_mantissa F64.prec F64.emax s m e ltac:(done) Hvalid) as Hm.
  assert (He : -1074 <= e) by (unfold fexp, emin, F64.prec, F64.emax in Hcan; lia).
  unfold within. cbn [SFabs below]. split; [reflexivity|]. split; [lia|].
  unfold unit_bounded in Hunit. cbn [SFabs] in Hunit.
  apply double_not_above_1 in Hunit.
  unfold scaled. rewrite Z.mul_1_l.
  pose proof (pow2_pos (e - L) ltac:(lia)) as Hp.
  destruct Hunit as [Hlt|[He52 Hle]].
  - unfold F64.prec in Hm.
    replace (0 - L) with (53 + ((-53 - e) + (e - L))) by lia.
    rewrite !pow2_add by lia.
    pose proof (pow2_pos (-53 - e) ltac:(lia)) as Hq.
    transitivity (2 ^ 53 * 2 ^ (e - L)).
    + apply Z.mul_le_mono_nonneg_r; [lia|]. apply Z.lt_le_incl, Hm.
    + apply Z.mul_le_mono_nonneg_l; [apply Z.lt_le_incl, pow2_pos; lia|].
      rewrite <- (Z.mul_1_l (2 ^ (e - L))) at 1.
      apply Z.mul_le_mono_nonneg_r; lia.
  - subst e. replace (0 - L) with (52 + (-52 - L)) by lia.
    rewrite pow2_add by lia.
    apply Z.mul_le_mono_nonneg_r; [lia|]. exact Hle.
Qed.

(** The saturation column of the table, as [float]s. *)
Lemma table_saturation (c64 : c64_color) :
  c64 ∈ c64_colors ->
  F32.valid (F32.of_int (saturation c64)) = true /\
  within (-23) 1 0 (F32.of_int (saturation c64)).
Proof.
  intros H. unfold c64_colors in H.
  repeat (apply elem_of_cons in H as [->|H]; [split; by vm_compute|]).
  inversion H.
Qed.

(** The luma column of the table: [luma / 32] is a finite [float]. *)
Lemma table_luma (c64 : c64_color) :
  c64 ∈ c64_colors ->
  finite_float (F32.of_double (F64.div (F64.of_int (luma c64)) (F64.of_int 32))) = true.
Proof.
  intros H. unfold c64_colors in H.
  repeat (apply elem_of_cons in H as [->|H]; [by vm_compute|]).
  inversion H.
Qed.

Lemma scale_within :
  F32.valid (F32.of_double USCALE) = true /\ within (-26) 1 0 (F32.of_double USCALE).
Proof. split; by vm_compute. Qed.

(** The chroma of a colour of the table is a finite [float] when the
    global saturation is one and the trigonometric function keeps within
    -1 and 1. *)
Lemma chroma_finite (sat : spec_float) (c64 : c64_color) (f : spec_float -> spec_float) :
  finite_float sat = true -> c64 ∈ c64_colors -> sane_trig f ->
  finite_float (chroma sat c64 (F32.of_double USCALE) f) = true.
Proof.
  intros Hsat Hc Hf. apply andb_prop in Hsat as [Hvalid Hfin].
  destruct (table_saturation c64 Hc) as [Vs Ws].
  destruct scale_within as [Vscale Wscale].
  destruct (Hf (hue c64) (hue_finite c64 Hc)) as [Vt Ut].
  assert (P32 : 0 < F32.prec) by reflexivity.
  assert (M32 : emin F32.prec F32.emax <= 0) by by_computation.
  assert (P64 : 0 < F64.prec) by reflexivity.
  assert (M64 : emin F64.prec F64.emax <= 0) by by_computation.
  set (A := F32.mul (F32.of_int (saturation c64)) sat).
  assert (WA : within (-172) FLT_MAX_m FLT_MAX_e A).
  { apply (SFmul_within F32.prec F32.emax P32 M32 (-23) (-149) 1 0 FLT_MAX_m FLT_MAX_e);
      [exact Vs | exact Hvalid | exact Ws | apply float_within; [lia|exact Hvalid|exact Hfin]
      | lia | reflexivity | lia | unfold FLT_MAX_e; lia | by_computation | by_computation]. }
  assert (VA : F32.valid A = true)
    by (apply (SFmul_valid F32.prec F32.emax P32 M32); [exact Vs|exact Hvalid]).
  set (B := F32.mul A (F32.of_double USCALE)).
  assert (WB : within (-198) FLT_MAX_m FLT_MAX_e B).
  { apply (SFmul_within F32.prec F32.emax P32 M32 (-172) (-26) FLT_MAX_m FLT_MAX_e 1 0);
      [exact VA | exact Vscale | exact WA | exact Wscale
      | reflexivity | lia | unfold FLT_MAX_e; lia | lia | by_computation | by_computation]. }
  apply (within_lower (-198) (-1074)) in WB; [|lia|unfold FLT_MAX_e; lia].
  apply (of_float_keeps (-1074)) in WB;
    [|lia|unfold FLT_MAX_e; lia|reflexivity|by_computation|by_computation].
  set (C := F64.of_float B) in *.
  assert (WD : within (-2148) FLT_MAX_m FLT_MAX_e (F64.mul C (f (hue c64)))).
  { apply (SFmul_within F64.prec F64.emax P64 M64 (-1074) (-1074) FLT_MAX_m FLT_MAX_e 1 0);
      [apply of_float_valid | exact Vt | exact WB | apply unit_within; [lia|exact Vt|exact Ut]
      | reflexivity | lia | unfold FLT_MAX_e; lia | lia | by_computation | by_computation]. }
  unfold chroma. fold A B C.
  apply (of_double_finite (-2148) FLT_MAX_m FLT_MAX_e);
    [lia|unfold FLT_MAX_e; lia|reflexivity|by_computation|by_computation|exact WD].
Qed.

Section Totality.
Variables cos sin : spec_float -> spec_float.
Hypothesis cos_sane : sane_trig cos.
Hypothesis sin_sane : sane_trig sin.

(** Every entry of the palette is defined at a finite saturation. *)
Lemma c64_to_rgb_total (sat : spec_float) (c64 : c64_color) :
  finite_float sat = true -> c64 ∈ c64_colors ->
  exists rgb,
    c64_to_rgb cos sin sat c64 (F32.of_double USCALE) (F32.of_double VSCALE) = Some rgb /\
    in_range rgb.
Proof using cos_sane sin_sane.
  intros Hsat Hc. unfold c64_to_rgb.
  apply yuv_to_rgb_bytes; apply linear_not_nan; cbn [c64_to_yuv yuv_y yuv_u yuv_v];
    first [by apply table_luma | by apply chroma_finite].
Qed.

(** X19: at every finite saturation, however large or small, and with a
    [cos] and a [sin] whose values are [double]s between -1 and 1,
    [init_colors] has defined behaviour: all sixteen entries are stored and
    each of their 48 components is an integer in the range 0 to 255. *)
Theorem X19_init_colors_total (sat : spec_float) :
  finite_float sat = true ->
  exists pal,
    init_colors cos sin sat = Some pal /\ length pal = Z.to_nat 16 /\
    Forall in_range pal.
Proof using cos_sane sin_sane.
  intros Hsat.
  destruct (mapM_Forall
              (fun c64 => c64_to_rgb cos sin sat c64 (F32.of_double USCALE) (F32.of_double VSCALE))
              in_range c64_colors) as (pal & E & Hrange).
  { intros c64 Hc. by apply c64_to_rgb_total. }
  exists pal. split; [exact E|]. split; [|exact Hrange].
  apply length_mapM in E. by rewrite <- E.
Qed.
End Totality.

(** *** The whole run *)

Lemma default_saturation_finite : finite_float (F32.of_double SATURATION) = true.
Proof. vm_compute. reflexivity. Qed.

(** The saturation [getargs] leaves is the default or one of the [-s]
    values. *)
Lemma getargs_options_finite (atof : string -> spec_float) (a0 : string)
    (opts : list getopt_ret) :
  forall (sat sat' : spec_float) (w w' : world),
    finite_options atof opts = true -> finite_float sat = true ->
    getargs_options atof a0 sat opts w = Return sat' w' ->
    finite_float sat' = true.
Proof.
  induction opts as [|o opts IH]; intros sat sat' w w' Hopts Hsat H.
  - by injection H as <- _.
  - apply andb_prop in Hopts as [Ho Hopts]. destruct o; try discriminate H.
    cbn [getargs_options] in H. destruct (F32.ltb _ _); [discriminate H|].
    eapply IH; [exact Hopts| |exact H].
    unfold finite_float. by rewrite of_double_valid, Ho.
Qed.

Lemma getargs_finite (atof : string -> spec_float) (cmd : cmdline) (w w' : world)
    (sat : spec_float) (name : option string) :
  finite_options atof (options cmd) = true ->
  getargs atof cmd w = Return (sat, name) w' ->
  finite_float sat = true.
Proof.
  intros Hopts. unfold getargs.
  destruct (getargs_options _ _ _ _ _) as [st w1|sat1 w1] eqn:E; [discriminate|].
  pose proof (getargs_options_finite atof _ _ _ _ _ _ Hopts
                default_saturation_finite E) as Hfin.
  destruct (operands cmd) as [|n [|n' rest]]; intros H; try discriminate H;
    by injection H as <- _ _.
Qed.

Section Defined.
Variables cos sin : spec_float -> spec_float.
Variable atof : string -> spec_float.
Variable files : string -> option (list Z).
Variable stdin : list Z.
Variable stack : frame.
Hypothesis cos_sane : sane_trig cos.
Hypothesis sin_sane : sane_trig sin.

Lemma init_colors_defined (sat : spec_float) :
  finite_float sat = true -> exists pal, init_colors cos sin sat = Some pal.
Proof using cos_sane sin_sane.
  intros Hsat.
  destruct (mapM_Forall
              (fun c64 => c64_to_rgb cos sin sat c64 (F32.of_double USCALE) (F32.of_double VSCALE))
              in_range c64_colors) as (pal & E & _).
  { intros c64 Hc. by apply c64_to_rgb_total. }
  by exists pal.
Qed.

(** X20: the only undefined behaviour of [main] is the one a [-s] value
    that is not a finite [float] brings. With a [cos] and a [sin] whose
    values are [double]s between -1 and 1, on every command line whose
    [-s] values are finite once stored, every file system and every input,
    [main] returns: with the status of [getargs], with -1 when the file
    cannot be opened, or with 0 and the whole pixmap on standard output. *)
Theorem X20_main_defined (cmd : cmdline) :
  frame_wf stack -> finite_options atof (options cmd) = true ->
  exists st w,
    main cos sin atof files stdin stack cmd = Some (st, w) /\
    (st = 0 \/ st = 1 \/ st = -1) /\
    (stdout w = [] \/ (st = 0 /\ length (stdout w) = Z.to_nat 96015)).
Proof using cos_sane sin_sane.
  intros Hstack Hopts.
  destruct (getargs atof cmd start) as [st0 w0|[sat name] w0] eqn:Hargs.
  - exists st0, w0. unfold main. rewrite Hargs. split; [reflexivity|].
    pose proof (getargs_world atof cmd start) as Hw. rewrite Hargs in Hw.
    destruct Hw as (_ & _ & Hout & _). cbn [result_world] in Hout.
    split; [|left; exact Hout].
    destruct (getargs_Exit _ _ _ _ _ Hargs) as [->| ->]; auto.
  - pose proof (getargs_finite atof cmd _ _ _ _ Hopts Hargs) as Hsat.
    pose proof (getargs_Return atof cmd _ _ _ Hargs) as ->.
    destruct (opened_input files stdin name) as [input|] eqn:Hopen.
    + destruct (init_colors_defined sat Hsat) as [pal Hpal].
      destruct (main_run cos sin atof files stdin stack cmd sat name start input pal
                  Hargs Hopen Hpal Hstack) as (w1 & calls & E & Hout & _).
      destruct (pixmap_layout pal (decode input) (stdout w1) Hout) as (Hlen & _).
      exists 0, w1. split; [exact E|]. split; [left; reflexivity|].
      right. split; [reflexivity|exact Hlen].
    + destruct name as [n|]; [|discriminate Hopen]. cbn [opened_input] in Hopen.
      eexists (-1), _. unfold main. rewrite Hargs. unfold fopen. rewrite Hopen.
      split; [reflexivity|]. split; [auto|]. left. reflexivity.
Qed.
End Defined.

(** X17: what the clamp does to one linear value. For every [float]
    that is not a NaN, the infinities included, [BOUND] leaves a value
    between 0 and 1, and [255*x + 0.5] of that value converts to an
    integer in the range 0 to 255. *)
Theorem X17_clamp_per_value (x : spec_float) :
  F32.valid x = true -> is_nan x = false ->
  SFleb (F32.of_int 0) (BOUND x) = true /\
  SFleb (BOUND x) (F32.of_int 1) = true /\
  exists z, to_byte (BOUND x) = Some z /\ 0 <= z <= 255.
Proof.
  intros Hvalid Hnan.
  destruct (BOUND_cases x) as [->|[->|(-> & H0 & H1)]].
  - split; [reflexivity|]. split; [reflexivity|]. exists 0.
    split; [vm_compute; reflexivity|lia].
  - split; [reflexivity|]. split; [reflexivity|]. exists 255.
    split; [vm_compute; reflexivity|lia].
  - destruct (unit_interval x Hnan H0 H1) as [Hlo Hhi].
    split; [exact Hlo|]. split; [exact Hhi|]. by apply to_byte_unit.
Qed.

Lemma trig_lookup_sane (x : spec_float) (table : list (spec_float * spec_float)) :
  forallb (fun kv => F64.valid (snd kv) && unit_bounded (snd kv)) table = true ->
  F64.valid (trig_lookup x table) = true /\ unit_bounded (trig_lookup x table) = true.
Proof.
  induction table as [|[k v] table IH]; intros H.
  - split; vm_compute; reflexivity.
  - apply andb_prop in H as [Hv H]. apply andb_prop in Hv as [Hv1 Hv2].
    cbn [trig_lookup]. destruct (SFeqb k x); [by split|by apply IH].
Qed.

Lemma cos_sample_sane : sane_trig cos_sample.
Proof.
  intros x _. unfold cos_sample, trig_table. cbv zeta.
  apply trig_lookup_sane. vm_compute. reflexivity.
Qed.

Lemma sin_sample_sane : sane_trig sin_sample.
Proof.
  intros x _. unfold sin_sample, trig_table. cbv zeta.
  apply trig_lookup_sane. vm_compute. reflexivity.
Qed.

Lemma X17_witness :
  F32.valid two = true /\ is_nan two = false /\
  BOUND two = F32.of_int 1 /\
  exists z, to_byte (BOUND two) = Some z /\ 0 <= z <= 255.
Proof.
  split; [reflexivity|]. split; [reflexivity|]. split; [reflexivity|].
  exact (proj2 (proj2 (X17_clamp_per_value two eq_refl eq_refl))).
Defined.

Lemma X19_witness :
  sane_trig cos_sample /\ sane_trig sin_sample /\
  finite_float (F32.of_double SATURATION) = true /\
  exists pal,
    init_colors cos_sample sin_sample (F32.of_double SATURATION) = Some pal /\
    Forall in_range pal.
Proof.
  split; [exact cos_sample_sane|]. split; [exact sin_sample_sane|].
  split; [exact default_saturation_finite|].
  destruct (X19_init_colors_total cos_sample sin_sample cos_sample_sane sin_sample_sane
              (F32.of_double SATURATION) default_saturation_finite)
    as (pal & E & _ & Hrange).
  exists pal. split; [exact E|exact Hrange].
Defined.

Lemma X20_witness :
  sane_trig cos_sample /\ sane_trig sin_sample /\
  frame_wf junk_frame /\ finite_options atof_sample (options twice_cmd) = true /\
  exists st w,
    main cos_sample sin_sample atof_sample no_files only_load_address junk_frame twice_cmd
    = Some (st, w).
Proof.
  assert (Hopts : finite_options atof_sample (options twice_cmd) = true)
    by (vm_compute; reflexivity).
  split; [exact cos_sample_sane|]. split; [exact sin_sample_sane|].
  split; [exact junk_frame_wf|]. split; [exact Hopts|].
  destruct (X20_main_defined cos_sample sin_sample atof_sample no_files only_load_address
              junk_frame cos_sample_sane sin_sample_sane twice_cmd junk_frame_wf Hopts)
    as (st & w & E & _).
  exists st, w. exact E.
Defined.
